(** * Tucker / SF-Tucker algebra of tucker_riemopt: a shallow embedding

    The development follows the three source files

      - [src/backend/pytorch_backend.py]         (module [PyTorchBackend]),
      - [tucker_riemopt/symmetric/tucker.py]     (module [Tucker]),
      - [tucker_riemopt/sf_tucker/matrix.py]     (module [SFTuckerMatrix]),

    on top of a small model of the part of PyTorch they call (module
    [torch]).  Dense arrays are a shape together with their entries in
    row-major order; entries are integers, so every statement below is
    about exact arithmetic.  Python exceptions are the [Raise] results of
    an error monad; the methods that deep-copy an object (the two
    products, multiplication by a number, negation and subtraction) run
    in a state monad over a store of [Tucker] objects.

    The two tensor classes reach the adapter through the name [back].  A
    call [back.f(...)] is a call of the adapter's [f] with the arguments
    and keywords written at the call site, and it is matched against the
    signature the adapter declares: a keyword that names no parameter is
    a [TypeError], and [back.type], a property of the adapter, is a
    value before it is called. *)

From Stdlib Require Import ZArith List String Ascii Bool Lia.
From stdpp Require Import base option list gmap pretty.
Import ListNotations.

Local Open Scope nat_scope.

(** ** Python exceptions and the error monad *)

Inductive exn : Type :=
| ValueError (msg : string)
| IndexError
| TypeError
| AttributeError
| RuntimeError
| NotImplementedError
| ReferenceError.

Inductive result (A : Type) : Type :=
| Ok (a : A)
| Raise (e : exn).

Arguments Ok {A} a.
Arguments Raise {A} e.

#[global] Instance result_ret : MRet result := fun A a => Ok a.

#[global] Instance result_bind : MBind result := fun A B f m =>
  match m with
  | Ok a => f a
  | Raise e => Raise e
  end.

Definition is_ok {A} (m : result A) : bool :=
  match m with Ok _ => true | Raise _ => false end.

(** [for x in xs: ys.append(f x)] where [f] may raise. *)
Fixpoint for_each {A B} (f : A -> result B) (xs : list A) : result (list B) :=
  match xs with
  | [] => Ok []
  | x :: xs' => y ← f x; ys ← for_each f xs'; Ok (y :: ys)
  end.

(** ** Python sequences *)

Definition range (n : nat) : list nat := seq 0 n.

(** [l[i]] on a list or tuple: negative indices count from the end. *)
Definition py_index {A} (l : list A) (i : Z) : result A :=
  let n := Z.of_nat (length l) in
  let j := if (i <? 0)%Z then (i + n)%Z else i in
  if (j <? 0)%Z then Raise IndexError
  else match l !! Z.to_nat j with
       | Some x => Ok x
       | None => Raise IndexError
       end.

(** [l[i] = x]. *)
Definition py_setitem {A} (l : list A) (i : Z) (x : A) : result (list A) :=
  let n := Z.of_nat (length l) in
  let j := if (i <? 0)%Z then (i + n)%Z else i in
  if (j <? 0)%Z then Raise IndexError
  else if (j <? n)%Z then Ok (<[Z.to_nat j := x]> l)
  else Raise IndexError.

(** [x in l] for a list of integers. *)
Definition py_in (x : Z) (l : list Z) : bool := existsb (Z.eqb x) l.

(** [string.ascii_letters]. *)
Definition ascii_letters : string :=
  "abcdefghijklmnopqrstuvwxyzABCDEFGHIJKLMNOPQRSTUVWXYZ"%string.

(** [s[i]] for [0 <= i]. *)
Definition str_index (s : string) (i : nat) : result ascii :=
  match String.get i s with
  | Some c => Ok c
  | None => Raise IndexError
  end.

(** [s[a:b]] for [0 <= a, b]: slices clip, they never raise. *)
Definition str_slice (s : string) (a b : nat) : string :=
  String.substring a (Nat.min b (String.length s) - a) s.

Definition str_of_chars (cs : list ascii) : string :=
  fold_right String EmptyString cs.

(** [sep.join(l)]. *)
Definition join (sep : string) (l : list string) : string := String.concat sep l.

(** ** The part of PyTorch the sources call

    A tensor is its shape and its entries in row-major (C) order.  Every
    operation below builds its result with [tabulate], entry by entry,
    from the entries of its operands read with [get]. *)

Module torch.

Record Tensor : Type := mkTensor { shape : list nat; data : list Z }.

Definition numel (sh : list nat) : nat := fold_right Nat.mul 1 sh.

Definition ndim (t : Tensor) : nat := length (shape t).

(** All multi-indices below [sh], in row-major order. *)
Fixpoint indices (sh : list nat) : list (list nat) :=
  match sh with
  | [] => [[]]
  | n :: sh' => flat_map (fun i => map (cons i) (indices sh')) (seq 0 n)
  end.

(** Position of a multi-index in the row-major layout. *)
Fixpoint ravel (sh idx : list nat) : nat :=
  match sh, idx with
  | _ :: sh', i :: idx' => i * numel sh' + ravel sh' idx'
  | _, _ => 0
  end.

Definition get (t : Tensor) (idx : list nat) : Z :=
  nth (ravel (shape t) idx) (data t) 0%Z.

Definition tabulate (sh : list nat) (f : list nat -> Z) : Tensor :=
  mkTensor sh (map f (indices sh)).

(** [tensor.shape[i]] for [0 <= i]. *)
Definition shape_at (t : Tensor) (i : nat) : result nat :=
  match shape t !! i with
  | Some n => Ok n
  | None => Raise IndexError
  end.

(** [tensor.clone()]. *)
Definition clone (t : Tensor) : Tensor := t.

(** [tensor.T]: the axes in reverse order. *)
Definition T (t : Tensor) : Tensor :=
  tabulate (rev (shape t)) (fun idx => get t (rev idx)).

(** [tensor.permute] with the axes [dims]. *)
Definition is_permutation (dims : list nat) (n : nat) : bool :=
  (length dims =? n) && forallb (fun j => existsb (Nat.eqb j) dims) (range n).

Fixpoint position (j : nat) (dims : list nat) : nat :=
  match dims with
  | [] => 0
  | d :: dims' => if d =? j then 0 else S (position j dims')
  end.

Definition permute (t : Tensor) (dims : list nat) : result Tensor :=
  if is_permutation dims (ndim t)
  then Ok (tabulate (map (fun d => nth d (shape t) 0) dims)
             (fun idx => get t (map (fun j => nth (position j dims) idx 0) (range (ndim t)))))
  else Raise RuntimeError.

(** [tensor.reshape] to [newshape], one entry of which may be [-1]. *)
Definition infer_shape (n : nat) (sh : list Z) : result (list nat) :=
  if existsb (fun d => (d <? -1)%Z) sh then Raise RuntimeError
  else
    let known := numel (map Z.to_nat (filter (fun d => d ≠ (-1)%Z) sh)) in
    match length (filter (fun d => d = (-1)%Z) sh) with
    | 0 => if known =? n then Ok (map Z.to_nat sh) else Raise RuntimeError
    | 1 => if known =? 0 then Raise RuntimeError
           else if n mod known =? 0
                then Ok (map (fun d => if (d =? -1)%Z then n / known else Z.to_nat d) sh)
                else Raise RuntimeError
    | _ => Raise RuntimeError
    end.

Definition reshape (t : Tensor) (newshape : list Z) : result Tensor :=
  sh ← infer_shape (numel (shape t)) newshape;
  Ok (mkTensor sh (data t)).

(** [torch.cat(tensors, dim)].  An entry that is no tensor is a
    [TypeError]; a tensor of order 0 cannot be concatenated; an axis the
    first tensor does not have is an [IndexError]; shapes must agree off
    the concatenation axis.  (The exemption torch keeps for operands of
    shape [(0,)] is not modelled.) *)
Definition same_except (dim : nat) (sh1 sh2 : list nat) : bool :=
  (length sh1 =? length sh2)
  && forallb (fun j => (j =? dim) || (nth j sh1 0 =? nth j sh2 0)) (range (length sh1)).

Fixpoint cat_get (ts : list Tensor) (dim : nat) (idx : list nat) : Z :=
  match ts with
  | [] => 0%Z
  | t :: ts' =>
      let n := nth dim (shape t) 0 in
      let i := nth dim idx 0 in
      if i <? n then get t idx else cat_get ts' dim (<[dim := i - n]> idx)
  end.

Definition cat_tensors (ts : list Tensor) (dim : nat) : result Tensor :=
  match ts with
  | [] => Raise RuntimeError
  | t0 :: _ =>
      if existsb (fun t => ndim t =? 0) ts then Raise RuntimeError
      else if negb (dim <? ndim t0) then Raise IndexError
      else if forallb (fun t => same_except dim (shape t0) (shape t)) ts
      then Ok (tabulate
                 (<[dim := sum_list (map (fun t => nth dim (shape t) 0) ts)]> (shape t0))
                 (cat_get ts dim))
      else Raise RuntimeError
  end.

Definition cat (ts : list (option Tensor)) (dim : nat) : result Tensor :=
  match mapM id ts with
  | None => Raise TypeError
  | Some ts' => cat_tensors ts' dim
  end.

(** [torch.nn.functional.pad(input, pad, "constant", 0)]: [pad] lists a
    (left, right) pair per axis, starting from the LAST axis and moving
    forward. *)
Fixpoint pairs (l : list nat) : option (list (nat * nat)) :=
  match l with
  | [] => Some []
  | a :: b :: l' => ps ← pairs l'; Some ((a, b) :: ps)
  | _ => None
  end.

Definition pad (input : Tensor) (p : list nat) : result Tensor :=
  match pairs p with
  | None => Raise RuntimeError
  | Some ps =>
      if length ps <=? ndim input then
        let lr := rev (ps ++ repeat (0, 0) (ndim input - length ps)) in
        Ok (tabulate
              (zip_with (fun n '(l, r) => l + n + r) (shape input) lr)
              (fun idx =>
                 if forallb (fun '(i, (n, (l, _))) => (l <=? i) && (i <? l + n))
                      (zip idx (zip (shape input) lr))
                 then get input (zip_with (fun i '(l, _) => i - l) idx lr)
                 else 0%Z))
      else Raise RuntimeError
  end.

(** Broadcasting: shapes are aligned at their last axis; an axis of size
    1 stretches. *)
Fixpoint broadcast_rev (r1 r2 : list nat) : result (list nat) :=
  match r1, r2 with
  | [], r | r, [] => Ok r
  | a :: r1', b :: r2' =>
      r ← broadcast_rev r1' r2';
      if a =? b then Ok (a :: r)
      else if a =? 1 then Ok (b :: r)
      else if b =? 1 then Ok (a :: r)
      else Raise RuntimeError
  end.

Definition broadcast_shapes (sh1 sh2 : list nat) : result (list nat) :=
  r ← broadcast_rev (rev sh1) (rev sh2); Ok (rev r).

(** The index into an operand of shape [sh] for an index [idx] of the
    broadcast result. *)
Definition bcast_idx (sh idx : list nat) : list nat :=
  zip_with (fun n i => if n =? 1 then 0 else i) sh (drop (length idx - length sh) idx).

(** [a * b], elementwise. *)
Definition mul (a b : Tensor) : result Tensor :=
  sh ← broadcast_shapes (shape a) (shape b);
  Ok (tabulate sh (fun idx =>
        (get a (bcast_idx (shape a) idx) * get b (bcast_idx (shape b) idx))%Z)).

(** [c * tensor] for a Python number [c]. *)
Definition scale (c : Z) (t : Tensor) : Tensor :=
  mkTensor (shape t) (map (Z.mul c) (data t)).

(** [tensor.sum()]: a tensor of order 0. *)
Definition sum (t : Tensor) : Tensor :=
  mkTensor [] [fold_right Z.add 0%Z (data t)].

(** [tensor != 0], elementwise: 1 where the entry is not zero. *)
Definition ne0 (t : Tensor) : Tensor :=
  mkTensor (shape t) (map (fun z => if (z =? 0)%Z then 0%Z else 1%Z) (data t)).

(** [bool(tensor)] for a tensor of order 0. *)
Definition truthy (t : Tensor) : bool := negb (get t [] =? 0)%Z.

(** [a @ b] ([torch.matmul]): the last two axes are multiplied, an
    operand of order 1 is promoted to a matrix and the added axis is
    removed afterwards, leading axes are broadcast. *)
Definition split_last2 (l : list nat) : list nat * nat * nat :=
  (take (length l - 2) l, nth (length l - 2) l 0, nth (length l - 1) l 0).

Definition matmul (a b : Tensor) : result Tensor :=
  match shape a, shape b with
  | [], _ | _, [] => Raise RuntimeError
  | _, _ =>
      let a1 := ndim a =? 1 in
      let b1 := ndim b =? 1 in
      let a2 := if a1 then mkTensor (1 :: shape a) (data a) else a in
      let b2 := if b1 then mkTensor (shape b ++ [1]) (data b) else b in
      let '(ba, n, m) := split_last2 (shape a2) in
      let '(bb, m', p) := split_last2 (shape b2) in
      if m =? m' then
        bs ← broadcast_shapes ba bb;
        let prod := tabulate (bs ++ [n; p]) (fun idx =>
          let '(bi, i, j) := split_last2 idx in
          fold_right Z.add 0%Z
            (map (fun k => (get a2 (bcast_idx ba bi ++ [i; k])
                            * get b2 (bcast_idx bb bi ++ [k; j]))%Z) (range m))) in
        Ok (mkTensor (bs ++ (if a1 then [] else [n]) ++ (if b1 then [] else [p]))
              (data prod))
      else Raise RuntimeError
  end.

(** [mat @ factor] where the right operand may be [None]. *)
Definition matmul_slot (mat : Tensor) (factor : option Tensor) : result Tensor :=
  match factor with
  | Some f => matmul mat f
  | None => Raise TypeError
  end.

(** [torch.einsum(equation, *operands)] for equations with an explicit
    output ([lhs->rhs]), the only form the sources build.  A subscript
    names one size (an axis of size 1 stretches); a subscript of the
    output must occur in an operand and at most once in the output;
    the subscripts left out of the output are summed over. *)
Fixpoint split_on (c : ascii) (s : string) : list string :=
  match s with
  | EmptyString => [EmptyString]
  | String d s' =>
      if Ascii.eqb c d then EmptyString :: split_on c s'
      else match split_on c s' with
           | [] => [String d EmptyString]
           | w :: ws => String d w :: ws
           end
  end.

Definition split_arrow (s : string) : option (string * string) :=
  match String.index 0 "->" s with
  | Some i => Some (String.substring 0 i s,
                    String.substring (i + 2) (String.length s - (i + 2)) s)
  | None => None
  end.

Definition is_letter (c : ascii) : bool :=
  existsb (Ascii.eqb c) (list_ascii_of_string ascii_letters).

Definition env := list (ascii * nat).

Definition env_get (c : ascii) (e : env) : option nat :=
  snd <$> find (fun p => Ascii.eqb c (fst p)) e.

(** Record that subscript [c] labels an axis of size [n]. *)
Definition bind_size (c : ascii) (n : nat) (e : env) : result env :=
  match env_get c e with
  | None => Ok (e ++ [(c, n)])
  | Some k =>
      if k =? n then Ok e
      else if n =? 1 then Ok e
      else if k =? 1
           then Ok (map (fun p => if Ascii.eqb c (fst p) then (c, n) else p) e)
           else Raise RuntimeError
  end.

Fixpoint bind_term (labels : list ascii) (sh : list nat) (e : env) : result env :=
  match labels, sh with
  | [], [] => Ok e
  | c :: labels', n :: sh' =>
      if is_letter c then e' ← bind_size c n e; bind_term labels' sh' e'
      else Raise RuntimeError
  | _, _ => Raise RuntimeError
  end.

Fixpoint bind_terms (terms : list (list ascii)) (ops : list Tensor) (e : env)
  : result env :=
  match terms, ops with
  | [], [] => Ok e
  | ls :: terms', t :: ops' => e' ← bind_term ls (shape t) e; bind_terms terms' ops' e'
  | _, _ => Raise RuntimeError
  end.

(** The entry of operand [t], labelled [labels], under an assignment of
    indices to subscripts. *)
Definition operand_at (asg : env) (labels : list ascii) (t : Tensor) : Z :=
  get t (zip_with (fun c n => if n =? 1 then 0 else default 0 (env_get c asg))
           labels (shape t)).

(** Sum of [body] over all assignments to the subscripts of [summed]. *)
Fixpoint sum_over (summed : env) (asg : env) (body : env -> Z) : Z :=
  match summed with
  | [] => body asg
  | (c, n) :: summed' =>
      fold_right Z.add 0%Z
        (map (fun i => sum_over summed' ((c, i) :: asg) body) (range n))
  end.

Definition einsum (equation : string) (operands : list Tensor) : result Tensor :=
  match split_arrow equation with
  | None => Raise RuntimeError
  | Some (lhs, rhs) =>
      let terms := map list_ascii_of_string (split_on "," lhs) in
      let out := list_ascii_of_string rhs in
      sizes ← bind_terms terms operands [];
      if forallb (fun c => bool_decide (is_Some (env_get c sizes))) out
         && bool_decide (NoDup out)
      then
        let summed := filter (fun p => negb (existsb (Ascii.eqb (fst p)) out)) sizes in
        Ok (tabulate (map (fun c => default 0 (env_get c sizes)) out)
              (fun idx =>
                 sum_over summed (zip out idx) (fun asg =>
                   fold_right Z.mul 1%Z
                     (zip_with (operand_at asg) terms operands))))
      else Raise RuntimeError
  end.

End torch.

(** ** src/backend/pytorch_backend.py

    The adapter methods the two tensor classes reach through [back].
    An argument that may be [None] in the sources is an [option]. *)

Module PyTorchBackend.

Import torch.

(** What [type(other) == back.type()] compares: classes, and the
    objects a call of a class builds. *)
Inductive py_class : Type :=
| TensorClass
| SFTuckerClass
| SFTuckerMatrixClass.

#[global] Instance py_class_eq_dec : EqDecision py_class.
Proof. solve_decision. Defined.

Inductive py_object : Type :=
| AClass (c : py_class)
| ATensor (x : Tensor).

(** [type] is a property: reading it gives [type(self.tensor([]))],
    the class of tensors. *)
Definition type : py_class := TensorClass.

(** Calling a class builds an object of it; the class of tensors called
    without an argument builds a tensor with no entry.  The two
    compressed classes are not called in the sources. *)
Definition call_class (c : py_class) : result py_object :=
  match c with
  | TensorClass => Ok (ATensor (mkTensor [0] []))
  | SFTuckerClass | SFTuckerMatrixClass => Raise TypeError
  end.

(** [back.type()]: the property has given the class, which is then
    called. *)
Definition type_call : result py_object := call_class type.

(** [cls == obj] for a class [cls]: a class is equal to itself only;
    no tensor is equal to a class. *)
Definition class_eq (cls : py_class) (obj : py_object) : bool :=
  match obj with
  | AClass c => bool_decide (cls = c)
  | ATensor _ => false
  end.

(** [copy(tensor)] is [tensor.clone()]; on [None] the attribute lookup
    fails. *)
Definition copy (tensor : option Tensor) : result Tensor :=
  match tensor with
  | Some t => Ok (clone t)
  | None => Raise AttributeError
  end.

(** [pad(tensor, pad_width, constant_values)]: the pairs of [pad_width]
    are flattened in order, the flat list is reversed, and the result is
    handed to [torch.nn.functional.pad] with mode [constant] and value 0
    (the adapter fixes both, whatever the caller asks for). *)
Definition pad (tensor : Tensor) (pad_width : list (nat * nat)) : result Tensor :=
  let flat_pad_width := flat_map (fun pair => [fst pair; snd pair]) pad_width in
  let flat_pad_width := rev flat_pad_width in
  torch.pad tensor flat_pad_width.

(** A call [pad(tensor, pad_width, name=..., ...)] with two positional
    arguments and the keywords [keywords].  The signature has one more
    parameter, [constant_values], without a default: the call is
    accepted with that keyword and no other; a keyword that names no
    parameter, or a parameter left without an argument, is a [TypeError]
    raised before the body runs. *)
Definition pad_call (tensor : Tensor) (pad_width : list (nat * nat))
  (keywords : list string) : result Tensor :=
  if decide (keywords = ["constant_values"%string]) then pad tensor pad_width
  else Raise TypeError.

(** [all(tensor)] is [torch.sum(tensor != 0)]. *)
Definition all (tensor : Tensor) : Tensor := torch.sum (ne0 tensor).

(** [transpose(tensor, axes)]: [axes or list(range(ndim))[::-1]], so
    that both [None] and the empty list stand for the reversed axes.
    The axes are then spread over the arguments of [tensor.permute]; for
    a tensor of order 0 there is none to spread, and [permute] called
    without an argument is a [TypeError]. *)
Definition transpose (tensor : Tensor) (axes : option (list nat)) : result Tensor :=
  let axes := match axes with
              | None | Some [] => rev (range (ndim tensor))
              | Some l => l
              end in
  match axes with
  | [] => Raise TypeError
  | _ => permute tensor axes
  end.

(** [concatenate(tensors, axis)] is [torch.cat(tensors, dim=axis)]. *)
Definition concatenate (tensors : list (option Tensor)) (axis : nat) : result Tensor :=
  cat tensors axis.

(** [reshape(tensor, newshape, order)].  With [order="F"] the sizes
    are spread over the arguments of [x.reshape], which called without
    an argument (an empty [newshape]) is a [TypeError]. *)
Definition reversed_range (n : nat) : list nat := rev (range n).

Definition reshape_fortran (x : Tensor) (shape : list Z) : result Tensor :=
  x ← (if 0 <? ndim x then permute x (reversed_range (ndim x)) else Ok x);
  y ← match shape with
      | [] => Raise TypeError
      | _ => torch.reshape x (rev shape)
      end;
  permute y (reversed_range (length shape)).

Definition reshape (tensor : Tensor) (newshape : list Z) (order : string)
  : result Tensor :=
  if String.eqb order "C" then torch.reshape tensor newshape
  else if String.eqb order "F" then reshape_fortran tensor newshape
  else Raise NotImplementedError.

(** [einsum] and [matmul] are registered from torch unchanged; an
    operand that is [None] is a [TypeError]. *)
Definition einsum (equation : string) (operands : list (option Tensor))
  : result Tensor :=
  match mapM id operands with
  | None => Raise TypeError
  | Some ops => torch.einsum equation ops
  end.

End PyTorchBackend.

(** ** The pad widths of [__add__]

    The two list comprehensions of [__add__],
    [[(0, r2[j]) if j > 0 else (0, 0) for j in range(self.ndim)]] for the
    core of [self] and
    [[(r1[j], 0) if j > 0 else (0, 0) for j in range(other.ndim)]] for
    the core of [other]: each pair is (before, after), the number of
    zeros asked for on either side of the axis.  [r[j]] indexes the
    shape tuple and raises when [j] is out of range. *)

Definition widths_after (d : nat) (r : list nat) : result (list (nat * nat)) :=
  for_each (fun j => if 0 <? j
                     then rj ← py_index r (Z.of_nat j); Ok (0, rj)
                     else Ok (0, 0)) (range d).

Definition widths_before (d : nat) (r : list nat) : result (list (nat * nat)) :=
  for_each (fun j => if 0 <? j
                     then rj ← py_index r (Z.of_nat j); Ok (rj, 0)
                     else Ok (0, 0)) (range d).

(** ** The plain Tucker tensor ([tucker_riemopt.Tucker])

    The class is imported by [symmetric/tucker.py] as [RegularTucker];
    its file is not among the sources.  A factor slot holds [None] when
    [to_regular_tucker] copied an absent shared factor into it. *)

Module RegularTucker.

Import torch.

Record t : Type := mk { core : Tensor; factors : list (option Tensor) }.

Definition rank (self : t) : list nat := shape (core self).

Definition ndim (self : t) : nat := length (shape (core self)).

(** Modelled from the spec: the zero padding of the direct sum.  Each
    pair of [widths] is (before, after): so many zeros in front of the
    entries of the axis and so many behind them. *)
Definition zero_pad (x : Tensor) (widths : list (nat * nat)) : Tensor :=
  tabulate
    (zip_with (fun n '(before, after) => before + n + after) (shape x) widths)
    (fun idx =>
       if forallb (fun '(i, (n, (before, _))) => (before <=? i) && (i <? before + n))
            (zip idx (zip (shape x) widths))
       then get x (zip_with (fun i '(before, _) => i - before) idx widths)
       else 0%Z).

(** Modelled from the spec: [RegularTucker.__add__], the direct-sum
    construction of section 4.2: each core is padded with zeros on every
    mode but the first, the left one behind its entries and the right
    one in front of them, the padded cores are concatenated along mode
    0, and each pair of factor matrices is concatenated along its rank
    axis. *)
Definition add (self other : t) : result t :=
  let r1 := rank self in
  let r2 := rank other in
  pw1 ← widths_after (ndim self) r2;
  let padded_core1 := zero_pad (core self) pw1 in
  pw2 ← widths_before (ndim other) r1;
  let padded_core2 := zero_pad (core other) pw2 in
  new_core ← PyTorchBackend.concatenate [Some padded_core1; Some padded_core2] 0;
  new_factors ← for_each (fun i =>
      a ← py_index (factors self) (Z.of_nat i);
      b ← py_index (factors other) (Z.of_nat i);
      PyTorchBackend.concatenate [a; b] 1) (range (ndim self));
  Ok (mk new_core (map Some new_factors)).

(** Modelled from the spec: [RegularTucker.k_mode_product], section 4.2
    and section 7: a mode index out of range is an input-validation
    error; otherwise factor [k] of a copy is left-multiplied by [mat].
    (The spec gives no message for the error; the one of the structured
    class is used.) *)
Definition k_mode_product (self : t) (k : Z) (mat : Tensor) : result t :=
  if ((k <? 0) || (Z.of_nat (ndim self) <=? k))%Z
  then Raise (ValueError ("k shoduld be from 0 to "
                          +:+ pretty (Z.of_nat (ndim self) - 1)%Z))
  else
    f ← py_index (factors self) k;
    f' ← matmul_slot mat f;
    fs ← py_setitem (factors self) k (Some f');
    Ok (mk (core self) fs).

End RegularTucker.

(** ** tucker_riemopt/symmetric/tucker.py *)

Module Tucker.

(** The dataclass.  [symmetric_factor] is an [option] because
    [full2tuck] stores [None] in it. *)
Record t : Type := mk {
  core : torch.Tensor;
  common_factors : list torch.Tensor;
  symmetric_modes : list Z;
  symmetric_factor : option torch.Tensor
}.

(** What a method may hand back: an object of this class, a plain
    Tucker tensor, or a dense array. *)
Inductive value : Type :=
| Structured (x : t)
| Regular (r : RegularTucker.t)
| Dense (x : torch.Tensor).

Section Construction.

Context {Eps : Type}.

(** [RegularTucker.full2tuck], the external decomposition: only its
    call contract is used, a core and one factor matrix per mode. *)
Variable regular_full2tuck :
  torch.Tensor -> Eps -> result (torch.Tensor * list torch.Tensor).

Definition full2tuck (T : torch.Tensor) (eps : Eps) : result t :=
  tucker ← regular_full2tuck T eps;
  Ok (mk (fst tucker) (snd tucker) [] None).

End Construction.

Definition rank (self : t) : list nat := torch.shape (core self).

Definition ndim (self : t) : nat := length (torch.shape (core self)).

(** [factor.shape[0]] for a slot that may hold [None]. *)
Definition slot_shape0 (factor : option torch.Tensor) : result nat :=
  match factor with
  | Some f => torch.shape_at f 0
  | None => Raise AttributeError
  end.

(** [common_factors[i]] for a counter [i] that starts at 0. *)
Definition common_factor (self : t) (i : nat) : result torch.Tensor :=
  py_index (common_factors self) (Z.of_nat i).

(** The [shape] property: one pass over the modes, with the running
    position [curr_common_mode] in [common_factors]. *)
Fixpoint shape_loop (self : t) (modes : list nat) (curr_common_mode : nat)
  : result (list nat) :=
  match modes with
  | [] => Ok []
  | mode :: modes' =>
      if py_in (Z.of_nat mode) (symmetric_modes self) then
        n ← slot_shape0 (symmetric_factor self);
        shapes ← shape_loop self modes' curr_common_mode;
        Ok (n :: shapes)
      else
        f ← common_factor self curr_common_mode;
        n ← torch.shape_at f 0;
        shapes ← shape_loop self modes' (curr_common_mode + 1);
        Ok (n :: shapes)
  end.

Definition shape (self : t) : result (list nat) :=
  shape_loop self (range (ndim self)) 0.

(** [to_regular_tucker]: the same pass, collecting the factor of every
    mode. *)
Fixpoint regular_factors_loop (self : t) (modes : list nat) (curr_common_mode : nat)
  : result (list (option torch.Tensor)) :=
  match modes with
  | [] => Ok []
  | mode :: modes' =>
      if py_in (Z.of_nat mode) (symmetric_modes self) then
        factors ← regular_factors_loop self modes' curr_common_mode;
        Ok (symmetric_factor self :: factors)
      else
        f ← common_factor self curr_common_mode;
        factors ← regular_factors_loop self modes' (curr_common_mode + 1);
        Ok (Some f :: factors)
  end.

Definition to_regular_tucker (self : t) : result RegularTucker.t :=
  factors ← regular_factors_loop self (range (ndim self)) 0;
  Ok (RegularTucker.mk (core self) factors).

(** [__add__].  Lists of symmetric modes are compared as Python
    compares lists, entry by entry.  Both calls of [back.pad] pass the
    core and the list of widths by position and the two keywords [mode]
    and [constant_values]; the list of widths is built before the
    call. *)
Definition add (self other : t) : result value :=
  if decide (symmetric_modes self ≠ symmetric_modes other) then
    a ← to_regular_tucker self;
    b ← to_regular_tucker other;
    s ← RegularTucker.add a b;
    Ok (Regular s)
  else
    let r1 := rank self in
    let r2 := rank other in
    pw1 ← widths_after (ndim self) r2;
    padded_core1 ← PyTorchBackend.pad_call (core self) pw1 ["mode"; "constant_values"]%string;
    pw2 ← widths_before (ndim other) r1;
    padded_core2 ← PyTorchBackend.pad_call (core other) pw2 ["mode"; "constant_values"]%string;
    new_core ← PyTorchBackend.concatenate [Some padded_core1; Some padded_core2] 0;
    new_common ← for_each (fun i =>
        a ← common_factor self i;
        b ← common_factor other i;
        PyTorchBackend.concatenate [Some a; Some b] 1)
      (range (length (common_factors self)));
    new_symmetric ← PyTorchBackend.concatenate
                      [symmetric_factor self; symmetric_factor other] 1;
    Ok (Structured (mk new_core new_common (symmetric_modes self) (Some new_symmetric))).

(** [flat_inner]. *)
Record inner_plan : Type := mk_inner_plan {
  factors : list (option torch.Tensor);
  factors_letters : list string;
  transposed_factors : list (option torch.Tensor);
  transposed_letters : list string;
  intermediate_core_letters : list ascii;
  cur_common_mode : nat
}.

Definition two_letters (a b : ascii) : string := String a (String b EmptyString).

Fixpoint flat_inner_loop (self other : t) (symmetric_factor : torch.Tensor)
  (core_letters : string) (modes : list nat) (p : inner_plan) : result inner_plan :=
  match modes with
  | [] => Ok p
  | i :: modes' =>
      x ← str_index ascii_letters (ndim self + i);
      c ← str_index core_letters i;
      if py_in (Z.of_nat i) (symmetric_modes self) then
        flat_inner_loop self other symmetric_factor core_letters modes'
          (mk_inner_plan
             (factors p ++ [Some symmetric_factor])
             (factors_letters p ++ [two_letters x c])
             (transposed_factors p)
             (transposed_letters p)
             (intermediate_core_letters p ++ [x])
             (cur_common_mode p))
      else
        f ← common_factor self (cur_common_mode p);
        g ← common_factor other (cur_common_mode p);
        y ← str_index ascii_letters (ndim self + 2 * i);
        flat_inner_loop self other symmetric_factor core_letters modes'
          (mk_inner_plan
             (factors p ++ [Some f])
             (factors_letters p ++ [two_letters x c])
             (transposed_factors p ++ [Some (torch.T g)])
             (transposed_letters p ++ [two_letters y x])
             (intermediate_core_letters p ++ [y])
             (cur_common_mode p + 1))
  end.

Definition flat_inner (self other : t) : result value :=
  if decide (symmetric_modes self ≠ symmetric_modes other) then
    a ← to_regular_tucker self;
    b ← to_regular_tucker other;
    s ← RegularTucker.add a b;
    Ok (Regular s)
  else
    let core_letters := str_slice ascii_letters 0 (ndim self) in
    symmetric_factor ←
      match symmetric_factor other, symmetric_factor self with
      | None, _ => Raise AttributeError
      | Some _, None => Raise TypeError
      | Some g, Some f => torch.matmul (torch.T g) f
      end;
    p ← flat_inner_loop self other symmetric_factor core_letters
          (range (ndim self)) (mk_inner_plan [] [] [] [] [] 0);
    let source := join "," ([core_letters] ++ factors_letters p ++ transposed_letters p) in
    intermediate_core ←
      PyTorchBackend.einsum
        (source +:+ "->" +:+ str_of_chars (intermediate_core_letters p))
        ([Some (core self)] ++ factors p ++ transposed_factors p);
    prod ← torch.mul intermediate_core (core other);
    Ok (Dense (torch.sum prod)).

(** [full]. *)
Record full_plan : Type := mk_full_plan {
  factor_letters : string;
  tensor_letters : string;
  full_factors : list (option torch.Tensor);
  curr_common_factor : nat
}.

Fixpoint full_loop (self : t) (modes : list nat) (p : full_plan) : result full_plan :=
  match modes with
  | [] => Ok p
  | i :: modes' =>
      x ← str_index ascii_letters (ndim self + i);
      c ← str_index ascii_letters i;
      let factor_letters' := factor_letters p +:+ String x (String c ",") in
      let tensor_letters' := tensor_letters p +:+ String x EmptyString in
      if py_in (Z.of_nat i) (symmetric_modes self) then
        full_loop self modes'
          (mk_full_plan factor_letters' tensor_letters'
             (full_factors p ++ [symmetric_factor self]) (curr_common_factor p))
      else
        f ← common_factor self (curr_common_factor p);
        full_loop self modes'
          (mk_full_plan factor_letters' tensor_letters'
             (full_factors p ++ [Some f]) (curr_common_factor p + 1))
  end.

(** [s[:-1]]. *)
Definition drop_last (s : string) : string :=
  String.substring 0 (String.length s - 1) s.

Definition full (self : t) : result torch.Tensor :=
  let core_letters := str_slice ascii_letters 0 (ndim self) in
  p ← full_loop self (range (ndim self)) (mk_full_plan "" "" [] 0);
  let einsum_str :=
    core_letters +:+ "," +:+ drop_last (factor_letters p) +:+ "->" +:+ tensor_letters p in
  PyTorchBackend.einsum einsum_str ([Some (core self)] ++ full_factors p).

(** *** Methods that copy and assign

    [k_mode_product] and [symmetric_modes_product] deep-copy [self] and
    then assign to a field of the copy.  Objects of the class live in a
    store; a method receives the address of [self], and an exception
    leaves the store as it was when it was raised. *)

Definition loc : Type := positive.

Abbreviation heap := (gmap loc t).

Definition M (A : Type) : Type := heap -> result A * heap.

#[global] Instance M_ret : MRet M := fun A a σ => (Ok a, σ).

#[global] Instance M_bind : MBind M := fun A B f m σ =>
  match m σ with
  | (Ok a, σ') => f a σ'
  | (Raise e, σ') => (Raise e, σ')
  end.

(** A pure computation, run inside a method. *)
Definition lift {A} (m : result A) : M A := fun σ => (m, σ).

Definition raise {A} (e : exn) : M A := fun σ => (Raise e, σ).

(** Reading the object at an address. *)
Definition load (l : loc) : M t := fun σ =>
  match σ !! l with
  | Some x => (Ok x, σ)
  | None => (Raise ReferenceError, σ)
  end.

(** Calling the constructor: a new object at a fresh address. *)
Definition alloc (x : t) : M loc := fun σ =>
  let l := fresh (dom σ) in (Ok l, <[l := x]> σ).

(** Assigning to the fields of the object at an address. *)
Definition store (l : loc) (x : t) : M unit := fun σ => (Ok tt, <[l := x]> σ).

(** [__deepcopy__]. *)
Definition deepcopy (self : loc) : M loc :=
  x ← load self;
  new_core ← lift (PyTorchBackend.copy (Some (core x)));
  common_factors ← lift (for_each (fun factor => PyTorchBackend.copy (Some factor))
                           (common_factors x));
  symmetic_factor ← lift (PyTorchBackend.copy (symmetric_factor x));
  alloc (mk new_core common_factors (symmetric_modes x) (Some symmetic_factor)).

(** What [k_mode_product] returns: the address of the new object, or the
    plain tensor built on the shared-mode path. *)
Inductive product : Type :=
| NewStructured (l : loc)
| NewRegular (r : RegularTucker.t).

(** [sum(1 for m in self.symmetric_modes if k > m)]. *)
Definition k_change (self : t) (k : Z) : Z :=
  Z.of_nat (length (filter (fun m => (m < k)%Z) (symmetric_modes self))).

(** [k_mode_product]. *)
Definition k_mode_product (self : loc) (k : Z) (mat : torch.Tensor) : M product :=
  x ← load self;
  if ((k <? 0) || (Z.of_nat (ndim x) <=? k))%Z then
    raise (ValueError ("k shoduld be from 0 to " +:+ pretty (Z.of_nat (ndim x) - 1)%Z))
  else if py_in k (symmetric_modes x) then
    r ← lift (to_regular_tucker x);
    r' ← lift (RegularTucker.k_mode_product r k mat);
    mret (NewRegular r')
  else
    let k := (k - k_change x k)%Z in
    new_tensor ← deepcopy self;
    y ← load new_tensor;
    f ← lift (py_index (common_factors y) k);
    f' ← lift (torch.matmul mat f);
    fs ← lift (py_setitem (common_factors y) k f');
    _ ← store new_tensor (mk (core y) fs (symmetric_modes y) (symmetric_factor y));
    mret (NewStructured new_tensor).

(** [symmetric_modes_product]. *)
Definition symmetric_modes_product (self : loc) (mat : torch.Tensor) : M loc :=
  new_tensor ← deepcopy self;
  y ← load new_tensor;
  f' ← lift (torch.matmul_slot mat (symmetric_factor y));
  _ ← store new_tensor (mk (core y) (common_factors y) (symmetric_modes y) (Some f'));
  mret new_tensor.

(** [__rmul__]: the copy is made first, then a new object is built
    around the scaled core of the copy. *)
Definition rmul (self : loc) (a : Z) : M loc :=
  new_tensor ← deepcopy self;
  y ← load new_tensor;
  alloc (mk (torch.scale a (core y)) (common_factors y) (symmetric_modes y)
           (symmetric_factor y)).

(** [__neg__] is [(-1) * self]. *)
Definition neg (self : loc) : M loc := rmul self (-1).

(** [__sub__]: [other = -other], then [self + other]. *)
Definition sub (self other : loc) : M value :=
  other ← neg other;
  x ← load self;
  y ← load other;
  lift (add x y).

End Tucker.

(** ** The shared-factor Tucker tensor ([tucker_riemopt.SFTucker])

    The base class of [SFTuckerMatrix]; its file is not among the
    sources. *)

Module SFTucker.

(** Modelled from the spec: the fields of [SFTucker], in the order in
    which [SFTuckerMatrix.from_dense] passes them to the constructor
    (section 3: a core, one private factor per regular mode, the number
    of shared modes, and the single shared factor). *)
Record t : Type := mk {
  core : torch.Tensor;
  regular_factors : list torch.Tensor;
  num_shared_factors : nat;
  shared_factor : torch.Tensor
}.

(** Modelled from the spec: the derived properties [ndim], [dt], [ds]
    and [factors] (section 3: the order of the core; the regular-factor
    count; the shared-mode count; the private factors followed by the
    shared factor once per shared mode, the shared modes being the last
    ones). *)
Definition ndim (self : t) : nat := length (torch.shape (core self)).

Definition dt (self : t) : nat := length (regular_factors self).

Definition ds (self : t) : nat := num_shared_factors self.

Definition factors (self : t) : list torch.Tensor :=
  regular_factors self ++ replicate (ds self) (shared_factor self).

End SFTucker.

(** ** tucker_riemopt/sf_tucker/matrix.py *)

Module SFTuckerMatrix.

(** The dataclass: the inherited fields, then [n] and [m], both [None]
    by default. *)
Record t : Type := mk {
  base : SFTucker.t;
  n : option (list Z);
  m : option (list Z)
}.

Definition ndim (self : t) : nat := SFTucker.ndim (base self).
Definition dt (self : t) : nat := SFTucker.dt (base self).
Definition ds (self : t) : nat := SFTucker.ds (base self).

Section FromDense.

Context {Eps : Type}.

(** [super().from_dense], the external compression. *)
Variable super_from_dense : torch.Tensor -> option nat -> Eps -> result SFTucker.t.

(** A call of the external compression, as it is recorded. *)
Inductive call : Type :=
| SuperFromDense (T : torch.Tensor) (ds : option nat) (eps : Eps).

(** Computations that may raise and that record the external calls they
    make, in order. *)
Definition Traced (A : Type) : Type := list call -> result A * list call.

Definition call_super (T : torch.Tensor) (ds : option nat) (eps : Eps)
  : Traced SFTucker.t :=
  fun log => (super_from_dense T ds eps, log ++ [SuperFromDense T ds eps]).

Definition from_dense (T : torch.Tensor) (ds : option nat)
  (n m : option (list Z)) (eps : Eps) : Traced t :=
  fun log =>
    match n, m with
    | Some _, Some _ =>
        match call_super T ds eps log with
        | (Ok T', log') =>
            (Ok (mk (SFTucker.mk (SFTucker.core T')
                       (take (SFTucker.dt T') (SFTucker.regular_factors T'))
                       (SFTucker.ds T')
                       (SFTucker.shared_factor T'))
                    n m), log')
        | (Raise e, log') => (Raise e, log')
        end
    | _, _ =>
        (Raise (ValueError "n and m parameter must be specialized for matrices"), log)
    end.

End FromDense.

(** The right operand of [@], by its type. *)
Inductive operand : Type :=
| OfDense (x : torch.Tensor)
| OfSFTucker (x : SFTucker.t)
| OfSFTuckerMatrix (x : t).

(** What [@] hands back; [PyNone] is what a Python function returns when
    it runs off its end. *)
Inductive value : Type :=
| DenseResult (x : torch.Tensor)
| PyNone.

(** [self.n[i]] for a field that may be [None]. *)
Definition split_at (sizes : option (list Z)) (i : Z) : result Z :=
  match sizes with
  | Some l => py_index l i
  | None => Raise TypeError
  end.

Record plan : Type := mk_plan {
  factors_letters : list string;
  operand_letters : list ascii;
  result_letters : list ascii;
  reshaped_factors : list torch.Tensor
}.

(** [ascii_letters[ndim + 2 * i : ndim + 2 * (i + 1)]], the two
    subscripts of the split axes of factor [i], and
    [ascii_letters[2 * (ndim + 1) + i + 1]], the subscript of batch axis
    [i]. *)
Definition factor_subscripts (d i : nat) : string :=
  str_slice ascii_letters (d + 2 * i) (d + 2 * (i + 1)).

Definition batch_subscript (d i : nat) : result ascii :=
  str_index ascii_letters (2 * (d + 1) + i + 1).

(** The loop over the modes of [__matmul__]. *)
Fixpoint matmul_loop (self : t) (core_letters : string) (modes : list nat) (p : plan)
  : result plan :=
  match modes with
  | [] => Ok p
  | i :: modes' =>
      reshaped ←
        (if i <? dt self then
           f ← py_index (SFTucker.factors (base self)) (Z.of_nat i);
           ni ← split_at (n self) (Z.of_nat i);
           mi ← split_at (m self) (Z.of_nat i);
           r ← PyTorchBackend.reshape f [ni; mi; (-1)%Z] "F";
           Ok (reshaped_factors p ++ [r])
         else Ok (reshaped_factors p));
      c ← str_index core_letters i;
      let letters := factor_subscripts (ndim self) i +:+ String c EmptyString in
      o ← str_index letters 0;
      r ← str_index letters 1;
      matmul_loop self core_letters modes'
        (mk_plan (factors_letters p ++ [letters])
                 (operand_letters p ++ [o])
                 (result_letters p ++ [r])
                 reshaped)
  end.

(** The subscripts of the batch axes of [other]. *)
Definition batch_letters (self : t) (other : torch.Tensor) : result (list ascii) :=
  for_each (batch_subscript (ndim self)) (range (torch.ndim other - ndim self)).

(** The contraction string handed to [einsum]. *)
Definition equation (core_letters : string) (p : plan) (batch : list ascii) : string :=
  core_letters +:+ "," +:+ join "," (factors_letters p) +:+ ","
  +:+ str_of_chars (batch ++ operand_letters p)
  +:+ "->" +:+ str_of_chars (batch ++ result_letters p).

(** [type(other)]. *)
Definition type_of (other : operand) : PyTorchBackend.py_class :=
  match other with
  | OfDense _ => PyTorchBackend.TensorClass
  | OfSFTucker _ => PyTorchBackend.SFTuckerClass
  | OfSFTuckerMatrix _ => PyTorchBackend.SFTuckerMatrixClass
  end.

(** The guard [type(other) == back.type()] of the only branch of
    [__matmul__]. *)
Definition guard (other : operand) : result bool :=
  obj ← PyTorchBackend.type_call;
  Ok (PyTorchBackend.class_eq (type_of other) obj).

(** The body of that branch, lines 36 to 55, for a tensor [other]. *)
Definition dense_branch (self : t) (other : torch.Tensor) : result value :=
  let core_letters := str_slice ascii_letters 0 (ndim self) in
  p ← matmul_loop self core_letters (range (ndim self)) (mk_plan [] [] [] []);
  ns ← split_at (n self) (-1);
  ms ← split_at (m self) (-1);
  reshaped_shared_factor ←
    PyTorchBackend.reshape (SFTucker.shared_factor (base self)) [ns; ms; (-1)%Z] "F";
  batch ← batch_letters self other;
  r ← PyTorchBackend.einsum (equation core_letters p batch)
        (map Some ([SFTucker.core (base self)] ++ reshaped_factors p
                   ++ replicate (ds self) reshaped_shared_factor ++ [other]));
  Ok (DenseResult r).

(** [__matmul__]: one guarded branch; when the guard does not hold the
    body runs off its end.  Only a tensor has the class of tensors, so
    the branch has nothing to run on a compressed operand. *)
Definition matmul (self : t) (other : operand) : result value :=
  holds ← guard other;
  match holds, other with
  | true, OfDense other => dense_branch self other
  | _, _ => Ok PyNone
  end.

(** The contraction string [dense_branch] builds, alone. *)
Definition matmul_equation (self : t) (other : torch.Tensor) : result string :=
  let core_letters := str_slice ascii_letters 0 (ndim self) in
  p ← matmul_loop self core_letters (range (ndim self)) (mk_plan [] [] [] []);
  batch ← batch_letters self other;
  Ok (equation core_letters p batch).

End SFTuckerMatrix.

(** * Properties *)

(** ** The model at work on small arrays *)

Definition mat11 (z : Z) : torch.Tensor := torch.mkTensor [1; 1] [z].

Definition mat23 : torch.Tensor := torch.mkTensor [2; 3] [1; 2; 3; 4; 5; 6]%Z.

Definition mat32 : torch.Tensor := torch.mkTensor [3; 2] [1; 0; 0; 1; 1; 1]%Z.

Example matmul_2x3_3x2 :
  torch.matmul mat23 mat32 = Ok (torch.mkTensor [2; 2] [4; 5; 10; 11]%Z).
Proof. reflexivity. Qed.

Example einsum_is_matmul :
  torch.einsum "ab,bc->ac" [mat23; mat32] = torch.matmul mat23 mat32.
Proof. reflexivity. Qed.

Example einsum_repeated_output_subscript :
  torch.einsum "ab,bc->aa" [mat23; mat32] = Raise RuntimeError.
Proof. reflexivity. Qed.

(** torch pads the LAST axis with the first pair: one column of zeros on
    the left, two rows of zeros at the bottom. *)
Example torch_pad_last_axis_first :
  torch.pad mat23 [1; 0; 0; 2]
  = Ok (torch.mkTensor [4; 4] [0; 1; 2; 3; 0; 4; 5; 6; 0; 0; 0; 0; 0; 0; 0; 0]%Z).
Proof. reflexivity. Qed.

(** One zero asked for AFTER the entry on axis 1: the adapter puts it
    before. *)
Example backend_pad_after_comes_before :
  PyTorchBackend.pad (mat11 7) [(0, 0); (0, 1)] = Ok (torch.mkTensor [1; 2] [0; 7]%Z)
  ∧ PyTorchBackend.pad (mat11 7) [(0, 0); (1, 0)] = Ok (torch.mkTensor [1; 2] [7; 0]%Z).
Proof. split; reflexivity. Qed.

(** Column-major reshape of a 4 x 2 factor to 2 x 2 x 2: entry
    [(a, b, c)] is entry [(a + 2 * b, c)] of the factor. *)
Example reshape_column_major :
  PyTorchBackend.reshape (torch.mkTensor [4; 2] [1; 2; 3; 4; 5; 6; 7; 8]%Z)
    [2; 2; -1]%Z "F"
  = Ok (torch.mkTensor [2; 2; 2] [1; 2; 5; 6; 3; 4; 7; 8]%Z).
Proof. reflexivity. Qed.

Example concatenate_with_none :
  PyTorchBackend.concatenate [Some mat23; None] 1 = Raise TypeError.
Proof. reflexivity. Qed.

Example concatenate_axis_out_of_range :
  PyTorchBackend.concatenate [Some mat23; Some mat23] 2 = Raise IndexError
  ∧ PyTorchBackend.concatenate [Some mat23; Some mat32] 0 = Raise RuntimeError.
Proof. split; reflexivity. Qed.

(** ** Reading a tabulated tensor *)

Lemma length_indices (sh : list nat) :
  length (torch.indices sh) = torch.numel sh.
Proof.
  induction sh as [|n sh IH]; [reflexivity|].
  cbn [torch.indices torch.numel fold_right].
  change (fold_right Nat.mul 1 sh) with (torch.numel sh).
  rewrite <- IH. generalize 0 as a.
  induction n as [|n IHn]; intros a; [reflexivity|].
  cbn [seq flat_map]. rewrite length_app, length_map, IHn. lia.
Qed.

Lemma ravel_lt (sh idx : list nat) :
  Forall2 lt idx sh → torch.ravel sh idx < torch.numel sh.
Proof.
  intros H. induction H as [|i n idx sh Hi _ IH]; [cbn; lia|].
  cbn [torch.ravel torch.numel fold_right].
  change (fold_right Nat.mul 1 sh) with (torch.numel sh). nia.
Qed.

Lemma nth_flat_map_blocks {A} (g : nat -> list A) (m n a i r : nat) (d : A) :
  (∀ j, length (g j) = m) → i < n → r < m →
  nth (i * m + r) (flat_map g (seq a n)) d = nth r (g (a + i)) d.
Proof.
  intros Hlen. revert a i. induction n as [|n IH]; intros a i Hi Hr; [lia|].
  cbn [seq flat_map]. destruct i as [|i].
  - cbn [Nat.mul Nat.add]. rewrite Nat.add_0_r.
    apply app_nth1. rewrite Hlen. exact Hr.
  - rewrite app_nth2 by (rewrite Hlen; lia).
    rewrite Hlen. replace (S i * m + r - m) with (i * m + r) by lia.
    rewrite (IH (S a) i ltac:(lia) Hr). f_equal. f_equal. lia.
Qed.

(** [tabulate] stores at every index below the shape the value of the
    function there, and [get] reads it back. *)
Lemma get_tabulate (sh : list nat) (f : list nat -> Z) (idx : list nat) :
  Forall2 lt idx sh → torch.get (torch.tabulate sh f) idx = f idx.
Proof.
  unfold torch.get, torch.tabulate. cbn [torch.shape torch.data].
  intros H. revert f. induction H as [|i n idx sh Hi Hrest IH]; intros f.
  - reflexivity.
  - cbn [torch.indices torch.ravel].
    assert (Hmap : ∀ (l : list nat),
              map f (flat_map (fun i => map (cons i) (torch.indices sh)) l)
              = flat_map (fun i => map (fun idx' => f (i :: idx')) (torch.indices sh)) l).
    { induction l as [|x l IHl]; [reflexivity|].
      cbn [flat_map]. rewrite map_app, IHl, map_map. reflexivity. }
    rewrite Hmap.
    rewrite (nth_flat_map_blocks _ (torch.numel sh) n 0 i _ 0%Z).
    + cbn [Nat.add]. apply (IH (fun idx' => f (i :: idx'))).
    + intros j. rewrite length_map. apply length_indices.
    + exact Hi.
    + apply ravel_lt, Hrest.
Qed.

(** The product of two matrices, entry by entry. *)
Lemma matmul_entry (a b c : torch.Tensor) (p q r i j : nat) :
  torch.shape a = [p; q] → torch.shape b = [q; r] →
  torch.matmul a b = Ok c → i < p → j < r →
  torch.get c [i; j]
  = fold_right Z.add 0%Z
      (map (fun k => (torch.get a [i; k] * torch.get b [k; j])%Z) (range q)).
Proof.
  intros Ha Hb Hc Hi Hj. unfold torch.matmul, torch.ndim in Hc.
  rewrite Ha, Hb in Hc.
  cbn [length Nat.eqb torch.split_last2 Nat.sub take nth torch.shape] in Hc.
  rewrite !Ha, !Hb in Hc.
  cbn [length Nat.eqb torch.split_last2 Nat.sub take nth torch.shape] in Hc.
  rewrite Nat.eqb_refl in Hc. cbn [torch.broadcast_shapes rev torch.broadcast_rev
    mbind result_bind app] in Hc.
  injection Hc as <-.
  match goal with
  | |- torch.get (torch.mkTensor _ (map ?f _)) _ = _ =>
      change (torch.get (torch.tabulate [p; r] f) [i; j]
              = fold_right Z.add 0%Z
                  (map (fun k => (torch.get a [i; k] * torch.get b [k; j])%Z) (range q)))
  end.
  rewrite get_tabulate by (repeat constructor; assumption).
  reflexivity.
Qed.

(** ** Stepping through the error monad *)

Lemma bind_ok {A B} (m : result A) (f : A -> result B) (b : B) :
  (x ← m; f x) = Ok b ↔ ∃ a, m = Ok a ∧ f a = Ok b.
Proof.
  destruct m as [a|e]; cbn.
  - split; [eauto | intros (a' & [= ->] & H); exact H].
  - split; [discriminate | intros (a' & [=] & _)].
Qed.

Lemma bind_raises {A B} (m : result A) (f : A -> result B) :
  (∀ a, m = Ok a → ∃ e, f a = Raise e) → ∃ e, (x ← m; f x) = Raise e.
Proof.
  intros H. destruct m as [a|e]; cbn; [apply H; reflexivity | eauto].
Qed.

Lemma for_each_ok {A B} (f : A -> result B) (xs : list A) (ys : list B) :
  for_each f xs = Ok ys ↔ Forall2 (fun x y => f x = Ok y) xs ys.
Proof.
  revert ys; induction xs as [|x xs IH]; intros ys; cbn.
  - split; [intros [= <-]; constructor | intros H; inversion H; reflexivity].
  - rewrite bind_ok. split.
    + intros (y & Hy & H). apply bind_ok in H as (ys' & Hys & [= <-]).
      constructor; [exact Hy | apply IH, Hys].
    + intros H. inversion H as [|? y ? ys' Hy Hys]; subst.
      exists y; split; [exact Hy|]. apply bind_ok.
      exists ys'; split; [apply IH, Hys | reflexivity].
Qed.

Lemma for_each_length {A B} (f : A -> result B) (xs : list A) (ys : list B) :
  for_each f xs = Ok ys → length ys = length xs.
Proof. rewrite for_each_ok. intros H. symmetry. exact (Forall2_length _ _ _ H). Qed.

Lemma for_each_raises {A B} (f : A -> result B) (xs : list A) (e : exn) :
  for_each f xs = Raise e → ∃ x, In x xs ∧ f x = Raise e.
Proof.
  induction xs as [|x xs IH]; [discriminate|].
  cbn [for_each]. destruct (f x) as [y|e'] eqn:E.
  - cbn [mbind result_bind]. destruct (for_each f xs) as [ys|e'']; [discriminate|].
    intros [= <-]. destruct (IH eq_refl) as (x' & Hin & Hx'). exists x'. split; [right|]; assumption.
  - intros [= <-]. exists x. split; [left; reflexivity | exact E].
Qed.

Lemma py_index_raises {A} (l : list A) (i : Z) (e : exn) :
  py_index l i = Raise e → e = IndexError.
Proof.
  unfold py_index. destruct (_ <? 0)%Z; [congruence|].
  destruct (l !! _); congruence.
Qed.

(** ** Matrix multiplication by an operand of another type (C4) *)

(** C4.  The claim is that [M @ other] for an [SFTucker] operand returns
    a structured tensor, and for an [SFTuckerMatrix] operand another
    matrix.  The body of [__matmul__] has a branch for dense operands
    only: for either compressed operand it returns [None]. *)
Theorem matmul_compressed_operand_is_none :
  ∀ (M : SFTuckerMatrix.t) (x : SFTucker.t) (y : SFTuckerMatrix.t),
    SFTuckerMatrix.matmul M (SFTuckerMatrix.OfSFTucker x) = Ok SFTuckerMatrix.PyNone
    ∧ SFTuckerMatrix.matmul M (SFTuckerMatrix.OfSFTuckerMatrix y)
      = Ok SFTuckerMatrix.PyNone.
Proof. intros M x y. split; reflexivity. Qed.

(** ** The [(n, m)] check of [from_dense] (C9) *)

(** C9.  [SFTuckerMatrix.from_dense] raises its [ValueError] with no
    call of the external compression recorded exactly when [n] or [m] is
    [None]; when both are given, the compression is the first thing
    called, with the arguments [T], [ds] and [eps]. *)
Theorem from_dense_requires_n_and_m :
  ∀ (Eps : Type) (super_from_dense : torch.Tensor -> option nat -> Eps -> result SFTucker.t)
    (T : torch.Tensor) (ds : option nat) (n m : option (list Z)) (eps : Eps)
    (log : list (SFTuckerMatrix.call (Eps := Eps))),
    ((n = None ∨ m = None)
     ↔ SFTuckerMatrix.from_dense super_from_dense T ds n m eps log
       = (Raise (ValueError "n and m parameter must be specialized for matrices"), log))
    ∧ ((n ≠ None ∧ m ≠ None)
       ↔ snd (SFTuckerMatrix.from_dense super_from_dense T ds n m eps log)
         = log ++ [SFTuckerMatrix.SuperFromDense T ds eps]).
Proof.
  intros Eps super T ds n m eps log.
  assert (Hgrow : log ++ [SFTuckerMatrix.SuperFromDense T ds eps] ≠ log).
  { intros H. apply (f_equal length) in H. rewrite length_app in H. cbn in H. lia. }
  unfold SFTuckerMatrix.from_dense, SFTuckerMatrix.call_super.
  destruct n as [n'|], m as [m'|]; cbn.
  - destruct (super T ds eps) as [T'|e]; cbn; split; split;
      try (intros [? | ?]; discriminate); try (intros [= ?]; congruence);
      try (intros; split; discriminate); reflexivity.
  - split; split; try (intros; auto; fail); try (intros [_ ?]; congruence);
      intros H; exfalso; apply Hgrow; symmetry; exact H.
  - split; split; try (intros; auto; fail); try (intros [? _]; congruence);
      intros H; exfalso; apply Hgrow; symmetry; exact H.
  - split; split; try (intros; auto; fail); try (intros [? _]; congruence);
      intros H; exfalso; apply Hgrow; symmetry; exact H.
Qed.

(** ** Tensors without a shared factor (C10) *)

Lemma cat_none_l (g : option torch.Tensor) (axis : nat) :
  PyTorchBackend.concatenate [None; g] axis = Raise TypeError.
Proof. reflexivity. Qed.

Lemma cat_none_r (f : option torch.Tensor) (axis : nat) :
  PyTorchBackend.concatenate [f; None] axis = Raise TypeError.
Proof. destruct f; reflexivity. Qed.

(** [__add__] on operands with the same [symmetric_modes] always reaches
    an exception when one of the two shared factors is [None]: whatever
    happens before, the last concatenation has an operand that is no
    tensor. *)
Lemma add_without_shared_factor_raises (A B : Tucker.t) :
  Tucker.symmetric_modes A = Tucker.symmetric_modes B →
  Tucker.symmetric_factor A = None ∨ Tucker.symmetric_factor B = None →
  ∃ e, Tucker.add A B = Raise e.
Proof.
  intros Hmodes Hnone. unfold Tucker.add.
  destruct (decide _) as [Hne|_]; [congruence|].
  do 6 (apply bind_raises; intros ? _).
  assert (Hcat : PyTorchBackend.concatenate
                   [Tucker.symmetric_factor A; Tucker.symmetric_factor B] 1
                 = Raise TypeError).
  { destruct Hnone as [-> | ->]; [apply cat_none_l | apply cat_none_r]. }
  rewrite Hcat. eexists; reflexivity.
Qed.

(** C10.  Every tensor returned by [full2tuck] has no symmetric mode and
    [None] as its shared factor; the sum of two such tensors is an
    exception, never a tensor. *)
Theorem full2tuck_sum_raises :
  ∀ (Eps : Type)
    (regular_full2tuck : torch.Tensor -> Eps -> result (torch.Tensor * list torch.Tensor))
    (T1 T2 : torch.Tensor) (eps1 eps2 : Eps) (A B : Tucker.t),
    Tucker.full2tuck regular_full2tuck T1 eps1 = Ok A →
    Tucker.full2tuck regular_full2tuck T2 eps2 = Ok B →
    Tucker.symmetric_modes A = [] ∧ Tucker.symmetric_factor A = None
    ∧ Tucker.symmetric_modes B = [] ∧ Tucker.symmetric_factor B = None
    ∧ ∃ e, Tucker.add A B = Raise e.
Proof.
  intros Eps dec T1 T2 eps1 eps2 A B HA HB.
  unfold Tucker.full2tuck in HA, HB.
  apply bind_ok in HA as (a & _ & [= <-]).
  apply bind_ok in HB as (b & _ & [= <-]).
  repeat split.
  apply add_without_shared_factor_raises; [reflexivity | left; reflexivity].
Qed.

(** A decomposition to run [full2tuck] with: the array itself as the
    core and an identity matrix per mode. *)
Definition eye (n : nat) : torch.Tensor :=
  torch.tabulate [n; n] (fun idx =>
    match idx with
    | [i; j] => if i =? j then 1%Z else 0%Z
    | _ => 0%Z
    end).

Definition identity_decomposition (T : torch.Tensor) (eps : unit)
  : result (torch.Tensor * list torch.Tensor) :=
  Ok (T, map eye (torch.shape T)).

Definition dense_2x2 : torch.Tensor := torch.mkTensor [2; 2] [1; 2; 3; 4]%Z.

Lemma full2tuck_sum_raises_witness :
  ∃ A, Tucker.full2tuck identity_decomposition dense_2x2 tt = Ok A
       ∧ Tucker.symmetric_factor A = None
       ∧ Tucker.add A A = Raise TypeError.
Proof.
  eexists. split; [reflexivity|].
  pose proof (full2tuck_sum_raises unit identity_decomposition dense_2x2 dense_2x2 tt tt
                _ _ eq_refl eq_refl) as (_ & Hnone & _).
  split; [exact Hnone | vm_compute; reflexivity].
Defined.

(** ** [flat_inner] on operands with different symmetric modes (C1) *)

(** When the two lists of symmetric modes differ, [flat_inner] runs the
    very statement [__add__] runs: it returns what [__add__] returns. *)
Lemma flat_inner_fallback_is_add (A B : Tucker.t) :
  Tucker.symmetric_modes A ≠ Tucker.symmetric_modes B →
  Tucker.flat_inner A B = Tucker.add A B.
Proof.
  intros Hne. unfold Tucker.flat_inner, Tucker.add.
  destruct (decide _) as [_|Heq]; [reflexivity | contradiction].
Qed.

Lemma flat_inner_fallback_no_scalar (A B : Tucker.t) (s : torch.Tensor) :
  Tucker.symmetric_modes A ≠ Tucker.symmetric_modes B →
  Tucker.flat_inner A B ≠ Ok (Tucker.Dense s).
Proof.
  intros Hne. unfold Tucker.flat_inner.
  destruct (decide _) as [_|Heq]; [|contradiction].
  intros H.
  apply bind_ok in H as (a & _ & H).
  apply bind_ok in H as (b & _ & H).
  apply bind_ok in H as (c & _ & H).
  discriminate.
Qed.

(** Two tensors of order 2 whose dense forms are [[6]] and [[5]]: the
    first shares mode 1, the second mode 0. *)
Definition inner_left : Tucker.t :=
  Tucker.mk (mat11 1) [mat11 2] [1%Z] (Some (mat11 3)).

Definition inner_right : Tucker.t :=
  Tucker.mk (mat11 1) [mat11 1] [0%Z] (Some (mat11 5)).

(** C1.  The claim is that [flat_inner] on operands whose symmetric
    modes differ returns the Frobenius inner product of the two plain
    forms, a scalar.  On such operands [flat_inner] evaluates the SUM of
    the two plain forms, the statement of the fallback of [__add__]:
    whatever that sum gives is what [flat_inner] gives, a plain Tucker
    tensor when the sum returns and the exception of the sum when it
    raises, and in no case a scalar. *)
Theorem flat_inner_fallback_returns_sum (A B : Tucker.t) :
  Tucker.symmetric_modes A ≠ Tucker.symmetric_modes B →
  Tucker.flat_inner A B
  = (a ← Tucker.to_regular_tucker A;
     b ← Tucker.to_regular_tucker B;
     s ← RegularTucker.add a b;
     Ok (Tucker.Regular s))
  ∧ Tucker.flat_inner A B = Tucker.add A B
  ∧ (∀ v, Tucker.flat_inner A B = Ok v → ∃ s, v = Tucker.Regular s)
  ∧ ∀ s, Tucker.flat_inner A B ≠ Ok (Tucker.Dense s).
Proof.
  intros Hne. split; [|split; [|split]].
  - unfold Tucker.flat_inner. destruct (decide _) as [_|Heq]; [reflexivity | contradiction].
  - apply flat_inner_fallback_is_add, Hne.
  - intros v H. unfold Tucker.flat_inner in H.
    destruct (decide _) as [_|Heq]; [|contradiction].
    apply bind_ok in H as (a & _ & H).
    apply bind_ok in H as (b & _ & H).
    apply bind_ok in H as (c & _ & H).
    injection H as <-. eauto.
  - intros s. apply flat_inner_fallback_no_scalar, Hne.
Qed.

(** The two tensors above have the dense forms [[6]] and [[5]], and the
    inner product 30 of the claim is not what [flat_inner] gives. *)
Lemma flat_inner_fallback_returns_sum_witness :
  Tucker.full inner_left = Ok (mat11 6)
  ∧ Tucker.full inner_right = Ok (mat11 5)
  ∧ Tucker.flat_inner inner_left inner_right = Tucker.add inner_left inner_right
  ∧ Tucker.flat_inner inner_left inner_right ≠ Ok (Tucker.Dense (torch.mkTensor [] [30%Z])).
Proof.
  split; [reflexivity|]. split; [reflexivity|].
  assert (Hne : Tucker.symmetric_modes inner_left ≠ Tucker.symmetric_modes inner_right)
    by (cbn; discriminate).
  destruct (flat_inner_fallback_returns_sum inner_left inner_right Hne)
    as (_ & Hadd & _ & Hscalar).
  split; [exact Hadd | apply Hscalar].
Defined.

(** ** Batch subscripts of [__matmul__] (C5) *)

(** A matrix of order 4, every mode split as 1 x 1, and a dense operand
    with one batch axis of size 2 in front of the four modes. *)
Definition matrix_order4 : SFTuckerMatrix.t :=
  SFTuckerMatrix.mk
    (SFTucker.mk (torch.mkTensor [1; 1; 1; 1] [1]%Z)
       [mat11 1; mat11 1; mat11 1] 1 (mat11 1))
    (Some [1; 1; 1; 1]%Z) (Some [1; 1; 1; 1]%Z).

Definition batch_of_two : torch.Tensor :=
  torch.mkTensor [2; 1; 1; 1; 1] [1; 2]%Z.

(** *** Where the batch subscripts are fresh and where they are not *)

Lemma str_get_lt (s : string) (i : nat) (c : ascii) :
  String.get i s = Some c → i < String.length s.
Proof.
  revert i; induction s as [|a s IH]; intros i H; [discriminate|].
  destruct i as [|i]; cbn in *; [lia|]. apply IH in H. lia.
Qed.

Definition occurs (b : ascii) (s : string) : bool :=
  existsb (Ascii.eqb b) (list_ascii_of_string s).

Lemma occurs_spec (b : ascii) (s : string) :
  occurs b s = true ↔ In b (list_ascii_of_string s).
Proof.
  unfold occurs. rewrite existsb_exists. split.
  - intros (c & Hc & Heq). apply Ascii.eqb_eq in Heq as ->. exact Hc.
  - intros H. exists b. split; [exact H | apply Ascii.eqb_refl].
Qed.

(** Is batch subscript [i] different from every core subscript and from
    every factor subscript, at order [d]? *)
Definition batch_subscript_fresh (d i : nat) : bool :=
  match SFTuckerMatrix.batch_subscript d i with
  | Ok b =>
      negb (occurs b (str_slice ascii_letters 0 d))
      && forallb (fun j => negb (occurs b (SFTuckerMatrix.factor_subscripts d j)))
           (range d)
  | Raise _ => true
  end.

(** Up to order 3 every batch subscript is fresh. *)
Lemma batch_subscripts_fresh_up_to_order_3 (d i : nat) (b : ascii) :
  d ≤ 3 → SFTuckerMatrix.batch_subscript d i = Ok b →
  ¬ In b (list_ascii_of_string (str_slice ascii_letters 0 d))
  ∧ ∀ j, j < d → ¬ In b (list_ascii_of_string (SFTuckerMatrix.factor_subscripts d j)).
Proof.
  intros Hd Hb.
  assert (Hi : i < 52).
  { unfold SFTuckerMatrix.batch_subscript, str_index in Hb.
    destruct (String.get _ ascii_letters) as [c|] eqn:Hget; [|discriminate].
    apply str_get_lt in Hget. cbn in Hget. lia. }
  assert (Hall : forallb (fun d => forallb (batch_subscript_fresh d) (range 52)) (range 4)
                 = true) by (vm_compute; reflexivity).
  rewrite forallb_forall in Hall. specialize (Hall d).
  unfold range in Hall. rewrite in_seq in Hall. specialize (Hall ltac:(lia)).
  rewrite forallb_forall in Hall. specialize (Hall i).
  rewrite in_seq in Hall. specialize (Hall ltac:(lia)).
  unfold batch_subscript_fresh in Hall. rewrite Hb in Hall.
  apply andb_true_iff in Hall as [Hcore Hfactors].
  split.
  - intros Hin. apply occurs_spec in Hin. rewrite Hin in Hcore. discriminate.
  - intros j Hj Hin. rewrite forallb_forall in Hfactors.
    specialize (Hfactors j). unfold range in Hfactors. rewrite in_seq in Hfactors.
    specialize (Hfactors ltac:(lia)). apply occurs_spec in Hin.
    rewrite Hin in Hfactors. discriminate.
Qed.

(** From order 4 on (and as long as the alphabet lasts for the factor
    subscripts, up to order 17) the first batch subscript is one of the
    factor subscripts. *)
Definition first_batch_subscript_clashes (d : nat) : bool :=
  match SFTuckerMatrix.batch_subscript d 0 with
  | Ok b => existsb (fun j => occurs b (SFTuckerMatrix.factor_subscripts d j)) (range d)
  | Raise _ => false
  end.

Lemma batch_subscript_clashes_from_order_4 (d : nat) :
  4 ≤ d ≤ 17 →
  ∃ b j, SFTuckerMatrix.batch_subscript d 0 = Ok b ∧ j < d
         ∧ In b (list_ascii_of_string (SFTuckerMatrix.factor_subscripts d j)).
Proof.
  intros Hd.
  assert (Hall : forallb first_batch_subscript_clashes (seq 4 14) = true)
    by (vm_compute; reflexivity).
  rewrite forallb_forall in Hall. specialize (Hall d).
  rewrite in_seq in Hall. specialize (Hall ltac:(lia)).
  unfold first_batch_subscript_clashes in Hall.
  destruct (SFTuckerMatrix.batch_subscript d 0) as [b|]; [|discriminate].
  apply existsb_exists in Hall as (j & Hj & Hocc).
  unfold range in Hj. apply in_seq in Hj. apply occurs_spec in Hocc.
  exists b, j. repeat split; [lia | exact Hocc].
Qed.

(** C5.  The claim is that the batch axes get subscripts distinct from
    every core and factor subscript, for every order.  The branch for
    dense operands gives batch axis [i] the letter
    [ascii_letters[2 * (ndim + 1) + i + 1]] while the factor subscripts
    occupy [ascii_letters[ndim : 3 * ndim]].  At order 4 the first batch
    subscript is [ascii_letters[11]], the letter [l], which is also the
    second subscript of the last factor ([kld]) and so the last result
    subscript: the contraction string the branch builds names [l] twice
    in its output, [lfhjl].  The same happens at every order from 4 to
    17: the first batch subscript is one of the factor subscripts.  (The
    call [M @ other] itself does not get that far: its guard holds for
    no operand, and it returns [None].) *)
Theorem matmul_batch_letter_clash :
  SFTuckerMatrix.batch_letters matrix_order4 batch_of_two = Ok ["l"%char]
  ∧ SFTuckerMatrix.matmul_equation matrix_order4 batch_of_two
    = Ok "abcd,efa,ghb,ijc,kld,legik->lfhjl"%string
  ∧ SFTuckerMatrix.matmul matrix_order4 (SFTuckerMatrix.OfDense batch_of_two)
    = Ok SFTuckerMatrix.PyNone
  ∧ ∀ d, 4 ≤ d ≤ 17 →
      ∃ b j, SFTuckerMatrix.batch_subscript d 0 = Ok b ∧ j < d
             ∧ In b (list_ascii_of_string (SFTuckerMatrix.factor_subscripts d j)).
Proof.
  split; [vm_compute; reflexivity|]. split; [vm_compute; reflexivity|].
  split; [reflexivity|].
  exact batch_subscript_clashes_from_order_4.
Qed.

(** At order 4 the letter is [l], shared with the factor of mode 3. *)
Lemma matmul_batch_letter_clash_witness :
  SFTuckerMatrix.ndim matrix_order4 = 4
  ∧ SFTuckerMatrix.batch_subscript 4 0 = Ok "l"%char
  ∧ SFTuckerMatrix.factor_subscripts 4 3 = "kl"%string
  ∧ ∃ b j, SFTuckerMatrix.batch_subscript 4 0 = Ok b ∧ j < 4
           ∧ In b (list_ascii_of_string (SFTuckerMatrix.factor_subscripts 4 j)).
Proof.
  split; [reflexivity|]. split; [reflexivity|]. split; [reflexivity|].
  destruct matmul_batch_letter_clash as (_ & _ & _ & H).
  apply (H 4). lia.
Defined.

(** ** Well-formed tensors and the [shape] property *)

Definition is_matrix (f : torch.Tensor) : Prop := length (torch.shape f) = 2.

(** The structural part of the data model: the symmetric modes are
    distinct mode indices, every other mode owns one private factor, and
    all factors, the shared one included, are matrices. *)
Definition well_formed (x : Tucker.t) : Prop :=
  NoDup (Tucker.symmetric_modes x)
  ∧ Forall (fun m => (0 ≤ m < Z.of_nat (Tucker.ndim x))%Z) (Tucker.symmetric_modes x)
  ∧ length (Tucker.common_factors x) + length (Tucker.symmetric_modes x) = Tucker.ndim x
  ∧ Forall is_matrix (Tucker.common_factors x)
  ∧ ∃ f, Tucker.symmetric_factor x = Some f ∧ is_matrix f.

(** Position in [common_factors] of the private factor of a regular
    mode: the number of regular modes before it. *)
Definition common_index (x : Tucker.t) (mode : nat) : nat :=
  length (filter (fun j => py_in (Z.of_nat j) (Tucker.symmetric_modes x) = false)
            (range mode)).

(** The entry of [shape] for one mode. *)
Definition mode_size (x : Tucker.t) (mode : nat) : result nat :=
  if py_in (Z.of_nat mode) (Tucker.symmetric_modes x)
  then Tucker.slot_shape0 (Tucker.symmetric_factor x)
  else f ← Tucker.common_factor x (common_index x mode); torch.shape_at f 0.

Lemma py_in_spec (k : Z) (l : list Z) : py_in k l = true ↔ k ∈ l.
Proof.
  unfold py_in. rewrite existsb_exists. split.
  - intros (y & Hy & Heq). apply Z.eqb_eq in Heq as ->. apply list_elem_of_In, Hy.
  - intros H. exists k. split; [apply list_elem_of_In, H | apply Z.eqb_refl].
Qed.

Lemma common_index_S (x : Tucker.t) (mode : nat) :
  common_index x (S mode)
  = common_index x mode
    + (if py_in (Z.of_nat mode) (Tucker.symmetric_modes x) then 0 else 1).
Proof.
  unfold common_index, range. rewrite seq_S, filter_app, length_app.
  f_equal. rewrite filter_cons, filter_nil.
  destruct (py_in _ _); cbn; destruct (decide _); cbn; congruence.
Qed.

Lemma common_index_mono (x : Tucker.t) (a b : nat) :
  a ≤ b → common_index x a ≤ common_index x b.
Proof.
  induction 1 as [|b _ IH]; [lia|]. rewrite common_index_S. lia.
Qed.

Lemma common_index_lt (x : Tucker.t) (a b : nat) :
  a < b → py_in (Z.of_nat a) (Tucker.symmetric_modes x) = false →
  common_index x a < common_index x b.
Proof.
  intros Hlt Ha. pose proof (common_index_mono x (S a) b Hlt) as H.
  rewrite common_index_S, Ha in H. lia.
Qed.

Lemma mode_size_symmetric (x : Tucker.t) (mode : nat) :
  py_in (Z.of_nat mode) (Tucker.symmetric_modes x) = true →
  mode_size x mode = Tucker.slot_shape0 (Tucker.symmetric_factor x).
Proof. intros H. unfold mode_size. rewrite H. reflexivity. Qed.

Lemma mode_size_regular (x : Tucker.t) (mode : nat) :
  py_in (Z.of_nat mode) (Tucker.symmetric_modes x) = false →
  mode_size x mode
  = (f ← Tucker.common_factor x (common_index x mode); torch.shape_at f 0).
Proof. intros H. unfold mode_size. rewrite H. reflexivity. Qed.

Lemma shape_loop_spec (x : Tucker.t) (n a : nat) :
  Tucker.shape_loop x (seq a n) (common_index x a) = for_each (mode_size x) (seq a n).
Proof.
  revert a; induction n as [|n IH]; intros a; [reflexivity|].
  cbn [seq Tucker.shape_loop for_each].
  pose proof (common_index_S x a) as HS.
  destruct (py_in (Z.of_nat a) (Tucker.symmetric_modes x)) eqn:Hin.
  - rewrite Nat.add_0_r in HS. rewrite <- HS, IH.
    rewrite (mode_size_symmetric x a Hin). reflexivity.
  - rewrite <- HS, IH. rewrite (mode_size_regular x a Hin).
    destruct (Tucker.common_factor x (common_index x a)) as [f|e]; [|reflexivity].
    cbn. destruct (torch.shape_at f 0); reflexivity.
Qed.

Lemma shape_spec (x : Tucker.t) :
  Tucker.shape x = for_each (mode_size x) (range (Tucker.ndim x)).
Proof. apply (shape_loop_spec x (Tucker.ndim x) 0). Qed.

(** The number of symmetric modes below [k], as [k_mode_product] counts
    it, and the private factor it selects. *)
Lemma filter_lt_succ (l : list Z) (k : nat) :
  NoDup l →
  length (filter (fun m => (m < Z.of_nat (S k))%Z) l)
  = length (filter (fun m => (m < Z.of_nat k)%Z) l)
    + (if py_in (Z.of_nat k) l then 1 else 0).
Proof.
  induction 1 as [|m l Hm Hl IH]; [reflexivity|].
  rewrite !filter_cons. cbn [py_in existsb].
  change (existsb (Z.eqb (Z.of_nat k)) l) with (py_in (Z.of_nat k) l).
  destruct (Z.eqb_spec (Z.of_nat k) m) as [<-|Hne].
  - assert (Hnot : py_in (Z.of_nat k) l = false).
    { destruct (py_in (Z.of_nat k) l) eqn:E; [|reflexivity].
      apply py_in_spec in E. contradiction. }
    rewrite Hnot in IH. cbn [orb].
    destruct (decide _) as [_|H1]; [|lia].
    destruct (decide _) as [H2|_]; [lia|].
    cbn [length]. lia.
  - cbn [orb].
    destruct (decide (m < Z.of_nat (S k))%Z), (decide (m < Z.of_nat k)%Z);
      cbn [length]; lia.
Qed.

Lemma k_change_spec (x : Tucker.t) (k : nat) :
  NoDup (Tucker.symmetric_modes x) →
  Forall (fun m => (0 ≤ m)%Z) (Tucker.symmetric_modes x) →
  (Z.of_nat k - Tucker.k_change x (Z.of_nat k))%Z = Z.of_nat (common_index x k).
Proof.
  intros Hnd Hpos. unfold Tucker.k_change.
  induction k as [|k IH].
  - assert (Hnil : filter (fun m => (m < Z.of_nat 0)%Z) (Tucker.symmetric_modes x) = []).
    { induction Hpos as [|m l Hm _ IHl]; [reflexivity|].
      rewrite filter_cons. destruct (decide _); [lia | apply IHl].
      inversion Hnd; assumption. }
    rewrite Hnil. reflexivity.
  - rewrite (filter_lt_succ _ k Hnd), common_index_S.
    destruct (py_in (Z.of_nat k) (Tucker.symmetric_modes x)); lia.
Qed.

Lemma symmetric_count (x : Tucker.t) :
  NoDup (Tucker.symmetric_modes x) →
  Forall (fun m => (0 ≤ m < Z.of_nat (Tucker.ndim x))%Z) (Tucker.symmetric_modes x) →
  common_index x (Tucker.ndim x) + length (Tucker.symmetric_modes x) = Tucker.ndim x.
Proof.
  intros Hnd Hrange.
  assert (Hpos : Forall (fun m => (0 ≤ m)%Z) (Tucker.symmetric_modes x)).
  { eapply Forall_impl; [exact Hrange | cbn; lia]. }
  pose proof (k_change_spec x (Tucker.ndim x) Hnd Hpos) as H.
  unfold Tucker.k_change in H.
  assert (Hall : filter (fun m => (m < Z.of_nat (Tucker.ndim x))%Z)
                   (Tucker.symmetric_modes x) = Tucker.symmetric_modes x).
  { clear H Hnd Hpos. induction Hrange as [|m l Hm _ IHl]; [reflexivity|].
    rewrite filter_cons. destruct (decide _); [f_equal; exact IHl | lia]. }
  rewrite Hall in H. lia.
Qed.

(** In a well-formed tensor every regular mode finds its private
    factor. *)
Lemma common_index_in_range (x : Tucker.t) (mode : nat) :
  well_formed x → mode < Tucker.ndim x →
  py_in (Z.of_nat mode) (Tucker.symmetric_modes x) = false →
  common_index x mode < length (Tucker.common_factors x).
Proof.
  intros (Hnd & Hrange & Hlen & _) Hlt Hreg.
  pose proof (symmetric_count x Hnd Hrange).
  pose proof (common_index_lt x mode (Tucker.ndim x) Hlt Hreg). lia.
Qed.

Lemma common_factor_lookup (x : Tucker.t) (i : nat) :
  Tucker.common_factor x i
  = match Tucker.common_factors x !! i with
    | Some f => Ok f
    | None => Raise IndexError
    end.
Proof.
  unfold Tucker.common_factor, py_index.
  destruct (Z.ltb_spec (Z.of_nat i) 0) as [?|_]; [lia|].
  destruct (Z.ltb_spec (Z.of_nat i) 0) as [?|_]; [lia|].
  rewrite Nat2Z.id. reflexivity.
Qed.

Lemma shape_at_matrix (f : torch.Tensor) :
  is_matrix f →
  ∃ n r, torch.shape f = [n; r] ∧ torch.shape_at f 0 = Ok n.
Proof.
  unfold is_matrix, torch.shape_at. intros H.
  destruct (torch.shape f) as [|n [|r [|? ?]]]; try discriminate.
  exists n, r. split; reflexivity.
Qed.

(** [shape] of a well-formed tensor succeeds. *)
Lemma mode_size_ok (x : Tucker.t) (mode : nat) :
  well_formed x → mode < Tucker.ndim x → ∃ n, mode_size x mode = Ok n.
Proof.
  intros Hwf Hlt.
  destruct (py_in (Z.of_nat mode) (Tucker.symmetric_modes x)) eqn:Hin.
  - rewrite (mode_size_symmetric x mode Hin).
    destruct Hwf as (_ & _ & _ & _ & f & -> & Hf).
    destruct (shape_at_matrix f Hf) as (n & r & _ & Hn). eauto.
  - rewrite (mode_size_regular x mode Hin), common_factor_lookup.
    pose proof (common_index_in_range x mode Hwf Hlt Hin) as Hidx.
    destruct (lookup_lt_is_Some_2 _ _ Hidx) as [f Hf]. rewrite Hf. cbn.
    destruct Hwf as (_ & _ & _ & Hmat & _).
    rewrite Forall_lookup in Hmat.
    destruct (shape_at_matrix f (Hmat _ _ Hf)) as (n & r & _ & Hn). eauto.
Qed.

Lemma for_each_total {A B} (f : A -> result B) (xs : list A) :
  (∀ x, x ∈ xs → ∃ y, f x = Ok y) → ∃ ys, for_each f xs = Ok ys.
Proof.
  induction xs as [|x xs IH]; intros H; [eexists; reflexivity|].
  destruct (H x) as [y Hy]; [left|].
  destruct IH as [ys Hys]; [intros z Hz; apply H; right; exact Hz|].
  exists (y :: ys). cbn. rewrite Hy. cbn. rewrite Hys. reflexivity.
Qed.

Lemma shape_ok (x : Tucker.t) :
  well_formed x → ∃ sh, Tucker.shape x = Ok sh.
Proof.
  intros Hwf. rewrite shape_spec. apply for_each_total.
  intros mode Hmode. apply mode_size_ok; [exact Hwf|].
  apply list_elem_of_In, in_seq in Hmode. lia.
Qed.

(** The entries of [shape], one mode at a time. *)
Lemma shape_lookup (x : Tucker.t) (sh : list nat) (mode : nat) :
  Tucker.shape x = Ok sh → mode < Tucker.ndim x →
  ∃ n, sh !! mode = Some n ∧ mode_size x mode = Ok n.
Proof.
  rewrite shape_spec, for_each_ok. intros H Hlt.
  assert (Hm : range (Tucker.ndim x) !! mode = Some mode).
  { unfold range. rewrite lookup_seq. split; [reflexivity | exact Hlt]. }
  destruct (Forall2_lookup_l _ _ _ _ _ H Hm) as (n & Hn & Hsz). eauto.
Qed.

Lemma shape_length (x : Tucker.t) (sh : list nat) :
  Tucker.shape x = Ok sh → length sh = Tucker.ndim x.
Proof.
  rewrite shape_spec. intros H. apply for_each_length in H.
  rewrite H. apply length_seq.
Qed.

(** ** Products with a matrix *)

(** [mat @ f] for two matrices: defined exactly when the inner sizes
    agree, and then of shape rows of [mat] by columns of [f]. *)
Lemma matmul_matrix (mat f : torch.Tensor) (p q q' r : nat) :
  torch.shape mat = [p; q] → torch.shape f = [q'; r] →
  if decide (q = q')
  then ∃ f', torch.matmul mat f = Ok f' ∧ torch.shape f' = [p; r]
  else torch.matmul mat f = Raise RuntimeError.
Proof.
  intros Hm Hf. unfold torch.matmul, torch.ndim. rewrite Hm, Hf.
  cbn [length Nat.eqb torch.split_last2 Nat.sub take nth torch.shape].
  rewrite !Hm, !Hf.
  cbn [length Nat.eqb torch.split_last2 Nat.sub take nth torch.shape].
  destruct (decide (q = q')) as [->|Hne].
  - rewrite Nat.eqb_refl. eexists. split; reflexivity.
  - destruct (Nat.eqb_spec q q') as [?|_]; [contradiction | reflexivity].
Qed.

(** ** Copies *)

Lemma copy_each (fs : list torch.Tensor) :
  for_each (fun factor => PyTorchBackend.copy (Some factor)) fs = Ok fs.
Proof.
  induction fs as [|f fs IH]; [reflexivity|].
  cbn [for_each]. rewrite IH. reflexivity.
Qed.

Lemma run_bind {A B} (m : Tucker.M A) (f : A -> Tucker.M B) (σ : gmap Tucker.loc Tucker.t) :
  (x ← m; f x) σ
  = match m σ with
    | (Ok a, σ') => f a σ'
    | (Raise e, σ') => (Raise e, σ')
    end.
Proof. reflexivity. Qed.

Lemma run_load (σ : gmap Tucker.loc Tucker.t) (l : Tucker.loc) (x : Tucker.t) :
  σ !! l = Some x → Tucker.load l σ = (Ok x, σ).
Proof. intros H. unfold Tucker.load. rewrite H. reflexivity. Qed.

(** [deepcopy] puts an equal object at an address that was free. *)
Lemma deepcopy_ok (σ : gmap Tucker.loc Tucker.t) (self : Tucker.loc) (x : Tucker.t)
  (f : torch.Tensor) :
  σ !! self = Some x → Tucker.symmetric_factor x = Some f →
  Tucker.deepcopy self σ = (Ok (fresh (dom σ)), <[fresh (dom σ) := x]> σ).
Proof.
  intros Hself Hf. unfold Tucker.deepcopy.
  rewrite run_bind, (run_load σ self x Hself).
  rewrite !run_bind. unfold Tucker.lift. rewrite copy_each, Hf.
  unfold Tucker.alloc, PyTorchBackend.copy, torch.clone.
  destruct x; cbn in *. subst. reflexivity.
Qed.

Lemma deepcopy_none (σ : gmap Tucker.loc Tucker.t) (self : Tucker.loc) (x : Tucker.t) :
  σ !! self = Some x → Tucker.symmetric_factor x = None →
  Tucker.deepcopy self σ = (Raise AttributeError, σ).
Proof.
  intros Hself Hf. unfold Tucker.deepcopy.
  rewrite run_bind, (run_load σ self x Hself).
  rewrite !run_bind. unfold Tucker.lift. rewrite copy_each, Hf.
  reflexivity.
Qed.

Lemma fresh_address (σ : gmap Tucker.loc Tucker.t) : σ !! fresh (dom σ) = None.
Proof. apply not_elem_of_dom, is_fresh. Qed.

(** A tensor without a shared factor (what [full2tuck] builds) cannot be
    copied, so neither product gets past its first statement on it. *)
Lemma symmetric_modes_product_without_shared_factor
  (σ : gmap Tucker.loc Tucker.t) (self : Tucker.loc) (x : Tucker.t)
  (mat : torch.Tensor) :
  σ !! self = Some x → Tucker.symmetric_factor x = None →
  Tucker.symmetric_modes_product self mat σ = (Raise AttributeError, σ).
Proof.
  intros Hself Hnone. unfold Tucker.symmetric_modes_product.
  rewrite run_bind, (deepcopy_none σ self x Hself Hnone). reflexivity.
Qed.

Lemma k_mode_product_without_shared_factor
  (σ : gmap Tucker.loc Tucker.t) (self : Tucker.loc) (x : Tucker.t) (k : Z)
  (mat : torch.Tensor) :
  σ !! self = Some x → Tucker.symmetric_factor x = None →
  (0 ≤ k < Z.of_nat (Tucker.ndim x))%Z → py_in k (Tucker.symmetric_modes x) = false →
  Tucker.k_mode_product self k mat σ = (Raise AttributeError, σ).
Proof.
  intros Hself Hnone Hk Hreg. unfold Tucker.k_mode_product.
  rewrite run_bind, (run_load σ self x Hself).
  destruct (Z.ltb_spec k 0) as [?|_]; [lia|].
  destruct (Z.leb_spec (Z.of_nat (Tucker.ndim x)) k) as [?|_]; [lia|].
  cbn [orb]. rewrite Hreg.
  rewrite run_bind, (deepcopy_none σ self x Hself Hnone). reflexivity.
Qed.

(** ** [symmetric_modes_product] (C7) *)

Lemma shape_at_0 (f : torch.Tensor) (n : nat) (rest : list nat) :
  torch.shape f = n :: rest → torch.shape_at f 0 = Ok n.
Proof. intros H. unfold torch.shape_at. rewrite H. reflexivity. Qed.

(** C7.  For a well-formed tensor with shared factor [f] of shape
    [n x r] and a matrix [mat] of shape [p x n],
    [symmetric_modes_product] returns a new tensor whose shared factor is
    [mat @ f], of shape [p x r] (second dimension unchanged), whose core,
    private factors and symmetric modes are those of the operand, and
    whose [shape] has the entry [p] at every symmetric mode. *)
Theorem symmetric_modes_product_shape
  (σ : gmap Tucker.loc Tucker.t) (self : Tucker.loc) (x : Tucker.t)
  (f mat : torch.Tensor) (p n r : nat) :
  σ !! self = Some x → well_formed x →
  Tucker.symmetric_factor x = Some f →
  torch.shape f = [n; r] → torch.shape mat = [p; n] →
  ∃ (new : Tucker.loc) (y : Tucker.t) (f' : torch.Tensor) (sh : list nat),
    Tucker.symmetric_modes_product self mat σ = (Ok new, <[new := y]> σ)
    ∧ σ !! new = None
    ∧ torch.matmul mat f = Ok f'
    ∧ Tucker.symmetric_factor y = Some f'
    ∧ torch.shape f' = [p; r]
    ∧ Tucker.core y = Tucker.core x
    ∧ Tucker.common_factors y = Tucker.common_factors x
    ∧ Tucker.symmetric_modes y = Tucker.symmetric_modes x
    ∧ Tucker.shape y = Ok sh
    ∧ ∀ i, i ∈ Tucker.symmetric_modes x → sh !! Z.to_nat i = Some p.
Proof.
  intros Hself Hwf Hf Hshape Hmat.
  pose proof (matmul_matrix mat f p n n r Hmat Hshape) as Hprod.
  destruct (decide (n = n)) as [_|?]; [|contradiction].
  destruct Hprod as (f' & Hf' & Hshape').
  set (new := fresh (dom σ)).
  set (y := Tucker.mk (Tucker.core x) (Tucker.common_factors x)
              (Tucker.symmetric_modes x) (Some f')).
  assert (Hwfy : well_formed y).
  { destruct Hwf as (Hnd & Hrange & Hlen & Hcommon & _).
    repeat split; try assumption.
    exists f'. split; [reflexivity|]. unfold is_matrix. rewrite Hshape'. reflexivity. }
  destruct (shape_ok y Hwfy) as [sh Hsh].
  exists new, y, f', sh.
  split.
  { unfold Tucker.symmetric_modes_product.
    rewrite run_bind, (deepcopy_ok σ self x f Hself Hf). fold new.
    rewrite run_bind, (run_load _ new x (lookup_insert_eq σ new x)).
    rewrite run_bind. unfold Tucker.lift. rewrite Hf. cbn [torch.matmul_slot].
    rewrite Hf'. rewrite run_bind. unfold Tucker.store.
    rewrite insert_insert_eq. reflexivity. }
  split; [apply fresh_address|].
  do 6 (split; [first [assumption | reflexivity]|]).
  split; [exact Hsh|].
  intros i Hi.
  destruct Hwf as (_ & Hrange & _).
  rewrite Forall_forall in Hrange. specialize (Hrange i Hi).
  assert (Hlt : Z.to_nat i < Tucker.ndim y) by (change (Tucker.ndim y) with (Tucker.ndim x); lia).
  destruct (shape_lookup y sh (Z.to_nat i) Hsh Hlt) as (k & Hk & Hsize).
  rewrite mode_size_symmetric in Hsize.
  - cbn in Hsize. rewrite (shape_at_0 f' p [r] Hshape') in Hsize.
    injection Hsize as <-. exact Hk.
  - rewrite Z2Nat.id by lia. apply py_in_spec. exact Hi.
Qed.

(** ** [k_mode_product] on a regular mode (C6) *)

Lemma py_index_nat {A} (l : list A) (i : nat) :
  py_index l (Z.of_nat i)
  = match l !! i with
    | Some x => Ok x
    | None => Raise IndexError
    end.
Proof.
  unfold py_index.
  destruct (Z.ltb_spec (Z.of_nat i) 0) as [?|_]; [lia|].
  destruct (Z.ltb_spec (Z.of_nat i) 0) as [?|_]; [lia|].
  rewrite Nat2Z.id. reflexivity.
Qed.

Lemma py_setitem_nat {A} (l : list A) (i : nat) (x : A) :
  i < length l → py_setitem l (Z.of_nat i) x = Ok (<[i := x]> l).
Proof.
  intros Hlt. unfold py_setitem.
  destruct (Z.ltb_spec (Z.of_nat i) 0) as [?|_]; [lia|].
  destruct (Z.ltb_spec (Z.of_nat i) 0) as [?|_]; [lia|].
  destruct (Z.ltb_spec (Z.of_nat i) (Z.of_nat (length l))) as [_|?]; [|lia].
  rewrite Nat2Z.id. reflexivity.
Qed.

Lemma py_in_false (k : Z) (l : list Z) : py_in k l = false ↔ k ∉ l.
Proof.
  rewrite <- py_in_spec. destruct (py_in k l); split; intros H;
    first [reflexivity | discriminate | exfalso; apply H; reflexivity | idtac].
Qed.

(** Replacing the private factor of regular mode [k] changes the entry
    [k] of [shape] and no other. *)
Lemma shape_after_update (x y : Tucker.t) (k : nat) (f' : torch.Tensor)
  (p r : nat) (sh : list nat) :
  well_formed x → k < Tucker.ndim x →
  py_in (Z.of_nat k) (Tucker.symmetric_modes x) = false →
  Tucker.core y = Tucker.core x →
  Tucker.symmetric_modes y = Tucker.symmetric_modes x →
  Tucker.symmetric_factor y = Tucker.symmetric_factor x →
  Tucker.common_factors y = <[common_index x k := f']> (Tucker.common_factors x) →
  torch.shape f' = [p; r] →
  Tucker.shape x = Ok sh →
  Tucker.shape y = Ok (<[k := p]> sh).
Proof.
  intros Hwf Hk Hreg Hcore Hmodes Hsym Hcommon Hf' Hsh.
  assert (Hnd : Tucker.ndim y = Tucker.ndim x) by (unfold Tucker.ndim; rewrite Hcore; reflexivity).
  assert (Hidx : ∀ m, common_index y m = common_index x m).
  { intros m. unfold common_index. rewrite Hmodes. reflexivity. }
  pose proof (shape_length x sh Hsh) as Hlen.
  rewrite shape_spec, for_each_ok, Hnd.
  rewrite shape_spec, for_each_ok in Hsh.
  apply Forall2_same_length_lookup_2.
  { rewrite length_insert, Hlen. unfold range. rewrite length_seq. reflexivity. }

  intros i mode n Hmode Hn.
  unfold range in Hmode. apply lookup_seq in Hmode as [-> Hi]. cbn [Nat.add].
  destruct (decide (i = k)) as [->|Hne].
  - rewrite list_lookup_insert_eq in Hn by lia. injection Hn as <-.
    unfold mode_size. rewrite Hmodes, Hreg, common_factor_lookup, Hcommon, Hidx.
    rewrite list_lookup_insert_eq
      by (apply common_index_in_range; assumption).
    cbn. apply (shape_at_0 f' p [r] Hf').
  - rewrite list_lookup_insert_ne in Hn by lia.
    assert (Hold : mode_size x i = Ok n).
    { eapply (Forall2_lookup_lr _ _ _ i i n Hsh); [|exact Hn].
      unfold range. apply lookup_seq. split; [reflexivity | exact Hi]. }
    unfold mode_size in *. rewrite Hmodes, Hsym.
    destruct (py_in (Z.of_nat i) (Tucker.symmetric_modes x)) eqn:Hin; [exact Hold|].
    rewrite common_factor_lookup, Hcommon, Hidx.
    rewrite common_factor_lookup in Hold.
    rewrite list_lookup_insert_ne; [exact Hold|].
    destruct (Nat.lt_total i k) as [Hlt | [? | Hgt]]; [|contradiction|].
    + pose proof (common_index_lt x i k Hlt Hin). lia.
    + pose proof (common_index_lt x k i Hgt Hreg). lia.
Qed.

(** C6.  The claim is made for every structured tensor; it fails on the
    tensors without a shared factor, those [full2tuck] builds, on which
    the deep copy raises ([k_mode_product_without_shared_factor]).  It
    holds where the shared factor is present: for a well-formed tensor,
    a regular mode [k] in range and a matrix [mat] whose second
    dimension is the first dimension of the private factor of mode [k],
    [k_mode_product] returns a new tensor:
    the private factor at position [k] minus the number of symmetric
    modes below [k] is replaced by [mat @ f], entry [k] of [shape]
    becomes the first dimension of [mat], every other entry of [shape]
    is unchanged, and so are the core (hence the rank), the symmetric
    modes and the shared factor. *)
Theorem k_mode_product_regular_mode
  (σ : gmap Tucker.loc Tucker.t) (self : Tucker.loc) (x : Tucker.t) (k : Z)
  (f mat : torch.Tensor) (p n r : nat) (sh : list nat) :
  σ !! self = Some x → well_formed x →
  (0 ≤ k < Z.of_nat (Tucker.ndim x))%Z →
  k ∉ Tucker.symmetric_modes x →
  Tucker.common_factors x !! Z.to_nat (k - Tucker.k_change x k) = Some f →
  torch.shape f = [n; r] → torch.shape mat = [p; n] →
  Tucker.shape x = Ok sh →
  ∃ (new : Tucker.loc) (y : Tucker.t) (f' : torch.Tensor),
    Tucker.k_mode_product self k mat σ = (Ok (Tucker.NewStructured new), <[new := y]> σ)
    ∧ σ !! new = None
    ∧ torch.matmul mat f = Ok f'
    ∧ Tucker.common_factors y
      = <[Z.to_nat (k - Tucker.k_change x k) := f']> (Tucker.common_factors x)
    ∧ Tucker.core y = Tucker.core x
    ∧ Tucker.rank y = Tucker.rank x
    ∧ Tucker.symmetric_modes y = Tucker.symmetric_modes x
    ∧ Tucker.symmetric_factor y = Tucker.symmetric_factor x
    ∧ Tucker.shape y = Ok (<[Z.to_nat k := p]> sh)
    ∧ <[Z.to_nat k := p]> sh !! Z.to_nat k = Some p.
Proof.
  intros Hself Hwf Hk Hnotin Hf Hshape Hmat Hsh.
  pose proof (matmul_matrix mat f p n n r Hmat Hshape) as Hprod.
  destruct (decide (n = n)) as [_|?]; [|contradiction].
  destruct Hprod as (f' & Hf' & Hshape').
  pose proof Hwf as (Hnd & Hrange & _ & _ & g & Hg & _).
  assert (Hpos : Forall (fun m => (0 ≤ m)%Z) (Tucker.symmetric_modes x)).
  { eapply Forall_impl; [exact Hrange | cbn; lia]. }
  pose proof (k_change_spec x (Z.to_nat k) Hnd Hpos) as Hchange.
  rewrite Z2Nat.id in Hchange by lia.
  assert (Hreg : py_in (Z.of_nat (Z.to_nat k)) (Tucker.symmetric_modes x) = false).
  { rewrite Z2Nat.id by lia. apply py_in_false, Hnotin. }
  assert (Hin : py_in k (Tucker.symmetric_modes x) = false) by (apply py_in_false, Hnotin).
  assert (Hlt : Z.to_nat k < Tucker.ndim x) by lia.
  pose proof (common_index_in_range x (Z.to_nat k) Hwf Hlt Hreg) as Hidx.
  set (new := fresh (dom σ)).
  set (pos := common_index x (Z.to_nat k)) in *.
  assert (Hposeq : Z.to_nat (k - Tucker.k_change x k) = pos) by lia.
  rewrite Hposeq in *.
  set (y := Tucker.mk (Tucker.core x) (<[pos := f']> (Tucker.common_factors x))
              (Tucker.symmetric_modes x) (Tucker.symmetric_factor x)).
  exists new, y, f'.
  split.
  { unfold Tucker.k_mode_product.
    rewrite run_bind, (run_load σ self x Hself).
    destruct (Z.ltb_spec k 0) as [?|_]; [lia|].
    destruct (Z.leb_spec (Z.of_nat (Tucker.ndim x)) k) as [?|_]; [lia|].
    cbn [orb]. rewrite Hin.
    rewrite run_bind, (deepcopy_ok σ self x g Hself Hg). fold new.
    rewrite run_bind, (run_load _ new x (lookup_insert_eq σ new x)).
    rewrite Hchange. unfold Tucker.lift.
    rewrite run_bind, py_index_nat. fold pos. rewrite Hf.
    rewrite run_bind, Hf'.
    rewrite run_bind, (py_setitem_nat _ pos f' Hidx).
    rewrite run_bind. unfold Tucker.store. rewrite insert_insert_eq. reflexivity. }
  split; [apply fresh_address|].
  do 6 (split; [first [assumption | reflexivity]|]).
  split.
  - apply (shape_after_update x y (Z.to_nat k) f' p r sh); try assumption; reflexivity.
  - apply list_lookup_insert_eq. rewrite (shape_length x sh Hsh). exact Hlt.
Qed.

(** ** Errors of [k_mode_product] (C8) *)

(** The factor of a mode: the shared factor on a symmetric mode, the
    private one otherwise.  This is the factor [to_regular_tucker] lists
    for the mode. *)
Definition mode_factor (x : Tucker.t) (mode : nat) : option torch.Tensor :=
  if py_in (Z.of_nat mode) (Tucker.symmetric_modes x)
  then Tucker.symmetric_factor x
  else Tucker.common_factors x !! common_index x mode.

Definition mode_slot (x : Tucker.t) (mode : nat) : result (option torch.Tensor) :=
  if py_in (Z.of_nat mode) (Tucker.symmetric_modes x)
  then Ok (Tucker.symmetric_factor x)
  else f ← Tucker.common_factor x (common_index x mode); Ok (Some f).

Lemma regular_factors_loop_spec (x : Tucker.t) (n a : nat) :
  Tucker.regular_factors_loop x (seq a n) (common_index x a)
  = for_each (mode_slot x) (seq a n).
Proof.
  revert a; induction n as [|n IH]; intros a; [reflexivity|].
  cbn [seq Tucker.regular_factors_loop for_each].
  pose proof (common_index_S x a) as HS.
  destruct (py_in (Z.of_nat a) (Tucker.symmetric_modes x)) eqn:Hin.
  - rewrite Nat.add_0_r in HS. rewrite <- HS, IH.
    replace (mode_slot x a) with (Ok (Tucker.symmetric_factor x))
      by (unfold mode_slot; rewrite Hin; reflexivity).
    reflexivity.
  - rewrite <- HS, IH.
    replace (mode_slot x a)
      with (f ← Tucker.common_factor x (common_index x a); Ok (Some f))
      by (unfold mode_slot; rewrite Hin; reflexivity).
    destruct (Tucker.common_factor x (common_index x a)) as [f|e]; reflexivity.
Qed.

Lemma mode_factor_matrix (x : Tucker.t) (mode : nat) :
  well_formed x → mode < Tucker.ndim x →
  ∃ f n r, mode_factor x mode = Some f ∧ torch.shape f = [n; r].
Proof.
  intros Hwf Hlt. unfold mode_factor.
  destruct (py_in (Z.of_nat mode) (Tucker.symmetric_modes x)) eqn:Hin.
  - destruct Hwf as (_ & _ & _ & _ & f & -> & Hf).
    destruct (shape_at_matrix f Hf) as (n & r & Hshape & _). eauto.
  - pose proof (common_index_in_range x mode Hwf Hlt Hin) as Hidx.
    destruct (lookup_lt_is_Some_2 _ _ Hidx) as [f Hf].
    destruct Hwf as (_ & _ & _ & Hmat & _). rewrite Forall_lookup in Hmat.
    destruct (shape_at_matrix f (Hmat _ _ Hf)) as (n & r & Hshape & _). eauto.
Qed.

Lemma mode_slot_ok (x : Tucker.t) (mode : nat) :
  well_formed x → mode < Tucker.ndim x →
  mode_slot x mode = Ok (mode_factor x mode).
Proof.
  intros Hwf Hlt. unfold mode_slot, mode_factor.
  destruct (py_in (Z.of_nat mode) (Tucker.symmetric_modes x)) eqn:Hin; [reflexivity|].
  pose proof (common_index_in_range x mode Hwf Hlt Hin) as Hidx.
  destruct (lookup_lt_is_Some_2 _ _ Hidx) as [f Hf].
  rewrite common_factor_lookup, Hf. reflexivity.
Qed.

(** [to_regular_tucker] of a well-formed tensor lists the factor of
    every mode. *)
Lemma to_regular_tucker_ok (x : Tucker.t) :
  well_formed x →
  ∃ fs, Tucker.to_regular_tucker x = Ok (RegularTucker.mk (Tucker.core x) fs)
        ∧ length fs = Tucker.ndim x
        ∧ ∀ mode, mode < Tucker.ndim x → fs !! mode = Some (mode_factor x mode).
Proof.
  intros Hwf. unfold Tucker.to_regular_tucker, range.
  change (Tucker.regular_factors_loop x (seq 0 (Tucker.ndim x)) 0)
    with (Tucker.regular_factors_loop x (seq 0 (Tucker.ndim x)) (common_index x 0)).
  rewrite (regular_factors_loop_spec x (Tucker.ndim x) 0).
  destruct (for_each_total (mode_slot x) (seq 0 (Tucker.ndim x))) as [fs Hfs].
  { intros mode Hmode. apply list_elem_of_In, in_seq in Hmode.
    exists (mode_factor x mode). apply mode_slot_ok; [exact Hwf | lia]. }
  exists fs. rewrite Hfs. split; [reflexivity|].
  pose proof (for_each_length _ _ _ Hfs) as Hlen. rewrite length_seq in Hlen.
  split; [exact Hlen|].
  intros mode Hlt. apply for_each_ok in Hfs.
  assert (Hm : seq 0 (Tucker.ndim x) !! mode = Some mode).
  { apply lookup_seq. split; [reflexivity | exact Hlt]. }
  destruct (Forall2_lookup_l _ _ _ _ _ Hfs Hm) as (s & Hs & Hslot).
  rewrite (mode_slot_ok x mode Hwf Hlt) in Hslot. injection Hslot as <-. exact Hs.
Qed.

(** The message of the range check. *)
Definition range_message (x : Tucker.t) : string :=
  "k shoduld be from 0 to " +:+ pretty (Z.of_nat (Tucker.ndim x) - 1)%Z.

(** C8.  The claim is made for every structured tensor; on a tensor
    without a shared factor the call also raises for a mode in range
    and a matrix of matching size, in the deep copy
    ([k_mode_product_without_shared_factor]).  Where the shared factor
    is present the claim holds: on a well-formed tensor and a matrix
    [mat] of shape [p x q], [k_mode_product] raises exactly in two
    situations: the [ValueError]
    of its range check when [k] is out of range, with the store as it
    was; and, for [k] in range, the error of the product [mat @ f] when
    [q] is not the first dimension of the factor [f] of mode [k], with
    at most an untouched copy of the operand added to the store.  When
    the sizes agree it returns.  In every case the objects of the store,
    the operand among them, are unchanged. *)
Theorem k_mode_product_validation
  (σ : gmap Tucker.loc Tucker.t) (self : Tucker.loc) (x : Tucker.t) (k : Z)
  (mat : torch.Tensor) (p q : nat) :
  σ !! self = Some x → well_formed x → torch.shape mat = [p; q] →
  ((k < 0 ∨ Z.of_nat (Tucker.ndim x) ≤ k)%Z →
     Tucker.k_mode_product self k mat σ = (Raise (ValueError (range_message x)), σ))
  ∧ ((0 ≤ k < Z.of_nat (Tucker.ndim x))%Z →
     ∃ f n r,
       mode_factor x (Z.to_nat k) = Some f ∧ torch.shape f = [n; r]
       ∧ (q ≠ n →
          (Tucker.k_mode_product self k mat σ).1 = Raise RuntimeError
          ∧ ((Tucker.k_mode_product self k mat σ).2 = σ
             ∨ (Tucker.k_mode_product self k mat σ).2 = <[fresh (dom σ) := x]> σ))
       ∧ (q = n → is_ok (Tucker.k_mode_product self k mat σ).1 = true))
  ∧ σ ⊆ (Tucker.k_mode_product self k mat σ).2
  ∧ (Tucker.k_mode_product self k mat σ).2 !! self = Some x.
Proof.
  intros Hself Hwf Hmat.
  assert (Hfresh : ∀ v, σ ⊆ <[fresh (dom σ) := v]> σ).
  { intros v. apply insert_subseteq, fresh_address. }
  assert (Hkeep : ∀ σ', σ ⊆ σ' → σ' !! self = Some x).
  { intros σ' Hsub. eapply lookup_weaken; eassumption. }
  unfold Tucker.k_mode_product.
  rewrite run_bind, (run_load σ self x Hself).
  destruct (Z.ltb_spec k 0) as [Hneg|Hnonneg].
  { cbn [orb]. unfold Tucker.raise. cbn [fst snd].
    repeat split; [lia | reflexivity | exact Hself]. }
  destruct (Z.leb_spec (Z.of_nat (Tucker.ndim x)) k) as [Hbig|Hsmall].
  { cbn [orb]. unfold Tucker.raise. cbn [fst snd].
    repeat split; [lia | reflexivity | exact Hself]. }
  cbn [orb].
  destruct (Z_of_nat_complete k Hnonneg) as [k' ->].
  rewrite Nat2Z.id.
  assert (Hlt : k' < Tucker.ndim x) by lia.
  destruct (mode_factor_matrix x k' Hwf Hlt) as (f & n & r & Hf & Hshape).
  pose proof (matmul_matrix mat f p q n r Hmat Hshape) as Hprod.
  assert (Hgoal :
    ∀ out : result Tucker.product * gmap Tucker.loc Tucker.t,
      (q ≠ n → out.1 = Raise RuntimeError
                ∧ (out.2 = σ ∨ out.2 = <[fresh (dom σ) := x]> σ))
      → (q = n → is_ok out.1 = true ∧ σ ⊆ out.2)
      → ((Z.of_nat k' < 0 ∨ Z.of_nat (Tucker.ndim x) ≤ Z.of_nat k')%Z →
           out = (Raise (ValueError (range_message x)), σ))
        ∧ ((0 ≤ Z.of_nat k' < Z.of_nat (Tucker.ndim x))%Z →
           ∃ f n r,
             mode_factor x k' = Some f ∧ torch.shape f = [n; r]
             ∧ (q ≠ n → out.1 = Raise RuntimeError
                        ∧ (out.2 = σ ∨ out.2 = <[fresh (dom σ) := x]> σ))
             ∧ (q = n → is_ok out.1 = true))
        ∧ σ ⊆ out.2 ∧ out.2 !! self = Some x).
  { intros out Hbad Hgood.
    assert (Hsub : σ ⊆ out.2).
    { destruct (decide (q = n)) as [Heq|Hne]; [apply Hgood, Heq|].
      destruct (Hbad Hne) as (_ & [-> | ->]); [reflexivity | apply Hfresh]. }
    split; [intros ?; lia|].
    split; [|split; [exact Hsub | apply Hkeep, Hsub]].
    intros _. exists f, n, r. repeat split; try assumption.
    - apply Hbad; assumption.
    - apply Hbad; assumption.
    - intros Heq. apply Hgood, Heq. }
  apply Hgoal; clear Hgoal.
  - (* the sizes disagree *)
    intros Hne. destruct (decide (q = n)) as [?|_]; [contradiction|].
    unfold mode_factor in Hf.
    destruct (py_in (Z.of_nat k') (Tucker.symmetric_modes x)) eqn:Hin.
    + destruct (to_regular_tucker_ok x Hwf) as (fs & Hreg & Hlen & Hfs).
      unfold Tucker.lift. rewrite run_bind, Hreg, run_bind.
      unfold RegularTucker.k_mode_product.
      change (RegularTucker.ndim (RegularTucker.mk (Tucker.core x) fs))
        with (Tucker.ndim x).
      destruct (Z.ltb_spec (Z.of_nat k') 0) as [?|_]; [lia|].
      destruct (Z.leb_spec (Z.of_nat (Tucker.ndim x)) (Z.of_nat k')) as [?|_]; [lia|].
      cbn [orb RegularTucker.factors].
      rewrite py_index_nat, (Hfs _ Hlt).
      unfold mode_factor. rewrite Hin, Hf.
      cbn [mbind result_bind torch.matmul_slot]. rewrite Hprod.
      cbn. split; [reflexivity | left; reflexivity].
    + pose proof Hwf as (Hnd & Hrange & _ & _ & g & Hg & _).
      assert (Hpos : Forall (fun m => (0 ≤ m)%Z) (Tucker.symmetric_modes x)).
      { eapply Forall_impl; [exact Hrange | cbn; lia]. }
      pose proof (k_change_spec x k' Hnd Hpos) as Hchange.
      rewrite run_bind, (deepcopy_ok σ self x g Hself Hg).
      rewrite run_bind, (run_load _ _ x (lookup_insert_eq σ _ x)).
      rewrite Hchange. unfold Tucker.lift.
      rewrite run_bind, py_index_nat, Hf.
      rewrite run_bind, Hprod.
      cbn. split; [reflexivity | right; reflexivity].
  - (* the sizes agree *)
    intros Heq. destruct (decide (q = n)) as [_|?]; [|contradiction].
    destruct Hprod as (f' & Hf' & _).
    unfold mode_factor in Hf.
    destruct (py_in (Z.of_nat k') (Tucker.symmetric_modes x)) eqn:Hin.
    + destruct (to_regular_tucker_ok x Hwf) as (fs & Hreg & Hlen & Hfs).
      unfold Tucker.lift. rewrite run_bind, Hreg, run_bind.
      unfold RegularTucker.k_mode_product.
      change (RegularTucker.ndim (RegularTucker.mk (Tucker.core x) fs))
        with (Tucker.ndim x).
      destruct (Z.ltb_spec (Z.of_nat k') 0) as [?|_]; [lia|].
      destruct (Z.leb_spec (Z.of_nat (Tucker.ndim x)) (Z.of_nat k')) as [?|_]; [lia|].
      cbn [orb RegularTucker.factors].
      rewrite py_index_nat, (Hfs _ Hlt).
      unfold mode_factor. rewrite Hin, Hf.
      cbn [mbind result_bind torch.matmul_slot]. rewrite Hf'.
      cbn [mbind result_bind]. rewrite py_setitem_nat by lia.
      cbn. split; reflexivity.
    + pose proof Hwf as (Hnd & Hrange & _ & _ & g & Hg & _).
      assert (Hpos : Forall (fun m => (0 ≤ m)%Z) (Tucker.symmetric_modes x)).
      { eapply Forall_impl; [exact Hrange | cbn; lia]. }
      pose proof (k_change_spec x k' Hnd Hpos) as Hchange.
      assert (Hidx : common_index x k' < length (Tucker.common_factors x)).
      { apply lookup_lt_is_Some_1. eauto. }
      rewrite run_bind, (deepcopy_ok σ self x g Hself Hg).
      rewrite run_bind, (run_load _ _ x (lookup_insert_eq σ _ x)).
      rewrite Hchange. unfold Tucker.lift.
      rewrite run_bind, py_index_nat, Hf.
      rewrite run_bind, Hf'.
      rewrite run_bind, (py_setitem_nat _ _ f' Hidx).
      rewrite run_bind. unfold Tucker.store. rewrite insert_insert_eq.
      cbn. split; [reflexivity | apply Hfresh].
Qed.

(** ** The widths [__add__] asks for and the padding of the adapter *)

Lemma widths_after_ok (d : nat) (r : list nat) (pw : list (nat * nat)) :
  widths_after d r = Ok pw →
  length pw = d
  ∧ ∀ j, j < d →
      pw !! j = Some (if 0 <? j then (0, nth j r 0) else (0, 0))
      ∧ (0 < j → j < length r).
Proof.
  unfold widths_after. intros H.
  pose proof (for_each_length _ _ _ H) as Hlen. unfold range in Hlen.
  rewrite length_seq in Hlen. split; [exact Hlen|].
  intros j Hj. apply for_each_ok in H.
  assert (Hm : range d !! j = Some j).
  { unfold range. apply lookup_seq. split; [reflexivity | exact Hj]. }
  destruct (Forall2_lookup_l _ _ _ _ _ H Hm) as (w & Hw & Hstep).
  rewrite Hw. destruct (0 <? j) eqn:Hpos.
  - rewrite py_index_nat in Hstep.
    destruct (r !! j) as [rj|] eqn:Hr; [|discriminate].
    cbn in Hstep. injection Hstep as <-.
    rewrite (nth_lookup_Some _ _ 0 _ Hr). split; [reflexivity|].
    intros _. apply lookup_lt_is_Some_1. eauto.
  - injection Hstep as <-. split; [reflexivity|].
    apply Nat.ltb_ge in Hpos. lia.
Qed.

Lemma widths_after_total (d : nat) (r : list nat) :
  d ≤ length r → ∃ pw, widths_after d r = Ok pw.
Proof.
  intros Hle. apply for_each_total. intros j Hj.
  apply list_elem_of_In, in_seq in Hj.
  destruct (0 <? j); [|eauto].
  rewrite py_index_nat.
  destruct (lookup_lt_is_Some_2 r j) as [rj ->]; [lia | cbn; eauto].
Qed.

Lemma widths_after_raises (d : nat) (r : list nat) (e : exn) :
  widths_after d r = Raise e → e = IndexError ∧ 2 ≤ d.
Proof.
  intros H. apply for_each_raises in H as (j & Hj & H).
  apply in_seq in Hj. destruct j as [|j]; [discriminate|].
  cbn [Nat.ltb Nat.leb] in H.
  destruct (py_index r (Z.of_nat (S j))) as [rj|e'] eqn:E; [discriminate|].
  injection H as <-. split; [eapply py_index_raises, E | lia].
Qed.

(** The adapter's [pad] reverses the flattened pairs, so that torch
    reads the pair [(before, after)] of an axis as (left = after,
    right = before). *)
Definition swap_pair (pair : nat * nat) : nat * nat := (snd pair, fst pair).

Lemma pairs_app (l : list nat) (ps : list (nat * nat)) (a b : nat) :
  torch.pairs l = Some ps → torch.pairs (l ++ [a; b]) = Some (ps ++ [(a, b)]).
Proof.
  assert (H : ∀ n l ps, length l ≤ n → torch.pairs l = Some ps →
                        torch.pairs (l ++ [a; b]) = Some (ps ++ [(a, b)])).
  { clear l ps. induction n as [|n IH]; intros [|x [|y l]] ps Hlen Hl;
      cbn [length] in Hlen; try lia; cbn [torch.pairs app] in *;
      try discriminate; try (injection Hl as <-; reflexivity).
    destruct (torch.pairs l) as [ps'|] eqn:El; [|discriminate].
    cbn in Hl. injection Hl as <-.
    rewrite (IH l ps' ltac:(lia) El). reflexivity. }
  apply (H (length l)). lia.
Qed.

Lemma pairs_flat_rev (pw : list (nat * nat)) :
  torch.pairs (rev (flat_map (fun pair => [fst pair; snd pair]) pw))
  = Some (rev (map swap_pair pw)).
Proof.
  induction pw as [|[b a] pw IH]; [reflexivity|].
  cbn [flat_map map rev fst snd app].
  rewrite <- app_assoc. cbn [app].
  rewrite (pairs_app _ _ a b IH). reflexivity.
Qed.

(** On every axis the adapter places the block of the input [after]
    entries from the start and lets the axis grow by [before + after]:
    the zeros asked for AFTER the block come BEFORE it. *)
Definition padded (t : torch.Tensor) (lr : list (nat * nat)) : torch.Tensor :=
  torch.tabulate
    (zip_with (fun n '(l, r) => l + n + r) (torch.shape t) lr)
    (fun idx =>
       if forallb (fun '(i, (n, (l, _))) => (l <=? i) && (i <? l + n))
            (zip idx (zip (torch.shape t) lr))
       then torch.get t (zip_with (fun i '(l, _) => i - l) idx lr)
       else 0%Z).

Lemma backend_pad_swaps (t : torch.Tensor) (pw : list (nat * nat)) :
  length pw = torch.ndim t →
  PyTorchBackend.pad t pw = Ok (padded t (map swap_pair pw)).
Proof.
  intros Hlen. unfold PyTorchBackend.pad, torch.pad.
  rewrite pairs_flat_rev.
  rewrite length_rev, length_map, Hlen, Nat.leb_refl, Nat.sub_diag.
  cbn [repeat]. rewrite app_nil_r, rev_involutive. reflexivity.
Qed.

(** ** The sum of two structured tensors (C2) *)

(** The two calls of [back.pad] in [__add__] name the keyword [mode],
    which the adapter's [pad] does not have: neither call is accepted.
    With [constant_values] alone the same call pads. *)
Lemma pad_call_with_mode (t : torch.Tensor) (pw : list (nat * nat)) :
  PyTorchBackend.pad_call t pw ["mode"; "constant_values"]%string = Raise TypeError.
Proof. reflexivity. Qed.

Lemma pad_call_accepted (t : torch.Tensor) (pw : list (nat * nat)) :
  PyTorchBackend.pad_call t pw ["constant_values"]%string = PyTorchBackend.pad t pw.
Proof. reflexivity. Qed.

(** The widths of the first pad are built before the call, one pair per
    mode of [self], from the rank of [other]: reading [r2[j]] fails when
    [self] has a mode [j > 0] that [other] does not have. *)
Lemma widths_after_short (d : nat) (r : list nat) :
  2 ≤ d → length r < d → widths_after d r = Raise IndexError.
Proof.
  intros Hd Hr. destruct (widths_after d r) as [pw|e] eqn:E.
  - destruct (widths_after_ok _ _ _ E) as (_ & H).
    destruct (H (d - 1) ltac:(lia)) as (_ & Hlt). specialize (Hlt ltac:(lia)). lia.
  - apply widths_after_raises in E as [-> _]. reflexivity.
Qed.

Lemma widths_after_built (d : nat) (r : list nat) :
  d ≤ 1 ∨ d ≤ length r → ∃ pw, widths_after d r = Ok pw.
Proof.
  intros [Hd|Hd]; [|apply widths_after_total, Hd].
  destruct d as [|[|d]]; [eexists; reflexivity | eexists; reflexivity | lia].
Qed.

(** [__add__] on operands with the same symmetric modes stops before it
    has padded anything: with an [IndexError] while the widths of the
    first pad are built, or else with the [TypeError] of the first call
    of [back.pad]. *)
Lemma add_on_equal_modes (x y : Tucker.t) :
  Tucker.symmetric_modes x = Tucker.symmetric_modes y →
  Tucker.add x y
  = Raise (if (2 <=? Tucker.ndim x) && (Tucker.ndim y <? Tucker.ndim x)
           then IndexError else TypeError).
Proof.
  intros Hmodes. unfold Tucker.add.
  destruct (decide _) as [?|_]; [contradiction|].
  destruct (Nat.leb_spec 2 (Tucker.ndim x)) as [Hd|Hd];
    destruct (Nat.ltb_spec (Tucker.ndim y) (Tucker.ndim x)) as [Hr|Hr]; cbn [andb].
  1:{ rewrite widths_after_short; [reflexivity | exact Hd | exact Hr]. }
  all: destruct (widths_after_built (Tucker.ndim x) (Tucker.rank y)) as [pw1 ->];
    [unfold Tucker.rank; fold (Tucker.ndim y); lia|];
    cbn [mbind result_bind]; rewrite pad_call_with_mode; reflexivity.
Qed.

(** Two tensors of order 2 that share mode 1.  Their dense forms are
    [[1 * 1 * 1]] = [[1]] and [[1 * 2 * 3]] = [[6]]. *)
Definition sum_left : Tucker.t :=
  Tucker.mk (mat11 1) [mat11 1] [1%Z] (Some (mat11 1)).

Definition sum_right : Tucker.t :=
  Tucker.mk (mat11 1) [mat11 2] [1%Z] (Some (mat11 3)).

Lemma sum_left_well_formed : well_formed sum_left.
Proof.
  repeat split; cbn.
  - apply NoDup_singleton.
  - repeat constructor; lia.
  - repeat constructor.
  - exists (mat11 1). split; reflexivity.
Qed.

Lemma sum_right_well_formed : well_formed sum_right.
Proof.
  repeat split; cbn.
  - apply NoDup_singleton.
  - repeat constructor; lia.
  - repeat constructor.
  - exists (mat11 3). split; reflexivity.
Qed.

(** C2.  The claim is that for operands with equal symmetric modes the
    result of [A + B] has rank [r1[j] + r2[j]] on every mode.  [__add__]
    has no result on such operands: its first statement after the
    comparison of the symmetric modes is a call of [back.pad] with the
    keyword [mode], which the adapter's [pad(tensor, pad_width,
    constant_values)] refuses, so that no core is padded and nothing is
    concatenated.  On operands of the same order, the case the claim
    describes, the exception is that [TypeError]. *)
Theorem add_raises_at_first_pad (A B : Tucker.t) :
  Tucker.symmetric_modes A = Tucker.symmetric_modes B →
  (∀ v, Tucker.add A B ≠ Ok v)
  ∧ (Tucker.ndim A = Tucker.ndim B → Tucker.add A B = Raise TypeError).
Proof.
  intros Hmodes. rewrite (add_on_equal_modes A B Hmodes). split.
  - intros v. discriminate.
  - intros Hnd. rewrite Hnd, Nat.ltb_irrefl, andb_false_r. reflexivity.
Qed.

Lemma add_raises_at_first_pad_witness :
  well_formed sum_left ∧ well_formed sum_right
  ∧ Tucker.rank sum_left = [1; 1] ∧ Tucker.rank sum_right = [1; 1]
  ∧ Tucker.add sum_left sum_right = Raise TypeError.
Proof.
  split; [exact sum_left_well_formed|]. split; [exact sum_right_well_formed|].
  split; [reflexivity|]. split; [reflexivity|].
  apply (add_raises_at_first_pad sum_left sum_right eq_refl). reflexivity.
Defined.

(** ** The dense form of a sum (C3) *)

(** C3.  The claim is that the dense form of a sum is the sum of the
    dense forms.  The two tensors above have the same symmetric modes
    and the dense forms [[1]] and [[6]]; their sum, in either order, is
    the [TypeError] of the first call of [back.pad] in [__add__], so
    that there is no tensor [A + B] to take the dense form of. *)
Theorem sum_has_no_dense_form :
  well_formed sum_left ∧ well_formed sum_right
  ∧ Tucker.symmetric_modes sum_left = Tucker.symmetric_modes sum_right
  ∧ Tucker.full sum_left = Ok (mat11 1)
  ∧ Tucker.full sum_right = Ok (mat11 6)
  ∧ Tucker.add sum_left sum_right = Raise TypeError
  ∧ Tucker.add sum_right sum_left = Raise TypeError.
Proof.
  split; [exact sum_left_well_formed|].
  split; [exact sum_right_well_formed|].
  repeat split; vm_compute; reflexivity.
Qed.

(** ** The theorems at concrete tensors *)

(** A store with one tensor of order 2: mode 0 is regular, with a
    3 x 2 private factor; mode 1 is symmetric, with a 2 x 2 shared
    factor. *)
Definition stored : Tucker.t :=
  Tucker.mk (torch.mkTensor [2; 2] [1; 2; 3; 4]%Z)
    [torch.mkTensor [3; 2] [1; 0; 0; 1; 1; 1]%Z] [1%Z]
    (Some (torch.mkTensor [2; 2] [1; 1; 0; 1]%Z)).

Example stored_shape_and_full :
  Tucker.shape stored = Ok [3; 2]
  ∧ Tucker.full stored = Ok (torch.mkTensor [3; 2] [3; 2; 7; 4; 10; 6]%Z).
Proof. split; vm_compute; reflexivity. Qed.

Definition store1 : gmap Tucker.loc Tucker.t := {[ 1%positive := stored ]}.

Lemma stored_well_formed : well_formed stored.
Proof.
  repeat split; cbn.
  - apply NoDup_singleton.
  - repeat constructor; lia.
  - repeat constructor.
  - eexists. split; reflexivity.
Qed.

Definition row3 : torch.Tensor := torch.mkTensor [1; 3] [1; 1; 1]%Z.
Definition row2 : torch.Tensor := torch.mkTensor [1; 2] [1; 1]%Z.

Lemma symmetric_modes_product_shape_witness :
  ∃ new y sh,
    Tucker.symmetric_modes_product 1%positive row2 store1 = (Ok new, <[new := y]> store1)
    ∧ Tucker.shape y = Ok sh ∧ sh !! 1 = Some 1.
Proof.
  destruct (symmetric_modes_product_shape store1 1%positive stored
              (torch.mkTensor [2; 2] [1; 1; 0; 1]%Z) row2 1 2 2
              eq_refl stored_well_formed eq_refl eq_refl eq_refl)
    as (new & y & f' & sh & Hrun & _ & _ & _ & _ & _ & _ & _ & Hsh & Hall).
  exists new, y, sh. split; [exact Hrun|]. split; [exact Hsh|].
  apply (Hall 1%Z). cbn. left.
Defined.

Lemma k_mode_product_regular_mode_witness :
  ∃ new y,
    Tucker.k_mode_product 1%positive 0 row3 store1
    = (Ok (Tucker.NewStructured new), <[new := y]> store1)
    ∧ Tucker.shape y = Ok [1; 2]
    ∧ Tucker.rank y = [2; 2].
Proof.
  destruct (k_mode_product_regular_mode store1 1%positive stored 0%Z
              (torch.mkTensor [3; 2] [1; 0; 0; 1; 1; 1]%Z) row3 1 3 2 [3; 2]
              eq_refl stored_well_formed ltac:(cbn; lia)
              ltac:(cbn; intros H; apply list_elem_of_singleton in H; discriminate)
              eq_refl eq_refl eq_refl eq_refl)
    as (new & y & f' & Hrun & _ & _ & _ & _ & Hrank & _ & _ & Hsh & _).
  exists new, y. split; [exact Hrun|]. split; [exact Hsh | exact Hrank].
Defined.

Lemma k_mode_product_validation_witness :
  Tucker.k_mode_product 1%positive 2 row3 store1
  = (Raise (ValueError "k shoduld be from 0 to 1"), store1)
  ∧ (Tucker.k_mode_product 1%positive 0 row2 store1).2 !! 1%positive = Some stored.
Proof.
  split.
  - destruct (k_mode_product_validation store1 1%positive stored 2 row3 1 3
                eq_refl stored_well_formed eq_refl) as (Hrange & _).
    apply Hrange. cbn. lia.
  - destruct (k_mode_product_validation store1 1%positive stored 0 row2 1 2
                eq_refl stored_well_formed eq_refl) as (_ & _ & _ & Hkeep).
    exact Hkeep.
Defined.

(** The tensor [full2tuck] builds from a 2 x 2 array with the identity
    decomposition: order 2, both modes regular with a 2 x 2 private
    factor each, and no shared factor. *)
Definition unshared : Tucker.t := Tucker.mk dense_2x2 [eye 2; eye 2] [] None.

Definition store_unshared : gmap Tucker.loc Tucker.t := {[ 1%positive := unshared ]}.

(** On that tensor mode 1 is a regular mode in range and [row2], of
    shape 1 x 2, matches the 2 x 2 factor of mode 1; the product is not
    a new tensor of shape (2, 1) but the [AttributeError] of the deep
    copy, which calls [back.copy] on the absent shared factor. *)
Lemma k_mode_product_regular_mode_counterexample :
  Tucker.full2tuck identity_decomposition dense_2x2 tt = Ok unshared
  ∧ Tucker.shape unshared = Ok [2; 2]
  ∧ (0 ≤ 1 < Z.of_nat (Tucker.ndim unshared))%Z
  ∧ py_in 1 (Tucker.symmetric_modes unshared) = false
  ∧ Tucker.common_factors unshared !! 1 = Some (eye 2)
  ∧ torch.shape (eye 2) = [2; 2]
  ∧ torch.shape row2 = [1; 2]
  ∧ Tucker.k_mode_product 1%positive 1 row2 store_unshared
    = (Raise AttributeError, store_unshared).
Proof.
  repeat split; try reflexivity; cbn; lia.
Qed.

(** On the same tensor mode 0 is in range and [row2] matches its
    factor: the call raises all the same, an error that is neither the
    range check nor a mismatch of sizes. *)
Lemma k_mode_product_validation_counterexample :
  Tucker.full2tuck identity_decomposition dense_2x2 tt = Ok unshared
  ∧ (0 ≤ 0 < Z.of_nat (Tucker.ndim unshared))%Z
  ∧ Tucker.common_factors unshared !! 0 = Some (eye 2)
  ∧ torch.shape (eye 2) = [2; 2]
  ∧ torch.shape row2 = [1; 2]
  ∧ torch.matmul row2 (eye 2) = Ok row2
  ∧ Tucker.k_mode_product 1%positive 0 row2 store_unshared
    = (Raise AttributeError, store_unshared).
Proof.
  repeat split; try reflexivity; cbn; lia.
Qed.

(** * Further properties of the modelled code *)

(** ** [PyTorchBackend.pad] *)

(** Is [idx] inside the block of the input, when axis [j] of the input,
    of size [n], is padded with the pair [(before, after)]?  The block
    starts [after] entries in. *)
Definition in_block (sh : list nat) (pad_width : list (nat * nat)) (idx : list nat)
  : bool :=
  forallb (fun '(i, (n, w)) => (snd w <=? i) && (i <? snd w + n))
    (zip idx (zip sh pad_width)).

(** The index of the input entry that lands at [idx]. *)
Definition unshift (pad_width : list (nat * nat)) (idx : list nat) : list nat :=
  zip_with (fun i w => i - snd w) idx pad_width.

Lemma padded_entries (t : torch.Tensor) (pw : list (nat * nat)) (idx : list nat) :
  (if forallb (fun '(i, (n, (l, _))) => (l <=? i) && (i <? l + n))
        (zip idx (zip (torch.shape t) (map swap_pair pw)))
   then torch.get t (zip_with (fun i '(l, _) => i - l) idx (map swap_pair pw))
   else 0%Z)
  = (if in_block (torch.shape t) pw idx then torch.get t (unshift pw idx) else 0%Z).
Proof.
  unfold in_block, unshift.
  assert (H1 : ∀ sh idx,
    forallb (fun '(i, (n, (l, _))) => (l <=? i) && (i <? l + n))
      (zip idx (zip sh (map swap_pair pw)))
    = forallb (fun '(i, (n, w)) => (snd w <=? i) && (i <? snd w + n))
        (zip idx (zip sh pw))).
  { clear. induction pw as [|[b a] pw IH]; intros [|n sh] [|i idx]; try reflexivity.
    cbn. rewrite IH. reflexivity. }
  assert (H2 : ∀ idx,
    zip_with (fun i '(l, _) => i - l) idx (map swap_pair pw)
    = zip_with (fun i w => i - snd w) idx pw).
  { clear. induction pw as [|[b a] pw IH]; intros [|i idx]; try reflexivity.
    cbn. rewrite IH. reflexivity. }
  rewrite H1, H2. reflexivity.
Qed.

(** X1.  With one [(before, after)] pair per axis, [pad] returns a
    tensor whose axis [j] has grown by [before + after]; the input sits
    in it as one block that starts [after] entries in on every axis (the
    flattened pairs are reversed as a whole before torch reads them), and
    every entry outside the block is 0. *)
Theorem backend_pad_entries (t : torch.Tensor) (pad_width : list (nat * nat)) :
  length pad_width = torch.ndim t →
  ∃ t',
    PyTorchBackend.pad t pad_width = Ok t'
    ∧ torch.shape t'
      = zip_with (fun n w => snd w + n + fst w) (torch.shape t) pad_width
    ∧ ∀ idx, Forall2 lt idx (torch.shape t') →
        torch.get t' idx
        = if in_block (torch.shape t) pad_width idx
          then torch.get t (unshift pad_width idx)
          else 0%Z.
Proof.
  intros Hlen. exists (padded t (map swap_pair pad_width)).
  split; [apply backend_pad_swaps, Hlen|].
  assert (Hshape : torch.shape (padded t (map swap_pair pad_width))
                   = zip_with (fun n w => snd w + n + fst w)
                       (torch.shape t) pad_width).
  { unfold padded. cbn [torch.tabulate torch.shape].
    clear Hlen. generalize (torch.shape t) as sh.
    induction pad_width as [|[b a] pw IH]; intros [|n sh]; cbn; try reflexivity.
    f_equal. apply IH. }
  split; [exact Hshape|].
  intros idx Hidx. unfold padded in *. cbn [torch.tabulate torch.shape] in Hidx.
  rewrite get_tabulate by exact Hidx. apply padded_entries.
Qed.

Lemma backend_pad_entries_witness :
  ∃ t', PyTorchBackend.pad mat23 [(0, 0); (0, 1)] = Ok t'
        ∧ torch.shape t' = [2; 4]
        ∧ torch.get t' [1; 0] = 0%Z ∧ torch.get t' [1; 1] = 4%Z.
Proof.
  destruct (backend_pad_entries mat23 [(0, 0); (0, 1)] eq_refl)
    as (t' & Hrun & Hshape & Hget).
  exists t'. split; [exact Hrun|]. split; [exact Hshape|].
  split; (rewrite Hget; [reflexivity | rewrite Hshape; repeat constructor]).
Defined.

Lemma zip_with_swapped (sh : list nat) (pw : list (nat * nat)) :
  zip_with (fun n '(l, r) => l + n + r) sh (map swap_pair pw)
  = zip_with (fun n w => snd w + n + fst w) sh pw.
Proof.
  revert sh. induction pw as [|[b a] pw IH]; intros [|n sh]; cbn; try reflexivity.
  f_equal. apply IH.
Qed.

(** The pairs as [pad] applies them to a tensor of order [d]: when the
    list is shorter than [d], its pairs go to the TRAILING axes and the
    leading axes get [(0, 0)]. *)
Definition trailing (d : nat) (pad_width : list (nat * nat)) : list (nat * nat) :=
  repeat (0, 0) (d - length pad_width) ++ pad_width.

Lemma backend_pad_trailing (t : torch.Tensor) (pad_width : list (nat * nat)) :
  length pad_width ≤ torch.ndim t →
  PyTorchBackend.pad t pad_width
  = Ok (padded t (map swap_pair (trailing (torch.ndim t) pad_width))).
Proof.
  intros Hlen. unfold PyTorchBackend.pad, torch.pad. rewrite pairs_flat_rev.
  rewrite length_rev, length_map.
  destruct (Nat.leb_spec (length pad_width) (torch.ndim t)); [|lia].
  unfold padded, trailing.
  rewrite rev_app_distr, rev_involutive, rev_repeat, map_app.
  replace (map swap_pair (repeat (0, 0) (torch.ndim t - length pad_width)))
    with (repeat (0, 0) (torch.ndim t - length pad_width)); [reflexivity|].
  induction (torch.ndim t - length pad_width) as [|k IH]; [reflexivity|].
  cbn. f_equal. exact IH.
Qed.

(** X2.  [pad] raises exactly when it is given more pairs than the
    tensor has axes.  Given fewer, it does not pad the leading axes: the
    pairs are taken for the TRAILING axes, and on those axes the block
    of the input again starts [after] entries in, before and after
    exchanged. *)
Theorem backend_pad_pairs_and_axes (t : torch.Tensor) (pad_width : list (nat * nat)) :
  (torch.ndim t < length pad_width → PyTorchBackend.pad t pad_width = Raise RuntimeError)
  ∧ (length pad_width ≤ torch.ndim t →
     ∃ t', PyTorchBackend.pad t pad_width = Ok t'
           ∧ torch.shape t'
             = zip_with (fun n w => snd w + n + fst w) (torch.shape t)
                 (repeat (0, 0) (torch.ndim t - length pad_width) ++ pad_width)
           ∧ ∀ idx, Forall2 lt idx (torch.shape t') →
               torch.get t' idx
               = if in_block (torch.shape t)
                      (repeat (0, 0) (torch.ndim t - length pad_width) ++ pad_width) idx
                 then torch.get t
                        (unshift (repeat (0, 0) (torch.ndim t - length pad_width)
                                  ++ pad_width) idx)
                 else 0%Z).
Proof.
  split; intros Hlen.
  - unfold PyTorchBackend.pad, torch.pad. rewrite pairs_flat_rev.
    rewrite length_rev, length_map.
    destruct (Nat.leb_spec (length pad_width) (torch.ndim t)); [lia | reflexivity].
  - rewrite (backend_pad_trailing t pad_width Hlen). fold (trailing (torch.ndim t) pad_width).
    eexists. split; [reflexivity|].
    assert (Hshape : torch.shape (padded t (map swap_pair (trailing (torch.ndim t) pad_width)))
                     = zip_with (fun n w => snd w + n + fst w) (torch.shape t)
                         (trailing (torch.ndim t) pad_width)).
    { unfold padded. cbn [torch.tabulate torch.shape]. apply zip_with_swapped. }
    split; [exact Hshape|].
    intros idx Hidx. unfold padded in *. cbn [torch.tabulate torch.shape] in Hidx.
    rewrite get_tabulate by exact Hidx. apply padded_entries.
Qed.

(** One pair for a matrix: the columns are padded, the rows are not,
    and the zero asked for in front of the columns comes behind them. *)
Lemma backend_pad_pairs_and_axes_witness :
  PyTorchBackend.pad (mat11 1) [(0, 0); (0, 0); (0, 0)] = Raise RuntimeError
  ∧ ∃ t', PyTorchBackend.pad mat23 [(1, 0)] = Ok t' ∧ torch.shape t' = [2; 4]
          ∧ torch.get t' [0; 0] = 1%Z ∧ torch.get t' [0; 3] = 0%Z
          ∧ torch.get t' [1; 2] = 6%Z.
Proof.
  split.
  - apply (proj1 (backend_pad_pairs_and_axes (mat11 1) [(0, 0); (0, 0); (0, 0)])).
    cbn. lia.
  - destruct (proj2 (backend_pad_pairs_and_axes mat23 [(1, 0)]) ltac:(cbn; lia))
      as (t' & Ht' & Hshape & Hget).
    exists t'. split; [exact Ht'|]. split; [rewrite Hshape; reflexivity|].
    repeat split; (rewrite Hget; [reflexivity | rewrite Hshape; repeat constructor]).
Defined.

(** ** [PyTorchBackend.reshape] with [order="F"] *)

Lemma infer_leading_size (total m n : nat) :
  0 < m * n → total mod (m * n) = 0 →
  torch.infer_shape total [(-1)%Z; Z.of_nat m; Z.of_nat n]
  = Ok [total / (m * n); m; n].
Proof.
  intros Hpos Hmod. unfold torch.infer_shape.
  cbn [existsb].
  destruct (Z.ltb_spec (-1) (-1)) as [?|_]; [lia|].
  destruct (Z.ltb_spec (Z.of_nat m) (-1)) as [?|_]; [lia|].
  destruct (Z.ltb_spec (Z.of_nat n) (-1)) as [?|_]; [lia|].
  cbn [orb]. rewrite !filter_cons, !filter_nil.
  destruct (decide ((-1)%Z ≠ (-1)%Z)) as [?|_]; [contradiction|].
  destruct (decide (Z.of_nat m ≠ (-1)%Z)) as [_|?]; [|lia].
  destruct (decide (Z.of_nat n ≠ (-1)%Z)) as [_|?]; [|lia].
  destruct (decide ((-1)%Z = (-1)%Z)) as [_|?]; [|contradiction].
  destruct (decide (Z.of_nat m = (-1)%Z)) as [?|_]; [lia|].
  destruct (decide (Z.of_nat n = (-1)%Z)) as [?|_]; [lia|].
  cbn [length map torch.numel fold_right]. rewrite !Nat2Z.id, Nat.mul_1_r.
  destruct (Nat.eqb_spec (m * n) 0) as [?|_]; [lia|].
  rewrite Hmod. cbn [Nat.eqb].
  destruct (Z.eqb_spec (Z.of_nat m) (-1)) as [?|_]; [lia|].
  destruct (Z.eqb_spec (Z.of_nat n) (-1)) as [?|_]; [lia|].
  reflexivity.
Qed.

(** X3.  The column-major reshape [__matmul__] applies to its factors:
    a factor with [n * m] rows and [r] columns, [n * m > 0], reshaped to
    [(n, m, -1)] with [order="F"], has shape [(n, m, r)], and its entry
    [(a, b, c)] is the entry [(a + n * b, c)] of the factor: the row
    index is split with its FIRST part varying fastest. *)
Theorem reshape_fortran_splits_rows (factor : torch.Tensor) (n m r : nat) :
  torch.shape factor = [n * m; r] → 0 < n * m →
  ∃ t,
    PyTorchBackend.reshape factor [Z.of_nat n; Z.of_nat m; (-1)%Z] "F" = Ok t
    ∧ torch.shape t = [n; m; r]
    ∧ ∀ a b c, a < n → b < m → c < r →
        torch.get t [a; b; c] = torch.get factor [a + n * b; c].
Proof.
  intros Hshape Hpos.
  unfold PyTorchBackend.reshape. cbn [String.eqb Ascii.eqb Bool.eqb].
  unfold PyTorchBackend.reshape_fortran, torch.ndim. rewrite Hshape.
  cbn [length Nat.ltb Nat.leb].
  set (x := torch.tabulate [r; n * m]
              (fun idx => torch.get factor [nth 1 idx 0; nth 0 idx 0])).
  assert (Hx : torch.permute factor (PyTorchBackend.reversed_range 2) = Ok x).
  { unfold torch.permute, torch.ndim. rewrite Hshape. reflexivity. }
  rewrite Hx. cbn [mbind result_bind].
  unfold torch.reshape. cbn [rev app torch.shape x torch.tabulate torch.numel fold_right].
  rewrite Nat.mul_1_r.
  rewrite (infer_leading_size (r * (n * m)) m n)
    by (try lia; replace (m * n) with (n * m) by lia; apply Nat.Div0.mod_mul).
  cbn [mbind result_bind].
  replace (r * (n * m) / (m * n)) with r
    by (replace (m * n) with (n * m) by lia; symmetry; apply Nat.div_mul; lia).
  set (y := torch.mkTensor [r; m; n] (torch.data x)).
  unfold torch.permute, torch.ndim.
  cbn [torch.shape y length PyTorchBackend.reversed_range range seq rev app
       torch.is_permutation Nat.eqb andb forallb existsb orb map nth torch.position].
  eexists. split; [reflexivity|]. split; [reflexivity|].
  intros a b c Ha Hb Hc.
  rewrite get_tabulate by (repeat constructor; assumption).
  cbn [nth].
  assert (Hy : torch.get y [c; b; a] = torch.get x [c; b * n + a]).
  { unfold torch.get. cbn [torch.shape y x torch.tabulate torch.data torch.ravel
                           torch.numel fold_right].
    f_equal. nia. }
  rewrite Hy. unfold x.
  rewrite get_tabulate by (repeat constructor; [assumption | nia]).
  cbn [nth]. f_equal. f_equal. lia.
Qed.

Lemma reshape_fortran_splits_rows_witness :
  ∃ t, PyTorchBackend.reshape (torch.mkTensor [4; 2] [1; 2; 3; 4; 5; 6; 7; 8]%Z)
         [2; 2; -1]%Z "F" = Ok t
       ∧ torch.get t [1; 0; 1] = 4%Z.
Proof.
  destruct (reshape_fortran_splits_rows
              (torch.mkTensor [4; 2] [1; 2; 3; 4; 5; 6; 7; 8]%Z) 2 2 2 eq_refl
              ltac:(cbn; lia)) as (t & Hrun & _ & Hget).
  exists t. split; [exact Hrun|].
  rewrite (Hget 1 0 1) by lia. reflexivity.
Defined.

(** ** [shape], [to_regular_tucker] and [full2tuck] *)

Lemma shape_loop_of_regular_factors (x : Tucker.t) (modes : list nat) (curr : nat)
  (fs : list (option torch.Tensor)) :
  Tucker.regular_factors_loop x modes curr = Ok fs →
  Tucker.shape_loop x modes curr = for_each Tucker.slot_shape0 fs.
Proof.
  revert curr fs. induction modes as [|mode modes IH]; intros curr fs H.
  - injection H as <-. reflexivity.
  - cbn [Tucker.regular_factors_loop Tucker.shape_loop] in *.
    destruct (py_in (Z.of_nat mode) (Tucker.symmetric_modes x)).
    + apply bind_ok in H as (fs' & Hfs' & [= <-]).
      cbn [for_each]. rewrite (IH _ _ Hfs'). reflexivity.
    + apply bind_ok in H as (f & Hf & H).
      apply bind_ok in H as (fs' & Hfs' & [= <-]).
      rewrite Hf. cbn [for_each mbind result_bind Tucker.slot_shape0].
      rewrite (IH _ _ Hfs'). reflexivity.
Qed.

(** X4.  Whenever [to_regular_tucker] returns, the plain tensor has the
    core of the structured one and one factor slot per mode, and the
    [shape] property of the structured tensor is the list of the first
    dimensions of those slots, computed in mode order (with the same
    exception, if reading a first dimension fails). *)
Theorem shape_is_shape_of_regular_form (x : Tucker.t) (r : RegularTucker.t) :
  Tucker.to_regular_tucker x = Ok r →
  RegularTucker.core r = Tucker.core x
  ∧ length (RegularTucker.factors r) = Tucker.ndim x
  ∧ Tucker.shape x = for_each Tucker.slot_shape0 (RegularTucker.factors r).
Proof.
  unfold Tucker.to_regular_tucker. intros H.
  apply bind_ok in H as (fs & Hfs & [= <-]). cbn [RegularTucker.core RegularTucker.factors].
  split; [reflexivity|]. split.
  - assert (Hlen : ∀ modes curr fs',
              Tucker.regular_factors_loop x modes curr = Ok fs' →
              length fs' = length modes).
    { clear. induction modes as [|mode modes IH]; intros curr fs' H.
      - injection H as <-. reflexivity.
      - cbn [Tucker.regular_factors_loop] in H.
        destruct (py_in _ _).
        + apply bind_ok in H as (fs & Hfs & [= <-]). cbn. f_equal. eapply IH, Hfs.
        + apply bind_ok in H as (f & _ & H).
          apply bind_ok in H as (fs & Hfs & [= <-]). cbn. f_equal. eapply IH, Hfs. }
    rewrite (Hlen _ _ _ Hfs). unfold range. apply length_seq.
  - apply shape_loop_of_regular_factors, Hfs.
Qed.

Lemma shape_is_shape_of_regular_form_witness :
  ∃ r, Tucker.to_regular_tucker stored = Ok r
       ∧ Tucker.shape stored = for_each Tucker.slot_shape0 (RegularTucker.factors r).
Proof.
  eexists. split; [reflexivity|].
  apply (shape_is_shape_of_regular_form stored _ eq_refl).
Defined.

Lemma regular_factors_without_symmetric_modes (x : Tucker.t)
  (pre l : list torch.Tensor) :
  Tucker.symmetric_modes x = [] → Tucker.common_factors x = pre ++ l →
  Tucker.regular_factors_loop x (seq (length pre) (length l)) (length pre)
  = Ok (map Some l).
Proof.
  intros Hmodes. revert pre. induction l as [|f l IH]; intros pre Hcommon.
  - reflexivity.
  - cbn [length seq Tucker.regular_factors_loop]. rewrite Hmodes. cbn [py_in existsb].
    rewrite common_factor_lookup, Hcommon.
    rewrite lookup_app_r, Nat.sub_diag by lia. cbn [lookup list_lookup mbind result_bind].
    replace (length pre + 1) with (length (pre ++ [f])) by (rewrite length_app; cbn; lia).
    replace (S (length pre)) with (length (pre ++ [f])) by (rewrite length_app; cbn; lia).
    rewrite (IH (pre ++ [f])) by (rewrite <- app_assoc; exact Hcommon).
    reflexivity.
Qed.

(** X5.  Round trip through [full2tuck]: when the external
    decomposition returns a core with one factor per axis,
    [to_regular_tucker] of the structured tensor built from it gives
    back exactly that core and those factors, and [shape] lists the
    first dimensions of the factors; the missing shared factor is never
    looked at. *)
Theorem full2tuck_to_regular_round_trip :
  ∀ (Eps : Type)
    (regular_full2tuck : torch.Tensor -> Eps -> result (torch.Tensor * list torch.Tensor))
    (T : torch.Tensor) (eps : Eps) (core : torch.Tensor) (factors : list torch.Tensor),
    regular_full2tuck T eps = Ok (core, factors) →
    length factors = length (torch.shape core) →
    ∃ A,
      Tucker.full2tuck regular_full2tuck T eps = Ok A
      ∧ Tucker.to_regular_tucker A = Ok (RegularTucker.mk core (map Some factors))
      ∧ Tucker.shape A = for_each (fun f => torch.shape_at f 0) factors.
Proof.
  intros Eps dec T eps core factors Hdec Hlen.
  unfold Tucker.full2tuck. rewrite Hdec. cbn [mbind result_bind fst snd].
  eexists. split; [reflexivity|].
  set (A := Tucker.mk core factors [] None).
  assert (Hloop : Tucker.regular_factors_loop A (range (Tucker.ndim A)) 0
                  = Ok (map Some factors)).
  { unfold range, Tucker.ndim. cbn [Tucker.core A]. rewrite <- Hlen.
    apply (regular_factors_without_symmetric_modes A [] factors); reflexivity. }
  split.
  - unfold Tucker.to_regular_tucker. rewrite Hloop. reflexivity.
  - unfold Tucker.shape. rewrite (shape_loop_of_regular_factors _ _ _ _ Hloop).
    clear. induction factors as [|f fs IH]; [reflexivity|].
    cbn [map for_each Tucker.slot_shape0]. rewrite IH. reflexivity.
Qed.

Lemma full2tuck_to_regular_round_trip_witness :
  ∃ A, Tucker.full2tuck identity_decomposition dense_2x2 tt = Ok A
       ∧ Tucker.to_regular_tucker A
         = Ok (RegularTucker.mk dense_2x2 [Some (eye 2); Some (eye 2)])
       ∧ Tucker.shape A = Ok [2; 2].
Proof.
  destruct (full2tuck_to_regular_round_trip unit identity_decomposition dense_2x2 tt
              dense_2x2 [eye 2; eye 2] eq_refl eq_refl) as (A & HA & Hreg & Hsh).
  exists A. split; [exact HA|]. split; [exact Hreg|]. rewrite Hsh. reflexivity.
Defined.

(** ** Multiplication by a number: [__rmul__], [__neg__], [__sub__] *)

Lemma get_scale (c : Z) (t : torch.Tensor) (idx : list nat) :
  torch.get (torch.scale c t) idx = (c * torch.get t idx)%Z.
Proof.
  unfold torch.get, torch.scale. cbn [torch.shape torch.data].
  rewrite <- (map_nth (Z.mul c)), Z.mul_0_r. reflexivity.
Qed.

Lemma scale_tabulate (c : Z) (sh : list nat) (f : list nat -> Z) :
  torch.scale c (torch.tabulate sh f) = torch.tabulate sh (fun idx => (c * f idx)%Z).
Proof.
  unfold torch.scale, torch.tabulate. cbn [torch.shape torch.data].
  rewrite map_map. reflexivity.
Qed.

Lemma scale_scale (a b : Z) (t : torch.Tensor) :
  torch.scale a (torch.scale b t) = torch.scale (a * b) t.
Proof.
  unfold torch.scale. cbn [torch.shape torch.data]. rewrite map_map.
  f_equal. apply map_ext. intros z. lia.
Qed.

Lemma scale_1 (t : torch.Tensor) : torch.scale 1 t = t.
Proof.
  destruct t as [sh d]. unfold torch.scale. cbn [torch.shape torch.data]. f_equal.
  rewrite <- (map_id d) at 2. apply map_ext. intros z. lia.
Qed.

Lemma sum_mul (c : Z) (l : list Z) :
  fold_right Z.add 0%Z (map (Z.mul c) l) = (c * fold_right Z.add 0%Z l)%Z.
Proof. induction l as [|z l IH]; cbn; [lia|]. rewrite IH. lia. Qed.

Lemma sum_over_ext (summed asg : torch.env) (b1 b2 : torch.env -> Z) :
  (∀ e, b1 e = b2 e) → torch.sum_over summed asg b1 = torch.sum_over summed asg b2.
Proof.
  intros Hb. revert asg. induction summed as [|[c n] summed IH]; intros asg.
  - apply Hb.
  - cbn [torch.sum_over]. f_equal. apply map_ext. intros i. apply IH.
Qed.

Lemma sum_over_scale (c : Z) (summed asg : torch.env) (body : torch.env -> Z) :
  torch.sum_over summed asg (fun e => (c * body e)%Z)
  = (c * torch.sum_over summed asg body)%Z.
Proof.
  revert asg. induction summed as [|[c0 n] summed IH]; intros asg.
  - reflexivity.
  - cbn [torch.sum_over]. rewrite <- sum_mul, map_map. f_equal.
    apply map_ext. intros i. apply IH.
Qed.

(** [einsum] is homogeneous in its first operand. *)
Lemma einsum_scale (equation : string) (c : Z) (t : torch.Tensor)
  (ops : list torch.Tensor) :
  torch.einsum equation (torch.scale c t :: ops)
  = (r ← torch.einsum equation (t :: ops); Ok (torch.scale c r)).
Proof.
  unfold torch.einsum. destruct (torch.split_arrow equation) as [[lhs rhs]|]; [|reflexivity].
  destruct (map list_ascii_of_string (torch.split_on "," lhs)) as [|ls terms]; [reflexivity|].
  cbn [torch.bind_terms torch.scale torch.shape].
  destruct (torch.bind_term ls (torch.shape t) []) as [e|]; [|reflexivity].
  cbn [mbind result_bind].
  destruct (torch.bind_terms terms ops e) as [sizes|]; [|reflexivity].
  cbn [mbind result_bind].
  destruct (_ && _); [|reflexivity].
  cbn [mbind result_bind]. rewrite scale_tabulate. f_equal.
  unfold torch.tabulate. f_equal. apply map_ext. intros idx.
  rewrite <- sum_over_scale. apply sum_over_ext. intros asg.
  cbn [zip_with fold_right]. unfold torch.operand_at at 1.
  change (torch.shape (torch.mkTensor (torch.shape t) (map (Z.mul c) (torch.data t))))
    with (torch.shape t).
  change (torch.mkTensor (torch.shape t) (map (Z.mul c) (torch.data t)))
    with (torch.scale c t).
  rewrite get_scale. unfold torch.operand_at at 2.
  change (torch.shape (torch.scale c t)) with (torch.shape t). lia.
Qed.

Lemma backend_einsum_scale (equation : string) (c : Z) (t : torch.Tensor)
  (ops : list (option torch.Tensor)) :
  PyTorchBackend.einsum equation (Some (torch.scale c t) :: ops)
  = (r ← PyTorchBackend.einsum equation (Some t :: ops); Ok (torch.scale c r)).
Proof.
  unfold PyTorchBackend.einsum. cbn [mapM id mbind option_bind].
  destruct (mapM id ops) as [ops'|]; cbn; [apply einsum_scale|reflexivity].
Qed.

(** The object [a * x] is built from: the fields of [x] around the
    scaled core. *)
Definition scaled (a : Z) (x : Tucker.t) : Tucker.t :=
  Tucker.mk (torch.scale a (Tucker.core x)) (Tucker.common_factors x)
    (Tucker.symmetric_modes x) (Tucker.symmetric_factor x).

Lemma full_loop_scaled (a : Z) (x : Tucker.t) (modes : list nat) (p : Tucker.full_plan) :
  Tucker.full_loop (scaled a x) modes p = Tucker.full_loop x modes p.
Proof.
  revert p. induction modes as [|i modes IH]; intros p; [reflexivity|].
  cbn [Tucker.full_loop].
  change (Tucker.ndim (scaled a x)) with (Tucker.ndim x).
  change (Tucker.symmetric_modes (scaled a x)) with (Tucker.symmetric_modes x).
  change (Tucker.symmetric_factor (scaled a x)) with (Tucker.symmetric_factor x).
  change (Tucker.common_factor (scaled a x)) with (Tucker.common_factor x).
  destruct (str_index ascii_letters (Tucker.ndim x + i)) as [c1|]; [|reflexivity].
  cbn [mbind result_bind].
  destruct (str_index ascii_letters i) as [c2|]; [|reflexivity].
  cbn [mbind result_bind].
  destruct (py_in _ _); [apply IH|].
  destruct (Tucker.common_factor x _); [|reflexivity].
  cbn [mbind result_bind]. apply IH.
Qed.

Lemma full_scaled (a : Z) (x : Tucker.t) :
  Tucker.full (scaled a x) = (t ← Tucker.full x; Ok (torch.scale a t)).
Proof.
  unfold Tucker.full. rewrite full_loop_scaled.
  change (Tucker.ndim (scaled a x)) with (Tucker.ndim x).
  destruct (Tucker.full_loop x _ _) as [p|]; [|reflexivity].
  cbn [mbind result_bind app Tucker.core scaled].
  apply backend_einsum_scale.
Qed.

(** With a shared factor in place, [a * self] allocates twice: the deep
    copy, then the object it returns. *)
Lemma rmul_ok (σ : gmap Tucker.loc Tucker.t) (self : Tucker.loc) (x : Tucker.t)
  (f : torch.Tensor) (a : Z) :
  σ !! self = Some x → Tucker.symmetric_factor x = Some f →
  let copy := fresh (dom σ) in
  let new := fresh (dom (<[copy := x]> σ)) in
  Tucker.rmul self a σ = (Ok new, <[new := scaled a x]> (<[copy := x]> σ)).
Proof.
  intros Hself Hf copy new. unfold Tucker.rmul.
  rewrite run_bind, (deepcopy_ok σ self x f Hself Hf).
  rewrite run_bind, (run_load _ (fresh (dom σ)) x) by apply lookup_insert_eq.
  reflexivity.
Qed.

Lemma rmul_store (σ : gmap Tucker.loc Tucker.t) (x y : Tucker.t) :
  let copy := fresh (dom σ) in
  let new := fresh (dom (<[copy := x]> σ)) in
  σ !! new = None ∧ σ ⊆ <[new := y]> (<[copy := x]> σ).
Proof.
  intros copy new.
  assert (Hnew : <[copy := x]> σ !! new = None) by apply fresh_address.
  assert (Hcopy : σ !! copy = None) by apply fresh_address.
  assert (Hσ : σ !! new = None).
  { destruct (decide (new = copy)) as [->|Hne]; [exact Hcopy|].
    rewrite lookup_insert_ne in Hnew by congruence. exact Hnew. }
  split; [exact Hσ|].
  transitivity (<[copy := x]> σ); apply insert_subseteq; assumption.
Qed.

(** X6.  [a * self] on a tensor with a shared factor returns a new
    object at an address that was free and leaves every object of the
    store as it was.  The new object has the factors and symmetric
    modes of [self] around the core multiplied by [a], and its dense
    form is the dense form of [self] multiplied entry by entry by [a]
    ([full] fails on it with the same exception whenever it fails on
    [self]). *)
Theorem rmul_scales_full (σ : gmap Tucker.loc Tucker.t) (self : Tucker.loc)
  (x : Tucker.t) (f : torch.Tensor) (a : Z) :
  σ !! self = Some x → Tucker.symmetric_factor x = Some f →
  ∃ new σ',
    Tucker.rmul self a σ = (Ok new, σ')
    ∧ σ !! new = None ∧ σ ⊆ σ'
    ∧ σ' !! new = Some (Tucker.mk (torch.scale a (Tucker.core x)) (Tucker.common_factors x)
                          (Tucker.symmetric_modes x) (Tucker.symmetric_factor x))
    ∧ Tucker.full (Tucker.mk (torch.scale a (Tucker.core x)) (Tucker.common_factors x)
                     (Tucker.symmetric_modes x) (Tucker.symmetric_factor x))
      = (t ← Tucker.full x; Ok (torch.scale a t)).
Proof.
  intros Hself Hf.
  destruct (rmul_store σ x (scaled a x)) as [Hfree Hsub].
  eexists _, _. split; [apply (rmul_ok σ self x f a Hself Hf)|].
  split; [exact Hfree|]. split; [exact Hsub|].
  split; [apply lookup_insert_eq|]. apply full_scaled.
Qed.

Lemma rmul_scales_full_witness :
  ∃ new σ' y,
    Tucker.rmul 1%positive 5 store1 = (Ok new, σ')
    ∧ σ' !! new = Some y
    ∧ Tucker.full y = Ok (torch.mkTensor [3; 2] [15; 10; 35; 20; 50; 30]%Z).
Proof.
  destruct (rmul_scales_full store1 1%positive stored
              (torch.mkTensor [2; 2] [1; 1; 0; 1]%Z) 5 eq_refl eq_refl)
    as (new & σ' & Hrun & _ & _ & Hy & Hfull).
  eexists new, σ', _. split; [exact Hrun|]. split; [exact Hy|].
  rewrite Hfull. reflexivity.
Defined.

(** X7.  A tensor without a shared factor (what [full2tuck] builds)
    cannot be multiplied by a number, negated or subtracted: each of
    the three stops in the deep copy with an [AttributeError] and
    leaves the store untouched, whatever the tensor subtracted from. *)
Theorem arithmetic_needs_shared_factor (σ : gmap Tucker.loc Tucker.t)
  (self : Tucker.loc) (x : Tucker.t) :
  σ !! self = Some x → Tucker.symmetric_factor x = None →
  (∀ a, Tucker.rmul self a σ = (Raise AttributeError, σ))
  ∧ Tucker.neg self σ = (Raise AttributeError, σ)
  ∧ ∀ other, Tucker.sub other self σ = (Raise AttributeError, σ).
Proof.
  intros Hself Hf.
  assert (Hr : ∀ a, Tucker.rmul self a σ = (Raise AttributeError, σ)).
  { intros a. unfold Tucker.rmul.
    rewrite run_bind, (deepcopy_none σ self x Hself Hf). reflexivity. }
  split; [exact Hr|]. split; [apply Hr|].
  intros other. unfold Tucker.sub, Tucker.neg. rewrite run_bind, Hr. reflexivity.
Qed.

Lemma arithmetic_needs_shared_factor_witness :
  ∃ A, Tucker.full2tuck identity_decomposition dense_2x2 tt = Ok A
       ∧ Tucker.neg 1%positive {[ 1%positive := A ]}
         = (Raise AttributeError, {[ 1%positive := A ]}).
Proof.
  exists (Tucker.mk dense_2x2 [eye 2; eye 2] [] None). split; [reflexivity|].
  apply (arithmetic_needs_shared_factor _ 1%positive
           (Tucker.mk dense_2x2 [eye 2; eye 2] [] None) (lookup_singleton_eq _ _) eq_refl).
Defined.

(** X8.  Multiplying twice: [b * (a * self)] builds the object that
    [(b * a) * self] builds, the fields of [self] around the core
    multiplied by [b * a]; in particular [-(-self)] is a new object
    equal to [self].  (Entries are exact integers here.) *)
Theorem rmul_twice (σ : gmap Tucker.loc Tucker.t) (self : Tucker.loc)
  (x : Tucker.t) (f : torch.Tensor) (a b : Z) :
  σ !! self = Some x → Tucker.symmetric_factor x = Some f →
  ∃ first σ1 second σ2,
    Tucker.rmul self a σ = (Ok first, σ1)
    ∧ Tucker.rmul first b σ1 = (Ok second, σ2)
    ∧ σ ⊆ σ2
    ∧ σ2 !! second
      = Some (Tucker.mk (torch.scale (b * a) (Tucker.core x)) (Tucker.common_factors x)
                (Tucker.symmetric_modes x) (Tucker.symmetric_factor x))
    ∧ (a = (-1)%Z → b = (-1)%Z → σ2 !! second = Some x).
Proof.
  intros Hself Hf.
  destruct (rmul_store σ x (scaled a x)) as [_ Hsub1].
  set (σ1 := <[fresh (dom (<[fresh (dom σ) := x]> σ)) := scaled a x]>
               (<[fresh (dom σ) := x]> σ)) in *.
  destruct (rmul_store σ1 (scaled a x) (scaled b (scaled a x))) as [_ Hsub2].
  assert (Hy : scaled b (scaled a x) = scaled (b * a) x).
  { unfold scaled. cbn [Tucker.core Tucker.common_factors Tucker.symmetric_modes
                          Tucker.symmetric_factor].
    rewrite scale_scale. reflexivity. }
  eexists _, σ1, _, _.
  split; [apply (rmul_ok σ self x f a Hself Hf)|].
  split; [apply (rmul_ok σ1 _ (scaled a x) f b); [apply lookup_insert_eq | exact Hf]|].
  split; [transitivity σ1; assumption|].
  split; [rewrite lookup_insert_eq, Hy; reflexivity|].
  intros -> ->. rewrite lookup_insert_eq, Hy. f_equal.
  unfold scaled. change (-1 * -1)%Z with 1%Z. rewrite scale_1. destruct x; reflexivity.
Qed.

Lemma rmul_twice_witness :
  ∃ first σ1 second σ2,
    Tucker.neg 1%positive store1 = (Ok first, σ1)
    ∧ Tucker.neg first σ1 = (Ok second, σ2)
    ∧ σ2 !! second = Some stored.
Proof.
  destruct (rmul_twice store1 1%positive stored
              (torch.mkTensor [2; 2] [1; 1; 0; 1]%Z) (-1) (-1) eq_refl eq_refl)
    as (first & σ1 & second & σ2 & H1 & H2 & _ & _ & Hx).
  exists first, σ1, second, σ2. split; [exact H1|]. split; [exact H2|].
  apply Hx; reflexivity.
Defined.

(** X9.  [self - other] negates first and adds afterwards.  For
    operands with the same symmetric modes, [other] having a shared
    factor, the call leaves two new objects in the store, the deep copy
    of [other] and its negation, changes no object that was there, and
    ends with the exception of [__add__]: the [TypeError] of its first
    call of [back.pad], unless the widths of that pad cannot be built
    ([self] of order 2 or more and of higher order than [other], an
    [IndexError]). *)
Theorem sub_raises_after_negation (σ : gmap Tucker.loc Tucker.t)
  (self other : Tucker.loc) (x y : Tucker.t) (f : torch.Tensor) :
  σ !! self = Some x → σ !! other = Some y → Tucker.symmetric_factor y = Some f →
  Tucker.symmetric_modes x = Tucker.symmetric_modes y →
  ∃ copy negated σ',
    Tucker.sub self other σ
    = (Raise (if (2 <=? Tucker.ndim x) && (Tucker.ndim y <? Tucker.ndim x)
              then IndexError else TypeError), σ')
    ∧ σ ⊆ σ'
    ∧ σ !! copy = None ∧ σ !! negated = None ∧ copy ≠ negated
    ∧ σ' !! copy = Some y
    ∧ σ' !! negated
      = Some (Tucker.mk (torch.scale (-1) (Tucker.core y)) (Tucker.common_factors y)
                (Tucker.symmetric_modes y) (Tucker.symmetric_factor y)).
Proof.
  intros Hself Hother Hf Hmodes.
  destruct (rmul_store σ y (scaled (-1) y)) as [Hfree Hsub].
  set (copy := fresh (dom σ)) in *.
  set (negated := fresh (dom (<[copy := y]> σ))) in *.
  assert (Hne : copy ≠ negated).
  { intros Heq. pose proof (fresh_address (<[copy := y]> σ)) as Hnew.
    fold negated in Hnew. rewrite <- Heq, lookup_insert_eq in Hnew. discriminate. }
  exists copy, negated, (<[negated := scaled (-1) y]> (<[copy := y]> σ)).
  split.
  { unfold Tucker.sub, Tucker.neg.
    rewrite run_bind, (rmul_ok σ other y f (-1) Hother Hf).
    fold copy. fold negated.
    rewrite run_bind, (run_load _ self x)
      by (eapply lookup_weaken; [exact Hself | exact Hsub]).
    rewrite run_bind, (run_load _ _ (scaled (-1) y)) by apply lookup_insert_eq.
    unfold Tucker.lift.
    rewrite (add_on_equal_modes x (scaled (-1) y)) by exact Hmodes.
    reflexivity. }
  split; [exact Hsub|].
  split; [apply fresh_address|]. split; [exact Hfree|]. split; [exact Hne|].
  split; [rewrite lookup_insert_ne by congruence; apply lookup_insert_eq|].
  apply lookup_insert_eq.
Qed.

Lemma sub_raises_after_negation_witness :
  ∃ σ', Tucker.sub 1%positive 1%positive store1 = (Raise TypeError, σ')
        ∧ store1 ⊆ σ' ∧ size σ' = 3.
Proof.
  destruct (sub_raises_after_negation store1 1%positive 1%positive stored stored
              (torch.mkTensor [2; 2] [1; 1; 0; 1]%Z) eq_refl eq_refl eq_refl eq_refl)
    as (copy & negated & σ' & Hrun & Hsub & _).
  exists σ'. split; [exact Hrun|]. split; [exact Hsub|].
  revert Hrun. vm_compute. intros [= <-]. reflexivity.
Defined.

(** ** [flat_inner] and multiplication by a number *)

Lemma mul_scale_l (c : Z) (a b : torch.Tensor) :
  torch.mul (torch.scale c a) b = (r ← torch.mul a b; Ok (torch.scale c r)).
Proof.
  unfold torch.mul. change (torch.shape (torch.scale c a)) with (torch.shape a).
  destruct (torch.broadcast_shapes _ _) as [sh|]; [|reflexivity].
  cbn [mbind result_bind]. rewrite scale_tabulate. f_equal.
  unfold torch.tabulate. f_equal. apply map_ext. intros idx.
  rewrite get_scale. lia.
Qed.

Lemma mul_scale_r (c : Z) (a b : torch.Tensor) :
  torch.mul a (torch.scale c b) = (r ← torch.mul a b; Ok (torch.scale c r)).
Proof.
  unfold torch.mul. change (torch.shape (torch.scale c b)) with (torch.shape b).
  destruct (torch.broadcast_shapes _ _) as [sh|]; [|reflexivity].
  cbn [mbind result_bind]. rewrite scale_tabulate. f_equal.
  unfold torch.tabulate. f_equal. apply map_ext. intros idx.
  rewrite get_scale. lia.
Qed.

Lemma sum_scale (c : Z) (t : torch.Tensor) :
  torch.sum (torch.scale c t) = torch.scale c (torch.sum t).
Proof.
  unfold torch.sum, torch.scale. cbn [torch.shape torch.data map].
  rewrite sum_mul. reflexivity.
Qed.

Lemma flat_inner_loop_scaled_l (a : Z) (x z : Tucker.t) (sf : torch.Tensor)
  (letters : string) (modes : list nat) (p : Tucker.inner_plan) :
  Tucker.flat_inner_loop (scaled a x) z sf letters modes p
  = Tucker.flat_inner_loop x z sf letters modes p.
Proof.
  revert p. induction modes as [|i modes IH]; intros p; [reflexivity|].
  cbn [Tucker.flat_inner_loop].
  change (Tucker.ndim (scaled a x)) with (Tucker.ndim x).
  change (Tucker.symmetric_modes (scaled a x)) with (Tucker.symmetric_modes x).
  change (Tucker.common_factor (scaled a x)) with (Tucker.common_factor x).
  destruct (str_index ascii_letters (Tucker.ndim x + i)) as [c1|]; [|reflexivity].
  cbn [mbind result_bind].
  destruct (str_index letters i) as [c2|]; [|reflexivity].
  cbn [mbind result_bind].
  destruct (py_in _ _); [apply IH|].
  destruct (Tucker.common_factor x _); [|reflexivity].
  cbn [mbind result_bind].
  destruct (Tucker.common_factor z _); [|reflexivity].
  cbn [mbind result_bind].
  destruct (str_index ascii_letters (Tucker.ndim x + 2 * i)); [|reflexivity].
  cbn [mbind result_bind]. apply IH.
Qed.

Lemma flat_inner_loop_scaled_r (a : Z) (x z : Tucker.t) (sf : torch.Tensor)
  (letters : string) (modes : list nat) (p : Tucker.inner_plan) :
  Tucker.flat_inner_loop x (scaled a z) sf letters modes p
  = Tucker.flat_inner_loop x z sf letters modes p.
Proof.
  revert p. induction modes as [|i modes IH]; intros p; [reflexivity|].
  cbn [Tucker.flat_inner_loop].
  change (Tucker.common_factor (scaled a z)) with (Tucker.common_factor z).
  destruct (str_index ascii_letters (Tucker.ndim x + i)) as [c1|]; [|reflexivity].
  cbn [mbind result_bind].
  destruct (str_index letters i) as [c2|]; [|reflexivity].
  cbn [mbind result_bind].
  destruct (py_in _ _); [apply IH|].
  destruct (Tucker.common_factor x _); [|reflexivity].
  cbn [mbind result_bind].
  destruct (Tucker.common_factor z _); [|reflexivity].
  cbn [mbind result_bind].
  destruct (str_index ascii_letters (Tucker.ndim x + 2 * i)); [|reflexivity].
  cbn [mbind result_bind]. apply IH.
Qed.

(** What [flat_inner] returns after one operand was multiplied by [a]. *)
Definition scaled_inner (a : Z) (r : result Tucker.value) : result Tucker.value :=
  match r with
  | Ok (Tucker.Dense t) => Ok (Tucker.Dense (torch.scale a t))
  | _ => r
  end.

Lemma flat_inner_scaled (a : Z) (x z : Tucker.t) :
  Tucker.symmetric_modes x = Tucker.symmetric_modes z →
  Tucker.flat_inner (scaled a x) z = scaled_inner a (Tucker.flat_inner x z)
  ∧ Tucker.flat_inner x (scaled a z) = scaled_inner a (Tucker.flat_inner x z).
Proof.
  intros Hmodes. unfold Tucker.flat_inner.
  change (Tucker.symmetric_modes (scaled a x)) with (Tucker.symmetric_modes x).
  change (Tucker.symmetric_modes (scaled a z)) with (Tucker.symmetric_modes z).
  change (Tucker.symmetric_factor (scaled a x)) with (Tucker.symmetric_factor x).
  change (Tucker.symmetric_factor (scaled a z)) with (Tucker.symmetric_factor z).
  change (Tucker.ndim (scaled a x)) with (Tucker.ndim x).
  change (Tucker.core (scaled a x)) with (torch.scale a (Tucker.core x)).
  change (Tucker.core (scaled a z)) with (torch.scale a (Tucker.core z)).
  destruct (decide _) as [Hne|_]; [contradiction|].
  destruct (match Tucker.symmetric_factor z with
            | Some g => _ | None => _ end) as [sf|]; [|split; reflexivity].
  cbn [mbind result_bind].
  rewrite flat_inner_loop_scaled_l, flat_inner_loop_scaled_r.
  destruct (Tucker.flat_inner_loop x z sf _ _ _) as [p|]; [|split; reflexivity].
  cbn [mbind result_bind app]. rewrite backend_einsum_scale.
  destruct (PyTorchBackend.einsum _ _) as [ic|]; [|split; reflexivity].
  cbn [mbind result_bind]. rewrite mul_scale_l, mul_scale_r.
  destruct (torch.mul ic (Tucker.core z)) as [prod|]; [|split; reflexivity].
  cbn [mbind result_bind scaled_inner]. rewrite sum_scale. split; reflexivity.
Qed.

(** X10.  On operands with the same symmetric modes [flat_inner] is
    homogeneous in either argument: it returns a dense scalar or
    raises, and with one operand replaced by the object that [a * ...]
    builds from it, it returns that scalar multiplied by [a], or raises
    the same exception. *)
Theorem flat_inner_homogeneous (a : Z) (x z : Tucker.t) :
  Tucker.symmetric_modes x = Tucker.symmetric_modes z →
  let ax := Tucker.mk (torch.scale a (Tucker.core x)) (Tucker.common_factors x)
              (Tucker.symmetric_modes x) (Tucker.symmetric_factor x) in
  let az := Tucker.mk (torch.scale a (Tucker.core z)) (Tucker.common_factors z)
              (Tucker.symmetric_modes z) (Tucker.symmetric_factor z) in
  match Tucker.flat_inner x z with
  | Ok (Tucker.Dense t) =>
      torch.shape t = []
      ∧ Tucker.flat_inner ax z = Ok (Tucker.Dense (torch.scale a t))
      ∧ Tucker.flat_inner x az = Ok (Tucker.Dense (torch.scale a t))
  | Ok _ => False
  | Raise e => Tucker.flat_inner ax z = Raise e ∧ Tucker.flat_inner x az = Raise e
  end.
Proof.
  intros Hmodes ax az.
  destruct (flat_inner_scaled a x z Hmodes) as [Hl Hr].
  fold (scaled a x) in ax. fold (scaled a z) in az. subst ax az.
  rewrite Hl, Hr. clear Hl Hr.
  assert (Hdense : ∀ v, Tucker.flat_inner x z = Ok v →
                        ∃ t, v = Tucker.Dense t ∧ torch.shape t = []).
  { intros v. unfold Tucker.flat_inner.
    destruct (decide _) as [Hne|_]; [contradiction|].
    intros H. apply bind_ok in H as (sf & _ & H).
    apply bind_ok in H as (p & _ & H).
    apply bind_ok in H as (ic & _ & H).
    apply bind_ok in H as (prod & _ & [= <-]).
    eexists. split; reflexivity. }
  destruct (Tucker.flat_inner x z) as [v|e].
  - destruct (Hdense v eq_refl) as (t & -> & Hsh).
    split; [exact Hsh|]. split; reflexivity.
  - split; reflexivity.
Qed.

Lemma flat_inner_homogeneous_witness :
  Tucker.flat_inner sum_left sum_right
  = Ok (Tucker.Dense (torch.mkTensor [] [6%Z]))
  ∧ Tucker.flat_inner
      (Tucker.mk (torch.scale 3 (Tucker.core sum_left)) (Tucker.common_factors sum_left)
         (Tucker.symmetric_modes sum_left) (Tucker.symmetric_factor sum_left)) sum_right
    = Ok (Tucker.Dense (torch.mkTensor [] [18%Z])).
Proof.
  split; [reflexivity|].
  pose proof (flat_inner_homogeneous 3 sum_left sum_right eq_refl) as H.
  cbv zeta in H.
  change (Tucker.flat_inner sum_left sum_right)
    with (Ok (Tucker.Dense (torch.mkTensor [] [6%Z]))) in H at 1.
  apply H.
Defined.

(** ** [PyTorchBackend.all] *)

Lemma count_nonzero (l : list Z) :
  fold_right Z.add 0%Z (map (fun z => if (z =? 0)%Z then 0%Z else 1%Z) l)
  = Z.of_nat (length (filter (fun z => z ≠ 0%Z) l)).
Proof.
  induction l as [|z l IH]; [reflexivity|].
  cbn [map fold_right]. rewrite IH, filter_cons.
  destruct (Z.eqb_spec z 0) as [->|Hz].
  - rewrite decide_False by (intros H; apply H; reflexivity). lia.
  - rewrite decide_True by exact Hz. cbn [length]. lia.
Qed.

(** X11.  [all] counts: it returns a tensor of order 0 holding the
    number of entries that are not zero.  It is therefore true as soon
    as one entry is not zero, and false only for a tensor whose entries
    are all zero (or that has none): it answers "any", not "all". *)
Theorem all_counts_nonzero_entries (t : torch.Tensor) :
  torch.shape (PyTorchBackend.all t) = []
  ∧ torch.get (PyTorchBackend.all t) []
    = Z.of_nat (length (filter (fun z => z ≠ 0%Z) (torch.data t)))
  ∧ (torch.truthy (PyTorchBackend.all t) = true ↔ Exists (fun z => z ≠ 0%Z) (torch.data t))
  ∧ torch.truthy (PyTorchBackend.all (torch.mkTensor [2] [1; 0]%Z)) = true.
Proof.
  assert (Hget : torch.get (PyTorchBackend.all t) []
                 = Z.of_nat (length (filter (fun z => z ≠ 0%Z) (torch.data t)))).
  { unfold PyTorchBackend.all, torch.sum, torch.ne0, torch.get.
    cbn [torch.shape torch.data torch.ravel nth]. apply count_nonzero. }
  split; [reflexivity|]. split; [exact Hget|]. split; [|reflexivity].
  unfold torch.truthy. rewrite Hget, negb_true_iff, Z.eqb_neq.
  split.
  - intros Hn. apply Exists_exists.
    destruct (filter (fun z => z ≠ 0%Z) (torch.data t)) as [|z l] eqn:E; [cbn in Hn; lia|].
    assert (Hz : z ∈ filter (fun z => z ≠ 0%Z) (torch.data t)) by (rewrite E; left).
    apply list_elem_of_filter in Hz as [Hz Hin].
    exists z. split; [exact Hin | exact Hz].
  - intros Hex. apply Exists_exists in Hex as (z & Hin & Hz).
    assert (Hz' : z ∈ filter (fun z => z ≠ 0%Z) (torch.data t)).
    { apply list_elem_of_filter. split; [exact Hz | exact Hin]. }
    destruct (filter (fun z => z ≠ 0%Z) (torch.data t)); [inversion Hz'|cbn; lia].
Qed.

(** ** The alphabet of [full] and [flat_inner] *)

Lemma str_index_raises (s : string) (i : nat) (e : exn) :
  str_index s i = Raise e → e = IndexError.
Proof. unfold str_index. destruct (String.get i s); congruence. Qed.

Lemma str_index_lt (s : string) (i : nat) (c : ascii) :
  str_index s i = Ok c → i < String.length s.
Proof.
  unfold str_index. destruct (String.get i s) eqn:E; [|discriminate].
  intros _. eapply str_get_lt, E.
Qed.

Lemma full_loop_raises (x : Tucker.t) (modes : list nat) (p : Tucker.full_plan) (e : exn) :
  Tucker.full_loop x modes p = Raise e → e = IndexError.
Proof.
  revert p. induction modes as [|i modes IH]; intros p; [discriminate|].
  cbn [Tucker.full_loop].
  destruct (str_index ascii_letters (Tucker.ndim x + i)) as [c1|e1] eqn:E1;
    [|intros [= <-]; eapply str_index_raises, E1].
  cbn [mbind result_bind].
  destruct (str_index ascii_letters i) as [c2|e2] eqn:E2;
    [|intros [= <-]; eapply str_index_raises, E2].
  cbn [mbind result_bind].
  destruct (py_in _ _); [apply IH|].
  destruct (Tucker.common_factor x _) as [f|e3] eqn:E3;
    [|intros [= <-]; eapply py_index_raises, E3].
  cbn [mbind result_bind]. apply IH.
Qed.

Lemma full_loop_letters (x : Tucker.t) (modes : list nat) (p p' : Tucker.full_plan) :
  Tucker.full_loop x modes p = Ok p' →
  ∀ i, In i modes → Tucker.ndim x + i < 52.
Proof.
  revert p. induction modes as [|j modes IH]; intros p H i Hi; [destruct Hi|].
  cbn [Tucker.full_loop] in H.
  apply bind_ok in H as (c1 & Hc1 & H).
  apply bind_ok in H as (c2 & Hc2 & H).
  destruct Hi as [<-|Hi]; [apply str_index_lt in Hc1; exact Hc1|].
  destruct (py_in _ _); [eapply IH; eassumption|].
  apply bind_ok in H as (f & _ & H). eapply IH; eassumption.
Qed.

(** X12.  [full] has letters for 26 modes: on a tensor of order 27 or
    more it raises [IndexError], whatever the core and the factors
    are. *)
Theorem full_raises_from_27_modes (x : Tucker.t) :
  27 ≤ Tucker.ndim x → Tucker.full x = Raise IndexError.
Proof.
  intros Hd. unfold Tucker.full.
  destruct (Tucker.full_loop x (range (Tucker.ndim x)) _) as [p|e] eqn:E.
  - pose proof (full_loop_letters _ _ _ _ E (Tucker.ndim x - 1)) as H.
    assert (Hin : In (Tucker.ndim x - 1) (range (Tucker.ndim x))).
    { unfold range. apply in_seq. lia. }
    specialize (H Hin). lia.
  - apply full_loop_raises in E as ->. reflexivity.
Qed.

Lemma full_raises_from_27_modes_witness :
  Tucker.full (Tucker.mk (torch.mkTensor (repeat 1 27) [1%Z]) [] [] None)
  = Raise IndexError.
Proof.
  apply full_raises_from_27_modes. unfold Tucker.ndim. cbn. lia.
Defined.

(** ** [SFTuckerMatrix.__matmul__]: the guard and the guarded branch *)

Lemma result_cases {A} (r : result A) : (∃ a, r = Ok a) ∨ (∃ e, r = Raise e).
Proof. destruct r; eauto. Qed.

(** X13.  [__matmul__] guards its only branch with
    [type(other) == back.type()].  [type] is a property of the adapter,
    so [back.type] is already the class of tensors and [back.type()] is
    a tensor built by calling it: the guard compares a class with a
    tensor and holds for no operand.  The call returns [None] for a
    dense operand too, whatever the fields [n] and [m] (they default to
    [None]) and whatever the order. *)
Theorem matmul_dense_operand_is_none (self : SFTuckerMatrix.t)
  (other : SFTuckerMatrix.operand) (x : torch.Tensor) :
  SFTuckerMatrix.guard other = Ok false
  ∧ SFTuckerMatrix.matmul self other = Ok SFTuckerMatrix.PyNone
  ∧ SFTuckerMatrix.matmul self (SFTuckerMatrix.OfDense x) = Ok SFTuckerMatrix.PyNone.
Proof. repeat split; destruct other; reflexivity. Qed.

Lemma substring_past_end (s : string) (a : nat) :
  String.length s ≤ a → String.substring a 0 s = EmptyString.
Proof.
  revert a. induction s as [|c s IH]; intros a Ha.
  - destruct a; reflexivity.
  - destruct a as [|a]; cbn in *; [lia|]. apply IH. lia.
Qed.

Lemma factor_subscripts_exhausted (d i : nat) :
  52 ≤ d + 2 * i → SFTuckerMatrix.factor_subscripts d i = EmptyString.
Proof.
  intros H. unfold SFTuckerMatrix.factor_subscripts, str_slice.
  change (String.length ascii_letters) with 52.
  replace (Nat.min (d + 2 * (i + 1)) 52 - (d + 2 * i)) with 0 by lia.
  apply substring_past_end. change (String.length ascii_letters) with 52. lia.
Qed.

Lemma matmul_loop_letters (self : SFTuckerMatrix.t) (core_letters : string)
  (modes : list nat) (p p' : SFTuckerMatrix.plan) :
  SFTuckerMatrix.matmul_loop self core_letters modes p = Ok p' →
  ∀ i, In i modes → SFTuckerMatrix.ndim self + 2 * i < 52.
Proof.
  revert p. induction modes as [|j modes IH]; intros p H i Hi; [destruct Hi|].
  cbn [SFTuckerMatrix.matmul_loop] in H.
  apply bind_ok in H as (reshaped & _ & H).
  apply bind_ok in H as (c & _ & H).
  apply bind_ok in H as (o & _ & H).
  apply bind_ok in H as (r & Hr & H).
  destruct Hi as [<-|Hi]; [|eapply IH; eassumption].
  destruct (Nat.lt_ge_cases (SFTuckerMatrix.ndim self + 2 * j) 52) as [Hlt|Hge];
    [exact Hlt|].
  rewrite factor_subscripts_exhausted in Hr by exact Hge. discriminate Hr.
Qed.

(** X14.  The branch of [__matmul__] for dense operands takes two
    letters per mode after the letters of the core: for a matrix of
    order 18 or more the alphabet has run out at the last mode, and the
    body of the branch raises before it has a contraction string,
    whatever the operand. *)
Theorem dense_branch_raises_from_order_18 (self : SFTuckerMatrix.t) (other : torch.Tensor) :
  18 ≤ SFTuckerMatrix.ndim self →
  (∃ e, SFTuckerMatrix.matmul_equation self other = Raise e)
  ∧ ∃ e, SFTuckerMatrix.dense_branch self other = Raise e.
Proof.
  intros Hd.
  assert (Hloop : ∀ p, SFTuckerMatrix.matmul_loop self
                         (str_slice ascii_letters 0 (SFTuckerMatrix.ndim self))
                         (range (SFTuckerMatrix.ndim self))
                         (SFTuckerMatrix.mk_plan [] [] [] []) ≠ Ok p).
  { intros p Hp.
    pose proof (matmul_loop_letters _ _ _ _ _ Hp (SFTuckerMatrix.ndim self - 1)) as Hlt.
    assert (Hin : In (SFTuckerMatrix.ndim self - 1) (range (SFTuckerMatrix.ndim self))).
    { unfold range. apply in_seq. lia. }
    specialize (Hlt Hin). lia. }
  split.
  - destruct (result_cases (SFTuckerMatrix.matmul_equation self other))
      as [[v H]|He]; [|exact He].
    exfalso. unfold SFTuckerMatrix.matmul_equation in H.
    apply bind_ok in H as (p & Hp & _). exact (Hloop p Hp).
  - destruct (result_cases (SFTuckerMatrix.dense_branch self other))
      as [[v H]|He]; [|exact He].
    exfalso. unfold SFTuckerMatrix.dense_branch in H.
    apply bind_ok in H as (p & Hp & _). exact (Hloop p Hp).
Qed.

Lemma dense_branch_raises_from_order_18_witness :
  ∃ e, SFTuckerMatrix.dense_branch
         (SFTuckerMatrix.mk
            (SFTucker.mk (torch.mkTensor (repeat 1 18) [1%Z]) [] 18 (mat11 1))
            (Some (repeat 1%Z 18)) (Some (repeat 1%Z 18)))
         (torch.mkTensor (repeat 1 18) [1%Z]) = Raise e.
Proof.
  apply dense_branch_raises_from_order_18. unfold SFTuckerMatrix.ndim, SFTucker.ndim. cbn. lia.
Defined.

(** ** [shape] on a well-formed tensor *)

(** X15.  On a well-formed tensor [shape] returns one size per mode:
    the number of rows of the shared factor for a symmetric mode, and
    otherwise the number of rows of the private factor whose position
    in [common_factors] is the number of regular modes before it. *)
Theorem shape_of_well_formed (x : Tucker.t) :
  well_formed x →
  ∃ sh, Tucker.shape x = Ok sh
        ∧ length sh = Tucker.ndim x
        ∧ ∀ mode, mode < Tucker.ndim x →
            ∃ f n r, mode_factor x mode = Some f
                     ∧ torch.shape f = [n; r]
                     ∧ sh !! mode = Some n.
Proof.
  intros Hwf. destruct (shape_ok x Hwf) as [sh Hsh].
  exists sh. split; [exact Hsh|]. split; [apply (shape_length x sh Hsh)|].
  intros mode Hlt.
  destruct (mode_factor_matrix x mode Hwf Hlt) as (f & n & r & Hf & Hshape).
  destruct (shape_lookup x sh mode Hsh Hlt) as (n' & Hn' & Hsize).
  exists f, n, r. split; [exact Hf|]. split; [exact Hshape|].
  rewrite Hn'. f_equal.
  unfold mode_factor in Hf.
  destruct (py_in (Z.of_nat mode) (Tucker.symmetric_modes x)) eqn:Hin.
  - rewrite (mode_size_symmetric x mode Hin), Hf in Hsize.
    cbn [Tucker.slot_shape0] in Hsize.
    rewrite (shape_at_0 f n [r] Hshape) in Hsize. congruence.
  - rewrite (mode_size_regular x mode Hin), common_factor_lookup, Hf in Hsize.
    cbn [mbind result_bind] in Hsize.
    rewrite (shape_at_0 f n [r] Hshape) in Hsize. congruence.
Qed.

Lemma shape_of_well_formed_witness :
  ∃ sh, Tucker.shape stored = Ok sh ∧ sh !! 0 = Some 3 ∧ sh !! 1 = Some 2.
Proof.
  destruct (shape_of_well_formed stored stored_well_formed) as (sh & Hsh & _ & Hmodes).
  exists sh. split; [exact Hsh|].
  split.
  - destruct (Hmodes 0 ltac:(cbn; lia)) as (f & n & r & Hf & Hshape & Hn).
    injection Hf as <-. injection Hshape as <- _. exact Hn.
  - destruct (Hmodes 1 ltac:(cbn; lia)) as (f & n & r & Hf & Hshape & Hn).
    injection Hf as <-. injection Hshape as <- _. exact Hn.
Defined.

(** ** The exception of [__add__] *)

(** X16.  [__add__] on operands with the same symmetric modes never
    returns, whatever the two orders are.  When the left operand has
    order 2 or more and a higher order than the right one, reading the
    rank of the right operand for the widths of the first pad is an
    [IndexError]; in every other case, a left operand of lower or equal
    order or of order 0 or 1, the widths are built and the first call of
    [back.pad] is a [TypeError], because of its keyword [mode]. *)
Theorem add_exception_on_equal_modes (x y : Tucker.t) :
  Tucker.symmetric_modes x = Tucker.symmetric_modes y →
  Tucker.add x y
  = Raise (if (2 <=? Tucker.ndim x) && (Tucker.ndim y <? Tucker.ndim x)
           then IndexError else TypeError).
Proof. apply add_on_equal_modes. Qed.

Lemma add_exception_on_equal_modes_witness :
  Tucker.add
    (Tucker.mk (torch.mkTensor [1; 1; 1] [1%Z]) [mat11 1; mat11 1] [1%Z] (Some (mat11 1)))
    sum_left
  = Raise IndexError
  ∧ Tucker.add sum_left
      (Tucker.mk (torch.mkTensor [1; 1; 1] [1%Z]) [mat11 1; mat11 1] [1%Z] (Some (mat11 1)))
    = Raise TypeError.
Proof.
  split.
  - apply (add_exception_on_equal_modes
             (Tucker.mk (torch.mkTensor [1; 1; 1] [1%Z]) [mat11 1; mat11 1] [1%Z]
                (Some (mat11 1))) sum_left eq_refl).
  - apply (add_exception_on_equal_modes sum_left
             (Tucker.mk (torch.mkTensor [1; 1; 1] [1%Z]) [mat11 1; mat11 1] [1%Z]
                (Some (mat11 1))) eq_refl).
Defined.

(** ** The dense form computed by [full] *)

(** *** Subscript environments of [einsum] *)

Lemma env_get_app (c : ascii) (e1 e2 : torch.env) :
  torch.env_get c (e1 ++ e2)
  = match torch.env_get c e1 with
    | Some v => Some v
    | None => torch.env_get c e2
    end.
Proof.
  unfold torch.env_get. induction e1 as [|[c1 v1] e1 IH]; [reflexivity|].
  cbn [app find fst]. destruct (Ascii.eqb c c1); [reflexivity | exact IH].
Qed.

Lemma env_get_fresh (c : ascii) (e : torch.env) :
  c ∉ e.*1 → torch.env_get c e = None.
Proof.
  unfold torch.env_get. induction e as [|[c1 v1] e IH]; [reflexivity|].
  cbn [fmap list_fmap fst find]. intros H.
  apply not_elem_of_cons in H as [Hne H].
  destruct (Ascii.eqb_spec c c1) as [->|_]; [contradiction|]. apply IH, H.
Qed.

Lemma env_get_elem_of (c : ascii) (v : nat) (e : torch.env) :
  NoDup e.*1 → (c, v) ∈ e → torch.env_get c e = Some v.
Proof.
  unfold torch.env_get. induction e as [|[c1 v1] e IH]; intros Hnd Hin.
  - inversion Hin.
  - cbn [fmap list_fmap fst] in Hnd. apply NoDup_cons in Hnd as [Hc1 Hnd].
    cbn [find fst]. apply elem_of_cons in Hin as [[= <- <-]|Hin].
    + rewrite Ascii.eqb_refl. reflexivity.
    + destruct (Ascii.eqb_spec c c1) as [->|_]; [|apply IH; assumption].
      exfalso. apply Hc1. apply (list_elem_of_fmap_2 fst) in Hin. exact Hin.
Qed.

Lemma env_get_is_Some (c : ascii) (e : torch.env) :
  c ∈ e.*1 → is_Some (torch.env_get c e).
Proof.
  unfold torch.env_get. induction e as [|[c1 v1] e IH]; intros Hin; [inversion Hin|].
  cbn [find fst]. destruct (Ascii.eqb_spec c c1) as [->|Hne]; [eexists; reflexivity|].
  cbn in Hin. apply elem_of_cons in Hin as [?|Hin]; [contradiction|]. apply IH, Hin.
Qed.

(** Binding a subscript that is new, and one that already has the
    same size. *)
Lemma bind_size_fresh (c : ascii) (n : nat) (e : torch.env) :
  c ∉ e.*1 → torch.bind_size c n e = Ok (e ++ [(c, n)]).
Proof. intros H. unfold torch.bind_size. rewrite (env_get_fresh c e H). reflexivity. Qed.

Lemma bind_size_same (c : ascii) (n : nat) (e : torch.env) :
  torch.env_get c e = Some n → torch.bind_size c n e = Ok e.
Proof. intros H. unfold torch.bind_size. rewrite H, Nat.eqb_refl. reflexivity. Qed.

Lemma bind_term_fresh (labels : list ascii) (sh : list nat) (e : torch.env) :
  length labels = length sh → NoDup (e.*1 ++ labels) →
  Forall (fun c => torch.is_letter c = true) labels →
  torch.bind_term labels sh e = Ok (e ++ zip labels sh).
Proof.
  revert sh e. induction labels as [|c labels IH]; intros [|n sh] e Hlen Hnd Hlet;
    try discriminate.
  - cbn. rewrite app_nil_r. reflexivity.
  - cbn [torch.bind_term zip zip_with]. apply Forall_cons in Hlet as [Hc Hlet]. rewrite Hc.
    rewrite bind_size_fresh.
    2:{ apply NoDup_app in Hnd as (_ & Hdisj & _). intros Hin. apply (Hdisj c Hin). left. }
    cbn [mbind result_bind]. rewrite IH.
    + rewrite <- app_assoc. reflexivity.
    + cbn in Hlen. lia.
    + rewrite fmap_app. cbn [fmap list_fmap fst]. rewrite <- app_assoc. exact Hnd.
    + exact Hlet.
Qed.

(** *** Sums over all assignments *)

Lemma sum_flat_map {A B} (f : B -> Z) (g : A -> list B) (l : list A) :
  fold_right Z.add 0%Z (map f (flat_map g l))
  = fold_right Z.add 0%Z (map (fun i => fold_right Z.add 0%Z (map f (g i))) l).
Proof.
  induction l as [|i l IH]; [reflexivity|].
  cbn [flat_map map fold_right]. rewrite map_app, <- IH.
  generalize (map f (g i)) as u, (map f (flat_map g l)) as w.
  induction u as [|z u IHu]; intros w; cbn; [reflexivity|]. rewrite IHu. lia.
Qed.

Lemma sum_over_indices (cs : list ascii) (rs : list nat) (asg : torch.env)
  (body : torch.env -> Z) :
  length cs = length rs →
  torch.sum_over (zip cs rs) asg body
  = fold_right Z.add 0%Z
      (map (fun a => body (rev (zip cs a) ++ asg)) (torch.indices rs)).
Proof.
  revert rs asg. induction cs as [|c cs IH]; intros [|n rs] asg Hlen; try discriminate.
  - cbn. lia.
  - cbn [zip zip_with torch.sum_over torch.indices].
    rewrite sum_flat_map. f_equal. apply map_ext. intros i.
    rewrite IH by (cbn in Hlen; lia). rewrite map_map. f_equal. apply map_ext. intros a.
    cbn [zip zip_with rev]. rewrite <- app_assoc. reflexivity.
Qed.

(** Indices listed by [indices] are within the shape. *)
Lemma indices_in_range (sh a : list nat) :
  In a (torch.indices sh) → Forall2 lt a sh.
Proof.
  revert a. induction sh as [|n sh IH]; intros a Ha.
  - destruct Ha as [<-|[]]. constructor.
  - cbn [torch.indices] in Ha. apply in_flat_map in Ha as (i & Hi & Ha).
    apply in_map_iff in Ha as (a' & <- & Ha'). apply in_seq in Hi.
    constructor; [lia | apply IH, Ha'].
Qed.

(** *** The subscripts [full] hands out *)

(** [ascii_letters[k]]. *)
Definition letter (k : nat) : ascii :=
  nth k (list_ascii_of_string ascii_letters) "a"%char.

Lemma get_nth (s : string) (k : nat) (d : ascii) :
  k < String.length s → String.get k s = Some (nth k (list_ascii_of_string s) d).
Proof.
  revert k. induction s as [|c s IH]; intros k Hk; [cbn in Hk; lia|].
  destruct k as [|k]; [reflexivity|]. cbn in *. apply IH. lia.
Qed.

Lemma str_index_letter (k : nat) : k < 52 → str_index ascii_letters k = Ok (letter k).
Proof.
  intros Hk. unfold str_index, letter. rewrite (get_nth _ _ "a"%char); [reflexivity|].
  exact Hk.
Qed.

Lemma letters_distinct : NoDup (list_ascii_of_string ascii_letters).
Proof. apply (bool_decide_unpack _). vm_compute. reflexivity. Qed.

Lemma letter_inj (i j : nat) : i < 52 → j < 52 → letter i = letter j → i = j.
Proof.
  intros Hi Hj H. unfold letter in H.
  apply (proj1 (List.NoDup_nth _ "a"%char)) in H;
    [exact H | apply NoDup_ListNoDup, letters_distinct | exact Hi | exact Hj].
Qed.

Lemma letter_is_letter (k : nat) : k < 52 → torch.is_letter (letter k) = true.
Proof.
  intros Hk. unfold torch.is_letter, letter. apply existsb_exists.
  eexists. split; [apply nth_In; exact Hk | apply Ascii.eqb_refl].
Qed.

Lemma string_app_assoc (s1 s2 s3 : string) : (s1 +:+ s2) +:+ s3 = s1 +:+ (s2 +:+ s3).
Proof.
  induction s1 as [|c s1 IH]; [reflexivity|].
  change (String c ((s1 +:+ s2) +:+ s3) = String c (s1 +:+ s2 +:+ s3)).
  rewrite IH. reflexivity.
Qed.

(** The text [full] accumulates over a run of modes of a tensor of
    order [d]: the subscripts of the factors, each followed by a comma,
    and the subscripts of the result. *)
Definition factor_words (d : nat) (modes : list nat) : string :=
  fold_right (fun i s => String (letter (d + i)) (String (letter i) (String "," s)))
    EmptyString modes.

Definition out_subscripts (d : nat) (modes : list nat) : list ascii :=
  map (fun i => letter (d + i)) modes.

(** The factor of a mode, when it has one. *)
Definition factor_of (x : Tucker.t) (mode : nat) : torch.Tensor :=
  default (torch.mkTensor [] []) (mode_factor x mode).

Lemma mode_factor_of (x : Tucker.t) (mode : nat) :
  well_formed x → mode < Tucker.ndim x → mode_factor x mode = Some (factor_of x mode).
Proof.
  intros Hwf Hlt. destruct (mode_factor_matrix x mode Hwf Hlt) as (f & n & r & Hf & _).
  unfold factor_of. rewrite Hf. reflexivity.
Qed.

Lemma full_loop_spec (x : Tucker.t) (n a : nat) (p : Tucker.full_plan) :
  well_formed x → a + n ≤ Tucker.ndim x → Tucker.ndim x + (a + n) ≤ 52 →
  Tucker.curr_common_factor p = common_index x a →
  Tucker.full_loop x (seq a n) p
  = Ok (Tucker.mk_full_plan
          (Tucker.factor_letters p +:+ factor_words (Tucker.ndim x) (seq a n))
          (Tucker.tensor_letters p +:+ str_of_chars (out_subscripts (Tucker.ndim x) (seq a n)))
          (Tucker.full_factors p ++ map (fun i => Some (factor_of x i)) (seq a n))
          (common_index x (a + n))).
Proof.
  intros Hwf. revert a p. induction n as [|n IH]; intros a p Hd Hl Hcurr.
  - cbn [seq Tucker.full_loop factor_words out_subscripts map fold_right str_of_chars].
    rewrite Nat.add_0_r, app_nil_r, <- Hcurr.
    assert (Hs : ∀ s, s +:+ EmptyString = s).
    { clear. induction s as [|c s IH]; [reflexivity|].
      change (String c (s +:+ EmptyString) = String c s). rewrite IH. reflexivity. }
    rewrite !Hs. destruct p; reflexivity.
  - cbn [seq Tucker.full_loop].
    rewrite (str_index_letter (Tucker.ndim x + a)) by lia.
    cbn [mbind result_bind]. rewrite (str_index_letter a) by lia.
    cbn [mbind result_bind].
    pose proof (common_index_S x a) as HS.
    pose proof (mode_factor_of x a Hwf ltac:(lia)) as Hf. unfold mode_factor in Hf.
    destruct (py_in (Z.of_nat a) (Tucker.symmetric_modes x)) eqn:Hin.
    + rewrite IH; [|lia|lia|cbn [Tucker.curr_common_factor]; lia].
      cbn [Tucker.factor_letters Tucker.tensor_letters Tucker.full_factors].
      rewrite !string_app_assoc, <- app_assoc, Hf.
      replace (a + S n) with (S a + n) by lia. reflexivity.
    + rewrite common_factor_lookup, Hcurr, Hf. cbn [mbind result_bind].
      rewrite IH; [|lia|lia|cbn [Tucker.curr_common_factor]; lia].
      cbn [Tucker.factor_letters Tucker.tensor_letters Tucker.full_factors].
      rewrite !string_app_assoc, <- app_assoc.
      replace (a + S n) with (S a + n) by lia. reflexivity.
Qed.

(** The contraction string of a tensor of order [d], and how [einsum]
    reads it: the subscripts of the core, then a pair per factor; the
    result takes the first subscript of every pair. *)
Definition full_equation (d : nat) : string :=
  str_slice ascii_letters 0 d +:+ "," +:+ Tucker.drop_last (factor_words d (range d))
  +:+ "->" +:+ str_of_chars (out_subscripts d (range d)).

Definition core_term (d : nat) : list ascii := map letter (range d).

Definition factor_term (d : nat) (i : nat) : list ascii := [letter (d + i); letter i].

Lemma full_equation_parsed (d : nat) :
  1 ≤ d → d ≤ 26 →
  ∃ lhs, torch.split_arrow (full_equation d)
         = Some (lhs, str_of_chars (out_subscripts d (range d)))
         ∧ map list_ascii_of_string (torch.split_on "," lhs)
           = core_term d :: map (factor_term d) (range d)
         ∧ list_ascii_of_string (str_of_chars (out_subscripts d (range d)))
           = out_subscripts d (range d).
Proof.
  intros H1 H26.
  do 27 (destruct d as [|d]; [first [lia | eexists; vm_compute; repeat split] |]).
  lia.
Qed.

(** *** The sizes [einsum] infers *)

Lemma lookup_nth_lt {A} (l : list A) (j : nat) (d : A) :
  j < length l → l !! j = Some (nth j l d).
Proof.
  revert j. induction l as [|a l IH]; intros j Hj; [cbn in Hj; lia|].
  destruct j as [|j]; [reflexivity|]. cbn in *. apply IH. lia.
Qed.

Lemma lookup_map_seq {A} (f : nat -> A) (a n j : nat) :
  j < n → map f (seq a n) !! j = Some (f (a + j)).
Proof.
  revert a j. induction n as [|n IH]; intros a j Hj; [lia|].
  destruct j as [|j]; cbn [seq map].
  - rewrite Nat.add_0_r. reflexivity.
  - cbn [lookup list_lookup]. change (map f (seq (S a) n) !! j = Some (f (a + S j))).
    rewrite IH by lia. f_equal. f_equal. lia.
Qed.

Lemma elem_of_map_seq {A} (f : nat -> A) (a n : nat) (y : A) :
  y ∈ map f (seq a n) → ∃ j, j < n ∧ y = f (a + j).
Proof.
  intros H. apply list_elem_of_In, in_map_iff in H as (i & <- & Hi).
  apply in_seq in Hi. exists (i - a). split; [lia|]. f_equal. lia.
Qed.

Lemma zip_with_map_map {A B C D} (f : B -> C -> D) (g : A -> B) (h : A -> C) (l : list A) :
  zip_with f (map g l) (map h l) = map (fun i => f (g i) (h i)) l.
Proof. induction l as [|i l IH]; [reflexivity|]. cbn. rewrite IH. reflexivity. Qed.

Lemma fst_zip_same {A B} (l : list A) (k : list B) :
  length l = length k → (zip l k).*1 = l.
Proof. intros H. apply fst_zip. lia. Qed.

Lemma lookup_zip {A B} (l : list A) (k : list B) (j : nat) (u : A) (v : B) :
  l !! j = Some u → k !! j = Some v → zip l k !! j = Some (u, v).
Proof. intros Hl Hk. rewrite lookup_zip_with, Hl, Hk. reflexivity. Qed.

(** The column count of every factor is the rank of its mode. *)
Definition conformable (x : Tucker.t) : Prop :=
  ∀ mode, mode < Tucker.ndim x →
    ∃ n, torch.shape (factor_of x mode) = [n; nth mode (Tucker.rank x) 0].

(** The number of rows of the factor of a mode. *)
Definition rows (x : Tucker.t) (mode : nat) : nat :=
  nth 0 (torch.shape (factor_of x mode)) 0.

Lemma factor_shape (x : Tucker.t) (mode : nat) :
  conformable x → mode < Tucker.ndim x →
  torch.shape (factor_of x mode) = [rows x mode; nth mode (Tucker.rank x) 0].
Proof.
  intros Hc Hlt. destruct (Hc mode Hlt) as [n Hn]. unfold rows. rewrite Hn. reflexivity.
Qed.

(** The sizes after the core and the factors of the modes below [a]
    have been read. *)
Definition sizes (x : Tucker.t) (a : nat) : torch.env :=
  zip (core_term (Tucker.ndim x)) (Tucker.rank x)
  ++ zip (out_subscripts (Tucker.ndim x) (seq 0 a)) (map (rows x) (seq 0 a)).

Lemma length_core_subscripts (d : nat) : length (core_term d) = d.
Proof. unfold core_term, range. rewrite length_map, length_seq. reflexivity. Qed.

Lemma sizes_keys (x : Tucker.t) (a : nat) :
  (sizes x a).*1 = core_term (Tucker.ndim x) ++ out_subscripts (Tucker.ndim x) (seq 0 a).
Proof.
  unfold sizes. rewrite fmap_app, !fst_zip_same; [reflexivity| |].
  - unfold out_subscripts. rewrite !length_map. reflexivity.
  - rewrite length_core_subscripts. reflexivity.
Qed.

Lemma subscripts_distinct (d a : nat) :
  d ≤ 26 → a ≤ d → NoDup (core_term d ++ out_subscripts d (seq 0 a)).
Proof.
  intros Hd Ha. apply NoDup_app. repeat split.
  - apply NoDup_ListNoDup, (proj2 (List.NoDup_nth _ "a"%char)).
    unfold core_term, range. rewrite length_map, length_seq. intros i j Hi Hj.
    rewrite (nth_lookup_Some _ _ _ _ (lookup_map_seq letter 0 d i Hi)).
    rewrite (nth_lookup_Some _ _ _ _ (lookup_map_seq letter 0 d j Hj)).
    cbn [Nat.add]. apply letter_inj; lia.
  - intros c Hc Hc'.
    apply elem_of_map_seq in Hc as (i & Hi & ->).
    apply elem_of_map_seq in Hc' as (j & Hj & Heq).
    apply letter_inj in Heq; lia.
  - apply NoDup_ListNoDup, (proj2 (List.NoDup_nth _ "a"%char)).
    unfold out_subscripts. rewrite length_map, length_seq. intros i j Hi Hj.
    rewrite (nth_lookup_Some _ _ _ _
               (lookup_map_seq (fun i => letter (d + i)) 0 a i Hi)).
    rewrite (nth_lookup_Some _ _ _ _
               (lookup_map_seq (fun i => letter (d + i)) 0 a j Hj)).
    cbn [Nat.add]. intros H. apply letter_inj in H; lia.
Qed.

Lemma sizes_core (x : Tucker.t) (a j : nat) :
  Tucker.ndim x ≤ 26 → a ≤ Tucker.ndim x → j < Tucker.ndim x →
  torch.env_get (letter j) (sizes x a) = Some (nth j (Tucker.rank x) 0).
Proof.
  intros Hd Ha Hj. apply env_get_elem_of.
  - rewrite sizes_keys. apply subscripts_distinct; assumption.
  - unfold sizes. apply elem_of_app. left.
    apply (list_elem_of_lookup_2 _ j). apply lookup_zip.
    + unfold core_term, range. rewrite lookup_map_seq by exact Hj. reflexivity.
    + apply lookup_nth_lt. exact Hj.
Qed.

Lemma sizes_out (x : Tucker.t) (a i : nat) :
  Tucker.ndim x ≤ 26 → a ≤ Tucker.ndim x → i < a →
  torch.env_get (letter (Tucker.ndim x + i)) (sizes x a) = Some (rows x i).
Proof.
  intros Hd Ha Hi. apply env_get_elem_of.
  - rewrite sizes_keys. apply subscripts_distinct; assumption.
  - unfold sizes. apply elem_of_app. right.
    apply (list_elem_of_lookup_2 _ i). apply lookup_zip.
    + unfold out_subscripts. rewrite lookup_map_seq by exact Hi. reflexivity.
    + rewrite lookup_map_seq by exact Hi. reflexivity.
Qed.

Lemma sizes_S (x : Tucker.t) (a : nat) :
  sizes x (S a) = sizes x a ++ [(letter (Tucker.ndim x + a), rows x a)].
Proof.
  unfold sizes, out_subscripts. rewrite seq_S, !map_app. cbn [map Nat.add].
  rewrite zip_with_app by (rewrite !length_map; reflexivity).
  rewrite <- app_assoc. reflexivity.
Qed.

Lemma bind_factor_terms (x : Tucker.t) (n a : nat) :
  conformable x → Tucker.ndim x ≤ 26 → a + n ≤ Tucker.ndim x →
  torch.bind_terms (map (factor_term (Tucker.ndim x)) (seq a n))
    (map (factor_of x) (seq a n)) (sizes x a)
  = Ok (sizes x (a + n)).
Proof.
  intros Hc Hd. revert a. induction n as [|n IH]; intros a Ha.
  - rewrite Nat.add_0_r. reflexivity.
  - cbn [seq map torch.bind_terms].
    change (factor_term (Tucker.ndim x) a) with [letter (Tucker.ndim x + a); letter a].
    rewrite (factor_shape x a Hc) by lia. cbn [torch.bind_term].
    rewrite (letter_is_letter (Tucker.ndim x + a)) by lia.
    rewrite bind_size_fresh.
    2:{ rewrite sizes_keys. intros Hin. apply elem_of_app in Hin as [Hin|Hin];
          apply elem_of_map_seq in Hin as (j & Hj & Heq);
          apply letter_inj in Heq; lia. }
    cbn [mbind result_bind]. rewrite (letter_is_letter a) by lia.
    rewrite <- sizes_S.
    rewrite bind_size_same by (apply sizes_core; lia).
    cbn [mbind result_bind]. rewrite IH by lia. f_equal. f_equal. lia.
Qed.

Lemma filter_true {A} (P : A -> bool) (l : list A) :
  (∀ p, p ∈ l → P p = true) → filter (fun p => Is_true (P p)) l = l.
Proof.
  induction l as [|p l IH]; intros H; [reflexivity|].
  rewrite filter_cons, decide_True by (rewrite (H p) by left; exact I).
  f_equal. apply IH. intros q Hq. apply H. right. exact Hq.
Qed.

Lemma filter_false {A} (P : A -> bool) (l : list A) :
  (∀ p, p ∈ l → P p = false) → filter (fun p => Is_true (P p)) l = [].
Proof.
  induction l as [|p l IH]; intros H; [reflexivity|].
  rewrite filter_cons, decide_False by (rewrite (H p) by left; exact id).
  apply IH. intros q Hq. apply H. right. exact Hq.
Qed.

Lemma existsb_eqb (c : ascii) (l : list ascii) :
  existsb (Ascii.eqb c) l = true ↔ c ∈ l.
Proof.
  rewrite existsb_exists. split.
  - intros (c' & Hin & Heq). apply Ascii.eqb_eq in Heq as ->. apply list_elem_of_In, Hin.
  - intros H. exists c. split; [apply list_elem_of_In, H | apply Ascii.eqb_refl].
Qed.

Lemma out_subscripts_distinct (d : nat) : d ≤ 26 → NoDup (out_subscripts d (range d)).
Proof.
  intros Hd. pose proof (subscripts_distinct d d Hd (le_n d)) as H.
  apply NoDup_app in H as (_ & _ & H). exact H.
Qed.

Lemma core_term_distinct (d : nat) : d ≤ 26 → NoDup (core_term d).
Proof.
  intros Hd. pose proof (subscripts_distinct d d Hd (le_n d)) as H.
  apply NoDup_app in H as (H & _ & _). exact H.
Qed.

Lemma core_out_disjoint (d : nat) (c : ascii) :
  d ≤ 26 → c ∈ core_term d → c ∈ out_subscripts d (range d) → False.
Proof.
  intros Hd. pose proof (subscripts_distinct d d Hd (le_n d)) as H.
  apply NoDup_app in H as (_ & H & _). apply H.
Qed.

(** What [einsum] sums over, and the shape it returns. *)
Lemma summed_subscripts (x : Tucker.t) :
  Tucker.ndim x ≤ 26 →
  filter (fun p => Is_true (negb (existsb (Ascii.eqb p.1)
                                    (out_subscripts (Tucker.ndim x) (range (Tucker.ndim x))))))
    (sizes x (Tucker.ndim x))
  = zip (core_term (Tucker.ndim x)) (Tucker.rank x).
Proof.
  intros Hd. unfold sizes, torch.env. rewrite filter_app.
  rewrite (filter_true (fun p => negb (existsb (Ascii.eqb p.1) _))).
  - rewrite (filter_false (fun p => negb (existsb (Ascii.eqb p.1) _))).
    + apply app_nil_r.
    + intros [c v] Hp. apply negb_false_iff, existsb_eqb.
      apply (list_elem_of_fmap_2 fst) in Hp.
      rewrite fst_zip_same in Hp; [exact Hp|].
      unfold out_subscripts. rewrite !length_map. reflexivity.
  - intros [c v] Hp. apply negb_true_iff, not_true_is_false. rewrite existsb_eqb.
    intros Hout. apply (list_elem_of_fmap_2 fst) in Hp.
    rewrite fst_zip_same in Hp by (rewrite length_core_subscripts; reflexivity).
    exact (core_out_disjoint _ c Hd Hp Hout).
Qed.

Lemma result_shape (x : Tucker.t) :
  Tucker.ndim x ≤ 26 →
  map (fun c => default 0 (torch.env_get c (sizes x (Tucker.ndim x))))
    (out_subscripts (Tucker.ndim x) (range (Tucker.ndim x)))
  = map (rows x) (range (Tucker.ndim x)).
Proof.
  intros Hd. unfold out_subscripts. rewrite map_map. apply map_ext_in.
  intros i Hi. apply in_seq in Hi.
  rewrite sizes_out by lia. reflexivity.
Qed.

Lemma output_checks (x : Tucker.t) :
  Tucker.ndim x ≤ 26 →
  forallb (fun c => bool_decide (is_Some (torch.env_get c (sizes x (Tucker.ndim x)))))
    (out_subscripts (Tucker.ndim x) (range (Tucker.ndim x)))
  && bool_decide (NoDup (out_subscripts (Tucker.ndim x) (range (Tucker.ndim x)))) = true.
Proof.
  intros Hd. apply andb_true_iff. split.
  - apply forallb_forall. intros c Hc. apply bool_decide_eq_true.
    apply env_get_is_Some. rewrite sizes_keys. apply elem_of_app. right.
    apply list_elem_of_In, Hc.
  - apply bool_decide_eq_true, out_subscripts_distinct, Hd.
Qed.

Lemma full_einsum (x : Tucker.t) :
  conformable x → 1 ≤ Tucker.ndim x → Tucker.ndim x ≤ 26 →
  torch.einsum (full_equation (Tucker.ndim x))
    (Tucker.core x :: map (factor_of x) (range (Tucker.ndim x)))
  = Ok (torch.tabulate (map (rows x) (range (Tucker.ndim x)))
          (fun idx =>
             torch.sum_over (zip (core_term (Tucker.ndim x)) (Tucker.rank x))
               (zip (out_subscripts (Tucker.ndim x) (range (Tucker.ndim x))) idx)
               (fun asg =>
                  fold_right Z.mul 1%Z
                    (zip_with (torch.operand_at asg)
                       (core_term (Tucker.ndim x)
                        :: map (factor_term (Tucker.ndim x)) (range (Tucker.ndim x)))
                       (Tucker.core x :: map (factor_of x) (range (Tucker.ndim x))))))).
Proof.
  intros Hc H1 Hd.
  destruct (full_equation_parsed (Tucker.ndim x) H1 Hd) as (lhs & Hsplit & Hterms & Hout).
  unfold torch.einsum. rewrite Hsplit. cbv beta iota zeta. rewrite Hterms, Hout.
  cbn [torch.bind_terms].
  rewrite bind_term_fresh.
  - cbn [mbind result_bind].
    replace ([] ++ zip (core_term (Tucker.ndim x)) (torch.shape (Tucker.core x)))
      with (sizes x 0)
      by (unfold sizes; cbn [seq map out_subscripts zip_with]; apply app_nil_r).
    rewrite (bind_factor_terms x (Tucker.ndim x) 0 Hc Hd (le_n _) : torch.bind_terms
               (map (factor_term (Tucker.ndim x)) (range (Tucker.ndim x)))
               (map (factor_of x) (range (Tucker.ndim x))) (sizes x 0)
             = Ok (sizes x (Tucker.ndim x))).
    cbn [mbind result_bind]. rewrite (output_checks x Hd).
    rewrite (summed_subscripts x Hd), (result_shape x Hd). reflexivity.
  - rewrite length_core_subscripts. reflexivity.
  - cbn [fmap list_fmap app]. apply core_term_distinct, Hd.
  - apply Forall_forall. intros c Hc'. apply elem_of_map_seq in Hc' as (j & Hj & ->).
    apply letter_is_letter. cbn. lia.
Qed.

(** *** The entries *)

(** The assignment under which [einsum] evaluates the summand for the
    core index [a] and the result index [idx]. *)
Definition assignment (d : nat) (a idx : list nat) : torch.env :=
  rev (zip (core_term d) a) ++ zip (out_subscripts d (range d)) idx.

Lemma assignment_keys (d : nat) (a idx : list nat) :
  d ≤ 26 → length a = d → length idx = d → NoDup (assignment d a idx).*1.
Proof.
  intros Hd Ha Hidx. unfold assignment.
  rewrite fmap_app, <- (Permutation_rev (zip (core_term d) a)).
  rewrite !fst_zip_same.
  - apply subscripts_distinct; [exact Hd | reflexivity].
  - unfold out_subscripts, range. rewrite length_map, length_seq. lia.
  - rewrite length_core_subscripts. lia.
Qed.

Lemma assignment_core (d : nat) (a idx : list nat) (j : nat) :
  d ≤ 26 → length a = d → length idx = d → j < d →
  torch.env_get (letter j) (assignment d a idx) = Some (nth j a 0).
Proof.
  intros Hd Ha Hidx Hj. apply env_get_elem_of; [apply assignment_keys; assumption|].
  unfold assignment. apply elem_of_app. left.
  apply list_elem_of_In, in_rev. rewrite rev_involutive. apply list_elem_of_In.
  apply (list_elem_of_lookup_2 _ j). apply lookup_zip.
  - unfold core_term, range. rewrite lookup_map_seq by exact Hj. reflexivity.
  - apply lookup_nth_lt. lia.
Qed.

Lemma assignment_out (d : nat) (a idx : list nat) (i : nat) :
  d ≤ 26 → length a = d → length idx = d → i < d →
  torch.env_get (letter (d + i)) (assignment d a idx) = Some (nth i idx 0).
Proof.
  intros Hd Ha Hidx Hi. apply env_get_elem_of; [apply assignment_keys; assumption|].
  unfold assignment. apply elem_of_app. right.
  apply (list_elem_of_lookup_2 _ i). apply lookup_zip.
  - unfold out_subscripts, range. rewrite lookup_map_seq by exact Hi. reflexivity.
  - apply lookup_nth_lt. lia.
Qed.

Lemma Forall2_lt_nth (idx sh : list nat) (j : nat) :
  Forall2 lt idx sh → j < length sh → nth j idx 0 < nth j sh 0.
Proof.
  intros H. revert j. induction H as [|i n idx sh Hi _ IH]; intros j Hj; [cbn in Hj; lia|].
  destruct j as [|j]; [exact Hi|]. cbn in *. apply IH. lia.
Qed.

(** An index read through a subscript that may be stretched. *)
Lemma stretched (n i : nat) : i < n → (if n =? 1 then 0 else i) = i.
Proof. intros H. destruct (Nat.eqb_spec n 1); lia. Qed.

Lemma operand_core (x : Tucker.t) (a idx : list nat) :
  Tucker.ndim x ≤ 26 → Forall2 lt a (Tucker.rank x) → length idx = Tucker.ndim x →
  torch.operand_at (assignment (Tucker.ndim x) a idx) (core_term (Tucker.ndim x))
    (Tucker.core x)
  = torch.get (Tucker.core x) a.
Proof.
  intros Hd Ha Hidx. unfold torch.operand_at. f_equal.
  assert (Hlen : length a = Tucker.ndim x)
    by (rewrite (Forall2_length _ _ _ Ha); reflexivity).
  apply list_eq. intros j. rewrite lookup_zip_with.
  destruct (Nat.lt_ge_cases j (Tucker.ndim x)) as [Hj|Hj].
  - unfold core_term at 1, range. rewrite lookup_map_seq by exact Hj.
    rewrite (lookup_nth_lt (torch.shape (Tucker.core x)) j 0) by exact Hj.
    rewrite (lookup_nth_lt a j 0) by lia.
    cbn [mbind option_bind Nat.add]. f_equal.
    rewrite assignment_core by assumption. cbn [default].
    apply stretched, Forall2_lt_nth; assumption.
  - rewrite (lookup_ge_None_2 (core_term _)) by (rewrite length_core_subscripts; exact Hj).
    cbn [mbind option_bind]. symmetry. apply lookup_ge_None_2. lia.
Qed.

Lemma operand_factor (x : Tucker.t) (a idx : list nat) (i : nat) :
  conformable x → Tucker.ndim x ≤ 26 →
  Forall2 lt a (Tucker.rank x) →
  Forall2 lt idx (map (rows x) (range (Tucker.ndim x))) →
  i < Tucker.ndim x →
  torch.operand_at (assignment (Tucker.ndim x) a idx) (factor_term (Tucker.ndim x) i)
    (factor_of x i)
  = torch.get (factor_of x i) [nth i idx 0; nth i a 0].
Proof.
  intros Hc Hd Ha Hidx Hi. unfold torch.operand_at, factor_term.
  assert (Hla : length a = Tucker.ndim x)
    by (rewrite (Forall2_length _ _ _ Ha); reflexivity).
  pose proof (Forall2_length _ _ _ Hidx) as Hli.
  unfold range in Hli. rewrite length_map, length_seq in Hli.
  rewrite (factor_shape x i Hc Hi). cbn [zip_with].
  rewrite (assignment_out _ a idx i Hd Hla Hli Hi), (assignment_core _ a idx i Hd Hla Hli Hi).
  cbn [default].
  assert (Hr : nth i a 0 < nth i (Tucker.rank x) 0).
  { apply Forall2_lt_nth; [exact Ha | exact Hi]. }
  assert (Hn : nth i idx 0 < rows x i).
  { pose proof (Forall2_lt_nth _ _ i Hidx) as H. unfold range in H.
    rewrite length_map, length_seq in H. specialize (H Hi).
    rewrite (nth_lookup_Some _ _ 0 _ (lookup_map_seq (rows x) 0 _ i Hi)) in H. exact H. }
  rewrite !stretched by assumption. reflexivity.
Qed.

(** The entry of the Tucker product at [idx]: the sum over all core
    indices [a] of the core entry times one entry of every factor. *)
Definition tucker_entry (x : Tucker.t) (idx : list nat) : Z :=
  fold_right Z.add 0%Z
    (map (fun a =>
            (torch.get (Tucker.core x) a
             * fold_right Z.mul 1%Z
                 (map (fun i => torch.get (factor_of x i) [nth i idx 0%nat; nth i a 0%nat])
                    (range (Tucker.ndim x))))%Z)
       (torch.indices (Tucker.rank x))).

Lemma mapM_some {A B} (f : A -> B) (l : list A) :
  mapM id (map (fun i => Some (f i)) l) = Some (map f l).
Proof. induction l as [|i l IH]; [reflexivity|]. cbn. rewrite IH. reflexivity. Qed.

(** The [shape] of a well-formed tensor lists the rows of its
    factors. *)
Lemma shape_rows (x : Tucker.t) :
  well_formed x → conformable x →
  Tucker.shape x = Ok (map (rows x) (range (Tucker.ndim x))).
Proof.
  intros Hwf Hc. rewrite shape_spec. apply for_each_ok.
  unfold range. apply Forall2_fmap_r, Forall_Forall2_diag, Forall_forall.
  intros i Hi. apply list_elem_of_In, in_seq in Hi.
  pose proof (mode_factor_of x i Hwf ltac:(lia)) as Hf.
  unfold compose. cbn beta.
  unfold mode_factor in Hf.
  destruct (py_in (Z.of_nat i) (Tucker.symmetric_modes x)) eqn:Hin.
  - rewrite (mode_size_symmetric x i Hin), Hf. cbn [Tucker.slot_shape0].
    apply (shape_at_0 _ _ _ (factor_shape x i Hc ltac:(lia))).
  - rewrite (mode_size_regular x i Hin), common_factor_lookup, Hf.
    cbn [mbind result_bind].
    apply (shape_at_0 _ _ _ (factor_shape x i Hc ltac:(lia))).
Qed.

Lemma full_value (x : Tucker.t) :
  well_formed x → conformable x → 1 ≤ Tucker.ndim x → Tucker.ndim x ≤ 26 →
  ∃ t, Tucker.full x = Ok t
       ∧ torch.shape t = map (rows x) (range (Tucker.ndim x))
       ∧ ∀ idx, Forall2 lt idx (torch.shape t) → torch.get t idx = tucker_entry x idx.
Proof.
  intros Hwf Hc H1 Hd. eexists. split; [|split].
  - unfold Tucker.full, range.
    rewrite (full_loop_spec x (Tucker.ndim x) 0) by (try assumption; cbn; try lia; reflexivity).
    cbn [mbind result_bind Tucker.factor_letters Tucker.tensor_letters Tucker.full_factors app].
    unfold PyTorchBackend.einsum. cbn [mapM id mbind option_bind].
    rewrite mapM_some. cbn [mbind option_bind mret option_ret].
    apply (full_einsum x Hc H1 Hd).
  - reflexivity.
  - cbn [torch.tabulate torch.shape]. intros idx Hidx.
    rewrite get_tabulate by exact Hidx.
    rewrite sum_over_indices by (rewrite length_core_subscripts; reflexivity).
    unfold tucker_entry. f_equal. apply map_ext_in. intros a Ha.
    apply indices_in_range in Ha.
    pose proof (Forall2_length _ _ _ Hidx) as Hli.
    unfold range in Hli. rewrite length_map, length_seq in Hli.
    fold (assignment (Tucker.ndim x) a idx).
    cbn [zip_with fold_right]. rewrite zip_with_map_map.
    rewrite (operand_core x a idx Hd Ha Hli). f_equal. f_equal.
    apply map_ext_in. intros i Hi. apply in_seq in Hi.
    apply operand_factor; try assumption. lia.
Qed.

(** X17.  [full] computes the Tucker product.  For a well-formed
    tensor of order 1 to 26 whose factors have as many columns as the
    core has entries along their mode, [full] returns a dense tensor
    whose shape is the [shape] of the tensor, and whose entry at [idx]
    is the sum over all core indices [a] of [core[a]] times the
    product over the modes [i] of [factor_i[idx_i, a_i]], the factor of
    a symmetric mode being the shared one. *)
Theorem full_is_tucker_product (x : Tucker.t) :
  well_formed x → conformable x → 1 ≤ Tucker.ndim x → Tucker.ndim x ≤ 26 →
  ∃ t, Tucker.full x = Ok t
       ∧ Tucker.shape x = Ok (torch.shape t)
       ∧ ∀ idx, Forall2 lt idx (torch.shape t) → torch.get t idx = tucker_entry x idx.
Proof.
  intros Hwf Hc H1 Hd.
  destruct (full_value x Hwf Hc H1 Hd) as (t & Hfull & Hshape & Hentries).
  exists t. split; [exact Hfull|]. split; [|exact Hentries].
  rewrite Hshape. apply shape_rows; assumption.
Qed.

Lemma stored_conformable : conformable stored.
Proof.
  intros mode Hmode. destruct mode as [|[|mode]]; [eexists; reflexivity ..|].
  cbn in Hmode. lia.
Qed.

Lemma full_is_tucker_product_witness :
  ∃ t, Tucker.full stored = Ok t
       ∧ Tucker.shape stored = Ok (torch.shape t)
       ∧ torch.get t [2; 1] = tucker_entry stored [2; 1].
Proof.
  destruct (full_is_tucker_product stored stored_well_formed stored_conformable
              ltac:(cbn; lia) ltac:(cbn; lia)) as (t & Hfull & Hshape & Hentry).
  exists t. split; [exact Hfull|]. split; [exact Hshape|].
  apply Hentry.
  assert (Ht : torch.shape t = [3; 2]).
  { pose proof Hfull as H. vm_compute in H. injection H as <-. reflexivity. }
  rewrite Ht. repeat constructor.
Defined.

(** ** The dense form after [k_mode_product] on a regular mode *)

Lemma sum_swap {A B} (f : A -> B -> Z) (la : list A) (lb : list B) :
  fold_right Z.add 0%Z (map (fun a => fold_right Z.add 0%Z (map (f a) lb)) la)
  = fold_right Z.add 0%Z
      (map (fun b => fold_right Z.add 0%Z (map (fun a => f a b) la)) lb).
Proof.
  induction la as [|a la IH]; cbn [map fold_right].
  - induction lb as [|b lb IHb]; [reflexivity|]. cbn [map fold_right]. rewrite <- IHb. reflexivity.
  - rewrite IH. clear IH. induction lb as [|b lb IHb]; [reflexivity|].
    cbn [map fold_right]. rewrite <- IHb. lia.
Qed.

Lemma sum_times {A} (c : Z) (f : A -> Z) (l : list A) :
  (c * fold_right Z.add 0%Z (map f l))%Z
  = fold_right Z.add 0%Z (map (fun a => (c * f a)%Z) l).
Proof. induction l as [|a l IH]; cbn [map fold_right]; [lia|]. rewrite <- IH. lia. Qed.

Lemma sum_ext_in {A} (f g : A -> Z) (l : list A) :
  (∀ a, In a l → f a = g a) →
  fold_right Z.add 0%Z (map f l) = fold_right Z.add 0%Z (map g l).
Proof. intros H. f_equal. apply map_ext_in, H. Qed.

Lemma prod_ext_in {A} (f g : A -> Z) (l : list A) :
  (∀ a, In a l → f a = g a) →
  fold_right Z.mul 1%Z (map f l) = fold_right Z.mul 1%Z (map g l).
Proof. intros H. f_equal. apply map_ext_in, H. Qed.

(** A product in which one factor is a sum. *)
Lemma prod_with_sum (g : nat -> Z) (h : nat -> Z) (w : nat -> nat -> Z)
  (k : nat) (ms l : list nat) :
  List.NoDup l → In k l →
  g k = fold_right Z.add 0%Z (map (fun m => (h m * w m k)%Z) ms) →
  (∀ m i, i ≠ k → w m i = g i) →
  fold_right Z.mul 1%Z (map g l)
  = fold_right Z.add 0%Z
      (map (fun m => (h m * fold_right Z.mul 1%Z (map (w m) l))%Z) ms).
Proof.
  intros Hnd Hin Hk Hrest. induction l as [|i l IH]; [destruct Hin|].
  apply List.NoDup_cons_iff in Hnd as [Hi Hnd]. cbn [map fold_right].
  destruct (Nat.eq_dec i k) as [->|Hne].
  - rewrite Hk, Z.mul_comm, sum_times. apply sum_ext_in. intros m _.
    rewrite (prod_ext_in (w m) g l); [lia|].
    intros j Hj. apply Hrest. intros ->. contradiction.
  - destruct Hin as [?|Hin]; [contradiction|].
    rewrite (IH Hnd Hin), sum_times. apply sum_ext_in. intros m _.
    rewrite (Hrest m i Hne). lia.
Qed.

(** The tensor [k_mode_product] builds on a regular mode. *)
Definition with_factor (x : Tucker.t) (k : nat) (f' : torch.Tensor) : Tucker.t :=
  Tucker.mk (Tucker.core x) (<[common_index x k := f']> (Tucker.common_factors x))
    (Tucker.symmetric_modes x) (Tucker.symmetric_factor x).

Lemma common_index_inj (x : Tucker.t) (i k : nat) :
  py_in (Z.of_nat i) (Tucker.symmetric_modes x) = false →
  py_in (Z.of_nat k) (Tucker.symmetric_modes x) = false →
  common_index x i = common_index x k → i = k.
Proof.
  intros Hi Hk Heq. destruct (Nat.lt_total i k) as [Hlt | [? | Hgt]]; [|assumption|].
  - pose proof (common_index_lt x i k Hlt Hi). lia.
  - pose proof (common_index_lt x k i Hgt Hk). lia.
Qed.

Lemma mode_factor_with_factor (x : Tucker.t) (k i : nat) (f' : torch.Tensor) :
  well_formed x → k < Tucker.ndim x →
  py_in (Z.of_nat k) (Tucker.symmetric_modes x) = false →
  mode_factor (with_factor x k f') i
  = if decide (i = k) then Some f' else mode_factor x i.
Proof.
  intros Hwf Hk Hreg. unfold mode_factor, with_factor, common_index.
  cbn [Tucker.symmetric_modes Tucker.symmetric_factor Tucker.common_factors].
  fold (common_index x i). fold (common_index x k).
  destruct (decide (i = k)) as [->|Hne].
  - rewrite Hreg. apply list_lookup_insert_eq, common_index_in_range; assumption.
  - destruct (py_in (Z.of_nat i) (Tucker.symmetric_modes x)) eqn:Hin; [reflexivity|].
    apply list_lookup_insert_ne. intros Heq. apply Hne.
    apply (common_index_inj x i k Hin Hreg). congruence.
Qed.

Lemma factor_of_with_factor (x : Tucker.t) (k i : nat) (f' : torch.Tensor) :
  well_formed x → k < Tucker.ndim x →
  py_in (Z.of_nat k) (Tucker.symmetric_modes x) = false →
  factor_of (with_factor x k f') i = if decide (i = k) then f' else factor_of x i.
Proof.
  intros Hwf Hk Hreg. unfold factor_of.
  rewrite (mode_factor_with_factor x k i f' Hwf Hk Hreg).
  destruct (decide (i = k)); reflexivity.
Qed.

Lemma with_factor_well_formed (x : Tucker.t) (k : nat) (f' : torch.Tensor) :
  well_formed x → is_matrix f' → well_formed (with_factor x k f').
Proof.
  intros (Hnd & Hrange & Hlen & Hmat & Hsym) Hf'. unfold well_formed, with_factor.
  cbn [Tucker.symmetric_modes Tucker.symmetric_factor Tucker.common_factors].
  change (Tucker.ndim (Tucker.mk (Tucker.core x) _ _ _)) with (Tucker.ndim x).
  repeat split; try assumption.
  - rewrite length_insert. exact Hlen.
  - apply Forall_insert; assumption.
Qed.

Lemma with_factor_conformable (x : Tucker.t) (k p : nat) (f' : torch.Tensor) :
  well_formed x → conformable x → k < Tucker.ndim x →
  py_in (Z.of_nat k) (Tucker.symmetric_modes x) = false →
  torch.shape f' = [p; nth k (Tucker.rank x) 0] →
  conformable (with_factor x k f').
Proof.
  intros Hwf Hc Hk Hreg Hf' i Hi.
  change (Tucker.ndim (with_factor x k f')) with (Tucker.ndim x) in Hi.
  change (Tucker.rank (with_factor x k f')) with (Tucker.rank x).
  rewrite (factor_of_with_factor x k i f' Hwf Hk Hreg).
  destruct (decide (i = k)) as [->|_]; [eexists; exact Hf' | apply Hc, Hi].
Qed.

(** The Tucker product with the factor of mode [k] multiplied by
    [mat] is the mode-[k] product of the Tucker product with [mat]. *)
Lemma tucker_entry_with_factor (x : Tucker.t) (k p n : nat) (mat f' : torch.Tensor)
  (idx : list nat) :
  well_formed x → conformable x → k < Tucker.ndim x →
  py_in (Z.of_nat k) (Tucker.symmetric_modes x) = false →
  rows x k = n → torch.shape mat = [p; n] →
  torch.matmul mat (factor_of x k) = Ok f' →
  length idx = Tucker.ndim x → nth k idx 0 < p →
  tucker_entry (with_factor x k f') idx
  = fold_right Z.add 0%Z
      (map (fun m => (torch.get mat [nth k idx 0%nat; m] * tucker_entry x (<[k := m]> idx))%Z)
         (range n)).
Proof.
  intros Hwf Hc Hk Hreg Hn Hmat Hf' Hlen Hidx. unfold tucker_entry.
  change (Tucker.ndim (with_factor x k f')) with (Tucker.ndim x).
  change (Tucker.rank (with_factor x k f')) with (Tucker.rank x).
  change (Tucker.core (with_factor x k f')) with (Tucker.core x).
  erewrite sum_ext_in.
  2:{ intros a Ha. apply indices_in_range in Ha.
      rewrite (prod_with_sum _ (fun m => torch.get mat [nth k idx 0; m])
                 (fun m i => torch.get (factor_of x i) [nth i (<[k := m]> idx) 0; nth i a 0])
                 k (range n)).
      - rewrite sum_times. reflexivity.
      - apply seq_NoDup.
      - apply in_seq. lia.
      - rewrite (factor_of_with_factor x k k f' Hwf Hk Hreg), decide_True by reflexivity.
        rewrite (matmul_entry mat (factor_of x k) f' p n (nth k (Tucker.rank x) 0)
                   (nth k idx 0) (nth k a 0) Hmat);
          [| rewrite <- Hn; apply factor_shape; assumption | exact Hf' | exact Hidx
           | apply Forall2_lt_nth; [exact Ha | exact Hk]].
        apply sum_ext_in. intros m _.
        rewrite (nth_lookup_Some _ _ 0 _
                   (list_lookup_insert_eq idx k m ltac:(rewrite Hlen; exact Hk))).
        reflexivity.
      - intros m i Hne.
        rewrite (factor_of_with_factor x k i f' Hwf Hk Hreg), decide_False by exact Hne.
        do 2 f_equal. rewrite !nth_lookup, list_lookup_insert_ne by congruence. reflexivity. }
  cbv beta. rewrite sum_swap. apply sum_ext_in. intros m _.
  rewrite sum_times. apply sum_ext_in. intros a _. lia.
Qed.

Lemma k_mode_product_run (σ : gmap Tucker.loc Tucker.t) (self : Tucker.loc)
  (x : Tucker.t) (k : nat) (mat f f' : torch.Tensor) :
  σ !! self = Some x → well_formed x → k < Tucker.ndim x →
  py_in (Z.of_nat k) (Tucker.symmetric_modes x) = false →
  Tucker.common_factors x !! common_index x k = Some f →
  torch.matmul mat f = Ok f' →
  Tucker.k_mode_product self (Z.of_nat k) mat σ
  = (Ok (Tucker.NewStructured (fresh (dom σ))),
     <[fresh (dom σ) := with_factor x k f']> σ).
Proof.
  intros Hself Hwf Hk Hreg Hf Hf'.
  pose proof Hwf as (Hnd & Hrange & _ & _ & g & Hg & _).
  assert (Hpos : Forall (fun m => (0 ≤ m)%Z) (Tucker.symmetric_modes x)).
  { eapply Forall_impl; [exact Hrange | cbn; lia]. }
  pose proof (k_change_spec x k Hnd Hpos) as Hchange.
  pose proof (common_index_in_range x k Hwf Hk Hreg) as Hidx.
  unfold Tucker.k_mode_product.
  rewrite run_bind, (run_load σ self x Hself).
  destruct (Z.ltb_spec (Z.of_nat k) 0) as [?|_]; [lia|].
  destruct (Z.leb_spec (Z.of_nat (Tucker.ndim x)) (Z.of_nat k)) as [?|_]; [lia|].
  cbn [orb]. rewrite Hreg.
  rewrite run_bind, (deepcopy_ok σ self x g Hself Hg).
  rewrite run_bind, (run_load _ (fresh (dom σ)) x (lookup_insert_eq σ _ x)).
  rewrite Hchange. unfold Tucker.lift.
  rewrite run_bind, py_index_nat, Hf.
  rewrite run_bind, Hf'.
  rewrite run_bind, (py_setitem_nat _ (common_index x k) f' Hidx).
  rewrite run_bind. unfold Tucker.store. rewrite insert_insert_eq. reflexivity.
Qed.

Lemma rows_with_factor (x : Tucker.t) (k p r : nat) (f' : torch.Tensor) :
  well_formed x → k < Tucker.ndim x →
  py_in (Z.of_nat k) (Tucker.symmetric_modes x) = false →
  torch.shape f' = [p; r] →
  map (rows (with_factor x k f')) (range (Tucker.ndim x))
  = <[k := p]> (map (rows x) (range (Tucker.ndim x))).
Proof.
  intros Hwf Hk Hreg Hf'. apply list_eq. intros i. unfold range.
  destruct (Nat.lt_ge_cases i (Tucker.ndim x)) as [Hi|Hi].
  - rewrite lookup_map_seq by exact Hi. cbn [Nat.add]. unfold rows at 1.
    rewrite (factor_of_with_factor x k i f' Hwf Hk Hreg).
    destruct (decide (i = k)) as [->|Hne].
    + rewrite list_lookup_insert_eq by (rewrite length_map, length_seq; exact Hk).
      rewrite Hf'. reflexivity.
    + rewrite list_lookup_insert_ne by congruence.
      rewrite lookup_map_seq by exact Hi. reflexivity.
  - rewrite !lookup_ge_None_2; [reflexivity| |].
    + rewrite length_insert, length_map, length_seq. exact Hi.
    + rewrite length_map, length_seq. exact Hi.
Qed.

(** X18.  [k_mode_product] on a regular mode acts on the dense form as
    the mode-[k] product.  For a well-formed tensor of order 1 to 26
    with matching ranks, a regular mode [k] whose factor has [n] rows
    and a matrix [mat] of shape [p x n]: the product returns a new
    tensor, [full] returns on both, the dense form of the new tensor
    has size [p] on axis [k] and the sizes of the old one elsewhere,
    and its entry at [idx] is the sum over [m < n] of [mat[idx_k, m]]
    times the entry of the old dense form at [idx] with position [k]
    replaced by [m]. *)
Theorem k_mode_product_dense (σ : gmap Tucker.loc Tucker.t) (self : Tucker.loc)
  (x : Tucker.t) (k p n : nat) (mat : torch.Tensor) :
  σ !! self = Some x → well_formed x → conformable x →
  1 ≤ Tucker.ndim x → Tucker.ndim x ≤ 26 → k < Tucker.ndim x →
  Z.of_nat k ∉ Tucker.symmetric_modes x →
  rows x k = n → torch.shape mat = [p; n] →
  ∃ new y t t',
    Tucker.k_mode_product self (Z.of_nat k) mat σ
    = (Ok (Tucker.NewStructured new), <[new := y]> σ)
    ∧ σ !! new = None
    ∧ Tucker.full x = Ok t ∧ Tucker.full y = Ok t'
    ∧ torch.shape t' = <[k := p]> (torch.shape t)
    ∧ ∀ idx, Forall2 lt idx (torch.shape t') →
        torch.get t' idx
        = fold_right Z.add 0%Z
            (map (fun m => (torch.get mat [nth k idx 0%nat; m]
                            * torch.get t (<[k := m]> idx))%Z) (range n)).
Proof.
  intros Hself Hwf Hc H1 Hd Hk Hnotin Hn Hmat.
  assert (Hreg : py_in (Z.of_nat k) (Tucker.symmetric_modes x) = false)
    by (apply py_in_false, Hnotin).
  pose proof (mode_factor_of x k Hwf Hk) as Hf. unfold mode_factor in Hf. rewrite Hreg in Hf.
  pose proof (factor_shape x k Hc Hk) as Hshape. rewrite Hn in Hshape.
  pose proof (matmul_matrix mat (factor_of x k) p n n _ Hmat Hshape) as Hprod.
  destruct (decide (n = n)) as [_|?]; [|contradiction].
  destruct Hprod as (f' & Hf' & Hshape').
  set (y := with_factor x k f').
  assert (Hwfy : well_formed y).
  { apply with_factor_well_formed; [exact Hwf|]. unfold is_matrix. rewrite Hshape'. reflexivity. }
  assert (Hcy : conformable y).
  { apply (with_factor_conformable x k p f'); assumption. }
  destruct (full_value x Hwf Hc H1 Hd) as (t & Hfull & Hsh & Hentries).
  destruct (full_value y Hwfy Hcy H1 Hd) as (t' & Hfull' & Hsh' & Hentries').
  change (Tucker.ndim y) with (Tucker.ndim x) in Hsh'.
  unfold y in Hsh'. rewrite (rows_with_factor x k p _ f' Hwf Hk Hreg Hshape'), <- Hsh in Hsh'.
  exists (fresh (dom σ)), y, t, t'.
  split; [apply (k_mode_product_run σ self x k mat (factor_of x k) f'); assumption|].
  split; [apply fresh_address|].
  split; [exact Hfull|]. split; [exact Hfull'|]. split; [exact Hsh'|].
  intros idx Hidx. rewrite (Hentries' idx Hidx).
  assert (Hlt : length (torch.shape t) = Tucker.ndim x).
  { rewrite Hsh. unfold range. rewrite length_map, length_seq. reflexivity. }
  assert (Hlen : length idx = Tucker.ndim x).
  { rewrite (Forall2_length _ _ _ Hidx), Hsh', length_insert. exact Hlt. }
  assert (Hpk : nth k idx 0 < p).
  { pose proof (Forall2_lt_nth idx _ k Hidx) as H. rewrite Hsh', length_insert in H.
    specialize (H ltac:(lia)).
    rewrite (nth_lookup_Some _ _ 0 _
               (list_lookup_insert_eq (torch.shape t) k p ltac:(lia))) in H.
    exact H. }
  unfold y.
  rewrite (tucker_entry_with_factor x k p n mat f' idx Hwf Hc Hk Hreg Hn Hmat Hf' Hlen Hpk).
  apply sum_ext_in. intros m Hm. apply in_seq in Hm. f_equal. symmetry. apply Hentries.
  assert (Hkn : torch.shape t !! k = Some n).
  { rewrite Hsh. unfold range. rewrite lookup_map_seq by exact Hk. cbn [Nat.add].
    rewrite Hn. reflexivity. }
  replace (torch.shape t) with (<[k := n]> (torch.shape t'))
    by (rewrite Hsh', list_insert_insert_eq; apply list_insert_id, Hkn).
  apply Forall2_insert; [exact Hidx | lia].
Qed.

Lemma k_mode_product_dense_witness :
  ∃ new y t',
    Tucker.k_mode_product 1%positive 0 row3 store1
    = (Ok (Tucker.NewStructured new), <[new := y]> store1)
    ∧ Tucker.full y = Ok t'
    ∧ torch.shape t' = [1; 2].
Proof.
  destruct (k_mode_product_dense store1 1%positive stored 0 1 3 row3
              eq_refl stored_well_formed stored_conformable
              ltac:(cbn; lia) ltac:(cbn; lia) ltac:(cbn; lia)
              ltac:(cbn; intros H; apply list_elem_of_singleton in H; discriminate)
              eq_refl eq_refl)
    as (new & y & t & t' & Hrun & _ & Hfull & Hfull' & Hshape & _).
  exists new, y, t'. split; [exact Hrun|]. split; [exact Hfull'|].
  rewrite Hshape. vm_compute in Hfull. injection Hfull as <-. reflexivity.
Defined.

(** ** Reading a contraction string *)

Lemma string_app_cons (c : ascii) (s t : string) :
  String c s +:+ t = String c (s +:+ t).
Proof. reflexivity. Qed.

Lemma string_length_app (s t : string) :
  String.length (s +:+ t) = String.length s + String.length t.
Proof.
  induction s as [|c s IH]; [reflexivity|].
  rewrite string_app_cons. cbn [String.length]. rewrite IH. reflexivity.
Qed.

Lemma substring_all (s : string) : String.substring 0 (String.length s) s = s.
Proof. induction s as [|c s IH]; [reflexivity|]. cbn. rewrite IH. reflexivity. Qed.

Lemma substring_prefix (s t : string) :
  String.substring 0 (String.length s) (s +:+ t) = s.
Proof.
  induction s as [|c s IH]; [destruct t; reflexivity|].
  rewrite string_app_cons. cbn [String.length String.substring]. rewrite IH. reflexivity.
Qed.

Lemma substring_suffix (s t : string) :
  String.substring (String.length s) (String.length t) (s +:+ t) = t.
Proof.
  induction s as [|c s IH]; [apply substring_all|].
  rewrite string_app_cons. cbn [String.length String.substring]. exact IH.
Qed.

Lemma index_arrow (s t : string) :
  ¬ In "-"%char (list_ascii_of_string s) →
  String.index 0 "->" (s +:+ "->" +:+ t) = Some (String.length s).
Proof.
  induction s as [|b s IH]; intros Hs.
  { change (EmptyString +:+ "->" +:+ t) with (String "-" (String ">" t)).
    destruct t; reflexivity. }
  rewrite string_app_cons. cbn [String.index String.prefix String.length].
  destruct (ascii_dec "-" b) as [<-|_]; [exfalso; apply Hs; left; reflexivity|].
  rewrite IH; [reflexivity|]. intros H. apply Hs. right. exact H.
Qed.

Lemma split_arrow_app (s t : string) :
  ¬ In "-"%char (list_ascii_of_string s) →
  torch.split_arrow (s +:+ "->" +:+ t) = Some (s, t).
Proof.
  intros Hs. unfold torch.split_arrow. rewrite (index_arrow s t Hs).
  rewrite substring_prefix. f_equal. f_equal.
  rewrite string_length_app, string_length_app.
  replace (String.length s + (String.length "->" + String.length t) - (String.length s + 2))
    with (String.length t) by (cbn; lia).
  rewrite <- string_app_assoc.
  replace (String.length s + 2) with (String.length (s +:+ "->"))
    by (rewrite string_length_app; reflexivity).
  apply substring_suffix.
Qed.

Lemma split_on_word (c : ascii) (w : string) :
  ¬ In c (list_ascii_of_string w) → torch.split_on c w = [w].
Proof.
  induction w as [|d w IH]; intros Hw; [reflexivity|].
  cbn [torch.split_on]. destruct (Ascii.eqb_spec c d) as [->|_].
  - exfalso. apply Hw. left. reflexivity.
  - rewrite IH; [reflexivity|]. intros H. apply Hw. right. exact H.
Qed.

Lemma split_on_app (c : ascii) (w rest : string) :
  ¬ In c (list_ascii_of_string w) →
  torch.split_on c (w +:+ String c rest) = w :: torch.split_on c rest.
Proof.
  induction w as [|d w IH]; intros Hw.
  - change (EmptyString +:+ String c rest) with (String c rest).
    cbn [torch.split_on]. rewrite Ascii.eqb_refl. reflexivity.
  - rewrite string_app_cons. cbn [torch.split_on].
    destruct (Ascii.eqb_spec c d) as [->|_].
    + exfalso. apply Hw. left. reflexivity.
    + rewrite IH; [reflexivity|]. intros H. apply Hw. right. exact H.
Qed.

Lemma split_on_join (c : ascii) (ws : list string) :
  ws ≠ [] → Forall (fun w => ¬ In c (list_ascii_of_string w)) ws →
  torch.split_on c (join (String c EmptyString) ws) = ws.
Proof.
  unfold join. induction ws as [|w ws IH]; intros Hne Hws; [contradiction|].
  apply Forall_cons in Hws as [Hw Hws]. destruct ws as [|w' ws].
  - apply split_on_word, Hw.
  - change (String.concat (String c EmptyString) (w :: w' :: ws))
      with (w +:+ String c (String.concat (String c EmptyString) (w' :: ws))).
    rewrite split_on_app by exact Hw. f_equal. apply IH; [discriminate | exact Hws].
Qed.

Lemma chars_app (s t : string) :
  list_ascii_of_string (s +:+ t) = list_ascii_of_string s ++ list_ascii_of_string t.
Proof.
  induction s as [|c s IH]; [reflexivity|].
  rewrite string_app_cons. cbn [list_ascii_of_string app]. rewrite IH. reflexivity.
Qed.

Lemma chars_join (sep : string) (ws : list string) (c : ascii) :
  In c (list_ascii_of_string (join sep ws)) →
  In c (list_ascii_of_string sep) ∨ ∃ w, In w ws ∧ In c (list_ascii_of_string w).
Proof.
  unfold join. induction ws as [|w ws IH]; [intros []|].
  destruct ws as [|w' ws].
  - intros H. right. exists w. split; [left; reflexivity | exact H].
  - change (String.concat sep (w :: w' :: ws))
      with (w +:+ sep +:+ String.concat sep (w' :: ws)).
    rewrite !chars_app, !in_app_iff. intros [H|[H|H]].
    + right. exists w. split; [left; reflexivity | exact H].
    + left. exact H.
    + destruct (IH H) as [?|(u & Hu & Hc)]; [left; assumption|].
      right. exists u. split; [right; exact Hu | exact Hc].
Qed.

Lemma chars_substring (P : ascii -> Prop) (s : string) (n m : nat) :
  Forall P (list_ascii_of_string s) →
  Forall P (list_ascii_of_string (String.substring n m s)).
Proof.
  revert n m. induction s as [|c s IH]; intros n m Hs.
  - destruct n, m; constructor.
  - apply Forall_cons in Hs as [Hc Hs].
    destruct n as [|n]; [|apply IH, Hs].
    destruct m as [|m]; [constructor|].
    cbn [String.substring list_ascii_of_string]. constructor; [exact Hc | apply IH, Hs].
Qed.

(** ** [flat_inner] when mode 0 is regular *)

Definition letters_only (w : string) : Prop :=
  Forall (fun c => torch.is_letter c = true) (list_ascii_of_string w).

Lemma ascii_letters_only : letters_only ascii_letters.
Proof.
  unfold letters_only. apply Forall_forall. intros c Hc. apply list_elem_of_In in Hc.
  revert c Hc. apply forallb_forall. vm_compute. reflexivity.
Qed.

Lemma str_index_in (s : string) (i : nat) (c : ascii) :
  str_index s i = Ok c → In c (list_ascii_of_string s).
Proof.
  unfold str_index. revert i. induction s as [|d s IH]; intros i; [discriminate|].
  destruct i as [|i]; cbn [String.get list_ascii_of_string].
  - intros [= ->]. left. reflexivity.
  - intros H. right. eapply IH, H.
Qed.

Lemma str_index_letters_only (s : string) (i : nat) (c : ascii) :
  letters_only s → str_index s i = Ok c → torch.is_letter c = true.
Proof.
  intros Hs H. apply str_index_in in H. unfold letters_only in Hs.
  rewrite Forall_forall in Hs. apply Hs, list_elem_of_In, H.
Qed.

Lemma two_letters_only (a b : ascii) :
  torch.is_letter a = true → torch.is_letter b = true →
  letters_only (Tucker.two_letters a b).
Proof. intros Ha Hb. repeat constructor; assumption. Qed.

Lemma letter_no_separator (w : string) (c : ascii) :
  letters_only w → torch.is_letter c = false → ¬ In c (list_ascii_of_string w).
Proof.
  intros Hw Hc Hin. unfold letters_only in Hw. rewrite Forall_forall in Hw.
  apply list_elem_of_In, Hw in Hin. congruence.
Qed.

(** What the loop of [flat_inner] adds to its lists: one factor and
    one word of letters per mode, and as many transposed factors as
    words for them. *)
Lemma flat_inner_loop_plan (x z : Tucker.t) (sf : torch.Tensor) (cl : string)
  (modes : list nat) (p0 p : Tucker.inner_plan) :
  letters_only cl →
  Tucker.flat_inner_loop x z sf cl modes p0 = Ok p →
  ∃ fs fls tfs tls,
    Tucker.factors p = Tucker.factors p0 ++ map Some fs
    ∧ Tucker.factors_letters p = Tucker.factors_letters p0 ++ fls
    ∧ length fs = length fls
    ∧ Tucker.transposed_factors p = Tucker.transposed_factors p0 ++ map Some tfs
    ∧ Tucker.transposed_letters p = Tucker.transposed_letters p0 ++ tls
    ∧ length tfs = length tls
    ∧ Forall letters_only fls ∧ Forall letters_only tls.
Proof.
  intros Hcl. revert p0. induction modes as [|i modes IH]; intros p0 H.
  - injection H as <-. exists [], [], [], []. rewrite !app_nil_r. repeat split; constructor.
  - cbn [Tucker.flat_inner_loop] in H.
    apply bind_ok in H as (xl & Hxl & H). apply bind_ok in H as (c & Hc & H).
    pose proof (str_index_letters_only _ _ _ ascii_letters_only Hxl) as Hxl'.
    pose proof (str_index_letters_only _ _ _ Hcl Hc) as Hc'.
    destruct (py_in _ _).
    + apply IH in H as (fs & fls & tfs & tls & H1 & H2 & H3 & H4 & H5 & H6 & H7 & H8).
      cbn [Tucker.factors Tucker.factors_letters Tucker.transposed_factors
             Tucker.transposed_letters] in *.
      exists (sf :: fs), (Tucker.two_letters xl c :: fls), tfs, tls.
      rewrite H1, H2, <- !app_assoc. repeat split; try assumption.
      * cbn. lia.
      * constructor; [apply two_letters_only; assumption | assumption].
    + apply bind_ok in H as (f & _ & H). apply bind_ok in H as (g & _ & H).
      apply bind_ok in H as (yl & Hyl & H).
      pose proof (str_index_letters_only _ _ _ ascii_letters_only Hyl) as Hyl'.
      apply IH in H as (fs & fls & tfs & tls & H1 & H2 & H3 & H4 & H5 & H6 & H7 & H8).
      cbn [Tucker.factors Tucker.factors_letters Tucker.transposed_factors
             Tucker.transposed_letters] in *.
      exists (f :: fs), (Tucker.two_letters xl c :: fls),
             (torch.T g :: tfs), (Tucker.two_letters yl xl :: tls).
      rewrite H1, H2, H4, H5, <- !app_assoc. repeat split; try assumption.
      * cbn. lia.
      * cbn. lia.
      * constructor; [apply two_letters_only; assumption | assumption].
      * constructor; [apply two_letters_only; assumption | assumption].
Qed.

Lemma bind_terms_app (ts1 ts2 : list (list ascii)) (os1 os2 : list torch.Tensor)
  (e : torch.env) :
  length ts1 = length os1 →
  torch.bind_terms (ts1 ++ ts2) (os1 ++ os2) e
  = (e1 ← torch.bind_terms ts1 os1 e; torch.bind_terms ts2 os2 e1).
Proof.
  revert os1 e. induction ts1 as [|t ts1 IH]; intros [|o os1] e Hlen; try discriminate.
  - reflexivity.
  - cbn [app torch.bind_terms]. destruct (torch.bind_term t (torch.shape o) e) as [e'|];
      [|reflexivity].
    cbn [mbind result_bind]. apply IH. cbn in Hlen. lia.
Qed.

Lemma bind_size_get (c : ascii) (n : nat) (e e' : torch.env) :
  torch.bind_size c n e = Ok e' → n ≠ 1 → torch.env_get c e' = Some n.
Proof.
  unfold torch.bind_size. intros H Hn.
  destruct (torch.env_get c e) as [k|] eqn:E.
  - destruct (Nat.eqb_spec k n) as [->|_]; [injection H as <-; exact E|].
    destruct (Nat.eqb_spec n 1) as [?|_]; [contradiction|].
    destruct (k =? 1); [|discriminate]. injection H as <-.
    clear Hn. unfold torch.env_get in *. induction e as [|[c1 v1] e IH]; [discriminate|].
    cbn [map find fst] in *. destruct (Ascii.eqb c c1) eqn:Ec.
    + cbn [find fst]. rewrite Ascii.eqb_refl. reflexivity.
    + cbn [find fst]. rewrite Ec. apply IH, E.
  - injection H as <-. rewrite env_get_app, E. unfold torch.env_get. cbn.
    rewrite Ascii.eqb_refl. reflexivity.
Qed.

Lemma bind_size_clash (c : ascii) (k n : nat) (e : torch.env) :
  torch.env_get c e = Some k → k ≠ n → n ≠ 1 → k ≠ 1 →
  torch.bind_size c n e = Raise RuntimeError.
Proof.
  intros E Hkn Hn Hk. unfold torch.bind_size. rewrite E.
  destruct (Nat.eqb_spec k n); [contradiction|].
  destruct (Nat.eqb_spec n 1); [contradiction|].
  destruct (Nat.eqb_spec k 1); [contradiction|]. reflexivity.
Qed.

(** A subscript written twice on one operand needs two equal sizes. *)
Lemma bind_term_twice (c : ascii) (r n : nat) (e : torch.env) :
  r ≠ n → r ≠ 1 → n ≠ 1 →
  torch.bind_term [c; c] [r; n] e = Raise RuntimeError.
Proof.
  intros Hrn Hr Hn. cbn [torch.bind_term].
  destruct (torch.is_letter c); [|reflexivity].
  destruct (torch.bind_size c r e) as [e'|] eqn:E.
  - cbn [mbind result_bind]. rewrite (bind_size_clash c r n e'); [reflexivity| | | |];
      try assumption. apply (bind_size_get c r e e' E Hr).
  - cbn [mbind result_bind]. unfold torch.bind_size in E.
    destruct (torch.env_get c e) as [k|]; [|discriminate].
    destruct (k =? r); [discriminate|]. destruct (r =? 1); [discriminate|].
    destruct (k =? 1); [discriminate|]. injection E as <-. reflexivity.
Qed.

Lemma mapM_id_Some {A} (l : list A) : mapM id (map Some l) = Some l.
Proof. induction l as [|a l IH]; [reflexivity|]. cbn. rewrite IH. reflexivity. Qed.

(** X19.  In [flat_inner] the transposed private factor of a regular
    mode [i] gets the subscripts [ascii_letters[ndim + 2 * i]] and
    [ascii_letters[ndim + i]]; for [i = 0] these are one and the same
    letter.  So when the operands have the same symmetric modes, mode 0
    is regular, and the first private factor of [other] has two
    different dimensions, both greater than 1, [einsum] is asked for
    the diagonal of a matrix that is not square, and [flat_inner]
    raises. *)
Theorem flat_inner_regular_first_mode (x z : Tucker.t) (g : torch.Tensor) (n r : nat) :
  Tucker.symmetric_modes x = Tucker.symmetric_modes z →
  1 ≤ Tucker.ndim x →
  0%Z ∉ Tucker.symmetric_modes x →
  Tucker.common_factors z !! 0 = Some g →
  torch.shape g = [n; r] → n ≠ r → n ≠ 1 → r ≠ 1 →
  ∃ e, Tucker.flat_inner x z = Raise e.
Proof.
  intros Hmodes Hd Hreg Hg Hshape Hnr Hn Hr.
  destruct (result_cases (Tucker.flat_inner x z)) as [[v H]|He]; [exfalso | exact He].
  unfold Tucker.flat_inner in H.
  destruct (decide _) as [?|_]; [contradiction|].
  apply bind_ok in H as (sf & _ & H).
  apply bind_ok in H as (p & Hp & H).
  apply bind_ok in H as (ic & Hic & _).
  set (cl := str_slice ascii_letters 0 (Tucker.ndim x)) in *.
  assert (Hcl : letters_only cl) by (apply chars_substring, ascii_letters_only).
  (* the first turn of the loop *)
  assert (Hrange : range (Tucker.ndim x) = 0 :: seq 1 (Tucker.ndim x - 1)).
  { unfold range. destruct (Tucker.ndim x); [lia|]. cbn. rewrite Nat.sub_0_r. reflexivity. }
  rewrite Hrange in Hp. cbn [Tucker.flat_inner_loop] in Hp.
  apply bind_ok in Hp as (xl & Hxl & Hp). apply bind_ok in Hp as (c & Hc & Hp).
  change (Z.of_nat 0) with 0%Z in Hp.
  rewrite (proj2 (py_in_false 0 _) Hreg) in Hp.
  apply bind_ok in Hp as (f & _ & Hp). apply bind_ok in Hp as (g' & Hg' & Hp).
  cbn [Tucker.cur_common_mode] in Hg'. rewrite common_factor_lookup, Hg in Hg'.
  injection Hg' as <-.
  apply bind_ok in Hp as (yl & Hyl & Hp).
  change (Tucker.ndim x + 2 * 0) with (Tucker.ndim x + 0) in Hyl.
  rewrite Hxl in Hyl. injection Hyl as <-.
  pose proof (str_index_letters_only _ _ _ ascii_letters_only Hxl) as Hxl'.
  pose proof (str_index_letters_only _ _ _ Hcl Hc) as Hc'.
  apply (flat_inner_loop_plan x z sf cl _ _ p Hcl) in Hp
    as (fs & fls & tfs & tls & H1 & H2 & H3 & H4 & H5 & H6 & H7 & H8).
  cbn [Tucker.factors Tucker.factors_letters Tucker.transposed_factors
         Tucker.transposed_letters app] in H1, H2, H4, H5.
  (* the operands and the contraction string *)
  rewrite H1, H2, H4, H5 in Hic. unfold PyTorchBackend.einsum in Hic.
  change ([Some (Tucker.core x)] ++ (Some f :: map Some fs)
          ++ Some (torch.T g) :: map Some tfs)
    with (map Some (Tucker.core x :: f :: fs) ++ map Some (torch.T g :: tfs)) in Hic.
  rewrite <- map_app, mapM_id_Some in Hic.
  set (words := [cl] ++ (Tucker.two_letters xl c :: fls)
                ++ Tucker.two_letters xl xl :: tls) in *.
  assert (Hwords : Forall letters_only words).
  { unfold words. apply Forall_app. split; [repeat constructor; exact Hcl|].
    apply Forall_app. split; constructor; try assumption;
      apply two_letters_only; assumption. }
  unfold torch.einsum in Hic. rewrite split_arrow_app in Hic.
  2:{ intros Hin. apply chars_join in Hin as [Hin|(w & Hw & Hin)].
      - destruct Hin as [Heq|[]]. discriminate Heq.
      - rewrite Forall_forall in Hwords.
        apply (letter_no_separator w "-"%char); [|reflexivity|exact Hin].
        apply Hwords, list_elem_of_In, Hw. }
  cbv beta iota zeta in Hic.
  apply bind_ok in Hic as (sizes & Hsizes & _).
  rewrite (split_on_join ","%char words) in Hsizes.
  2:{ discriminate. }
  2:{ eapply Forall_impl; [exact Hwords|]. intros w Hw.
      apply (letter_no_separator w ","%char Hw). reflexivity. }
  unfold words in Hsizes. rewrite !map_app in Hsizes.
  change (map list_ascii_of_string [cl]
          ++ map list_ascii_of_string (Tucker.two_letters xl c :: fls)
          ++ map list_ascii_of_string (Tucker.two_letters xl xl :: tls))
    with ((list_ascii_of_string cl
           :: map list_ascii_of_string (Tucker.two_letters xl c :: fls))
          ++ [xl; xl] :: map list_ascii_of_string tls) in Hsizes.
  rewrite bind_terms_app in Hsizes by (cbn; rewrite !length_map; lia).
  apply bind_ok in Hsizes as (e1 & _ & Hsizes).
  cbn [torch.bind_terms] in Hsizes.
  change (torch.shape (torch.T g)) with (rev (torch.shape g)) in Hsizes.
  rewrite Hshape in Hsizes. cbn [rev app] in Hsizes.
  rewrite bind_term_twice in Hsizes by congruence. discriminate Hsizes.
Qed.

Lemma flat_inner_regular_first_mode_witness :
  ∃ e, Tucker.flat_inner stored stored = Raise e.
Proof.
  apply (flat_inner_regular_first_mode stored stored
           (torch.mkTensor [3; 2] [1; 0; 0; 1; 1; 1]%Z) 3 2 eq_refl);
    try reflexivity; try (cbn; lia).
  intros H. apply list_elem_of_singleton in H. discriminate H.
Defined.

(** ** [full] on a tensor of order 0 *)

(** X20.  A tensor of order 0 has no dense form: [full] builds the
    contraction string [",->"], which names two operands, and passes
    the core alone, so [einsum] raises [RuntimeError]. *)
Theorem full_of_order_0_raises (x : Tucker.t) :
  Tucker.ndim x = 0 → Tucker.full x = Raise RuntimeError.
Proof.
  intros Hd. unfold Tucker.full. rewrite Hd.
  cbn [range seq Tucker.full_loop mbind result_bind Tucker.factor_letters
         Tucker.tensor_letters Tucker.full_factors app].
  unfold PyTorchBackend.einsum. cbn [mapM id mbind option_bind mret option_ret].
  unfold torch.einsum.
  change (torch.split_arrow _) with (Some (","%string, EmptyString)).
  cbv beta iota zeta.
  change (map list_ascii_of_string (torch.split_on "," ",")) with [[]; @nil ascii].
  cbn [torch.bind_terms].
  unfold Tucker.ndim in Hd. apply length_zero_iff_nil in Hd. rewrite Hd.
  reflexivity.
Qed.

Lemma full_of_order_0_raises_witness :
  Tucker.full (Tucker.mk (torch.mkTensor [] [7%Z]) [] [] None) = Raise RuntimeError.
Proof. apply full_of_order_0_raises. reflexivity. Defined.

(** ** The dense form after [symmetric_modes_product] *)

Lemma tabulate_ext (sh : list nat) (f g : list nat -> Z) :
  (∀ idx, Forall2 lt idx sh → f idx = g idx) → torch.tabulate sh f = torch.tabulate sh g.
Proof.
  intros H. unfold torch.tabulate. f_equal. apply map_ext_in.
  intros idx Hidx. apply H, indices_in_range, Hidx.
Qed.

(** The Tucker product of a core with one factor per mode. *)
Definition tucker_sum (core : torch.Tensor) (F : nat -> torch.Tensor) (d : nat)
  (idx : list nat) : Z :=
  fold_right Z.add 0%Z
    (map (fun a =>
            (torch.get core a
             * fold_right Z.mul 1%Z
                 (map (fun i => torch.get (F i) [nth i idx 0%nat; nth i a 0%nat])
                    (range d)))%Z)
       (torch.indices (torch.shape core))).

Lemma tucker_sum_ext (core : torch.Tensor) (F F' : nat -> torch.Tensor) (d : nat)
  (idx : list nat) :
  (∀ i, i < d → F i = F' i) → tucker_sum core F d idx = tucker_sum core F' d idx.
Proof.
  intros H. unfold tucker_sum. apply sum_ext_in. intros a _. f_equal.
  apply prod_ext_in. intros i Hi. apply in_seq in Hi. rewrite H by lia. reflexivity.
Qed.

(** Multiplying the factor of one mode by [mat] is the product of the
    dense form with [mat] along that mode. *)
Lemma tucker_sum_update (core : torch.Tensor) (F F' : nat -> torch.Tensor)
  (d k p n : nat) (mat : torch.Tensor) (idx : list nat) :
  k < d → length (torch.shape core) = d →
  torch.shape mat = [p; n] →
  torch.shape (F k) = [n; nth k (torch.shape core) 0] →
  torch.matmul mat (F k) = Ok (F' k) →
  (∀ i, i ≠ k → F' i = F i) →
  length idx = d → nth k idx 0 < p →
  tucker_sum core F' d idx
  = fold_right Z.add 0%Z
      (map (fun m => (torch.get mat [nth k idx 0%nat; m]
                      * tucker_sum core F d (<[k := m]> idx))%Z) (range n)).
Proof.
  intros Hk Hd Hmat Hshape Hprod Hrest Hlen Hidx. unfold tucker_sum.
  erewrite sum_ext_in.
  2:{ intros a Ha. apply indices_in_range in Ha.
      rewrite (prod_with_sum _ (fun m => torch.get mat [nth k idx 0; m])
                 (fun m i => torch.get (F i) [nth i (<[k := m]> idx) 0; nth i a 0])
                 k (range n)).
      - rewrite sum_times. reflexivity.
      - apply seq_NoDup.
      - apply in_seq. lia.
      - rewrite (matmul_entry mat (F k) (F' k) p n (nth k (torch.shape core) 0)
                   (nth k idx 0) (nth k a 0) Hmat Hshape Hprod Hidx)
          by (apply Forall2_lt_nth; [exact Ha | lia]).
        apply sum_ext_in. intros m _.
        rewrite (nth_lookup_Some _ _ 0 _
                   (list_lookup_insert_eq idx k m ltac:(rewrite Hlen; exact Hk))).
        reflexivity.
      - intros m i Hne. rewrite (Hrest i Hne).
        do 2 f_equal. rewrite !nth_lookup, list_lookup_insert_ne by congruence. reflexivity. }
  cbv beta. rewrite sum_swap. apply sum_ext_in. intros m _.
  rewrite sum_times. apply sum_ext_in. intros a _. lia.
Qed.

(** The product of a dense tensor with a matrix along axis [k]. *)
Definition mode_product (t : torch.Tensor) (k : nat) (mat : torch.Tensor) : torch.Tensor :=
  torch.tabulate (<[k := nth 0 (torch.shape mat) 0]> (torch.shape t))
    (fun idx =>
       fold_right Z.add 0%Z
         (map (fun m => (torch.get mat [nth k idx 0%nat; m]
                         * torch.get t (<[k := m]> idx))%Z)
            (range (nth 1 (torch.shape mat) 0)))).

Lemma full_tabulate (x : Tucker.t) :
  well_formed x → conformable x → 1 ≤ Tucker.ndim x → Tucker.ndim x ≤ 26 →
  Tucker.full x
  = Ok (torch.tabulate (map (rows x) (range (Tucker.ndim x)))
          (tucker_sum (Tucker.core x) (factor_of x) (Tucker.ndim x))).
Proof.
  intros Hwf Hc H1 Hd.
  eassert (H0 : Tucker.full x = Ok _).
  { unfold Tucker.full, range.
    rewrite (full_loop_spec x (Tucker.ndim x) 0) by (try assumption; cbn; try lia; reflexivity).
    cbn [mbind result_bind Tucker.factor_letters Tucker.tensor_letters Tucker.full_factors app].
    unfold PyTorchBackend.einsum. cbn [mapM id mbind option_bind].
    rewrite mapM_some. cbn [mbind option_bind mret option_ret].
    apply (full_einsum x Hc H1 Hd). }
  match type of H0 with _ = Ok (torch.tabulate _ ?f) => set (f0 := f) in * end.
  destruct (full_value x Hwf Hc H1 Hd) as (t & Hfull & _ & Hentries).
  rewrite H0 in Hfull. injection Hfull as <-. rewrite H0. f_equal.
  apply tabulate_ext. intros idx Hidx.
  rewrite <- (get_tabulate _ f0 idx Hidx). exact (Hentries idx Hidx).
Qed.

(** The tensor [symmetric_modes_product] builds. *)
Definition with_shared (x : Tucker.t) (S' : torch.Tensor) : Tucker.t :=
  Tucker.mk (Tucker.core x) (Tucker.common_factors x) (Tucker.symmetric_modes x) (Some S').

(** The factors and sizes when the shared factor has been replaced on
    the modes of [l] only. *)
Definition partly (x : Tucker.t) (S' : torch.Tensor) (l : list Z) (i : nat) : torch.Tensor :=
  if py_in (Z.of_nat i) l then S' else factor_of x i.

Definition part_shape (x : Tucker.t) (p : nat) (l : list Z) : list nat :=
  map (fun i => if py_in (Z.of_nat i) l then p else rows x i) (range (Tucker.ndim x)).

Lemma factor_of_symmetric (x : Tucker.t) (S : torch.Tensor) (i : nat) :
  Tucker.symmetric_factor x = Some S →
  py_in (Z.of_nat i) (Tucker.symmetric_modes x) = true → factor_of x i = S.
Proof. intros HS Hin. unfold factor_of, mode_factor. rewrite Hin, HS. reflexivity. Qed.

Lemma factor_of_with_shared (x : Tucker.t) (S' : torch.Tensor) (i : nat) :
  factor_of (with_shared x S') i = partly x S' (Tucker.symmetric_modes x) i.
Proof.
  unfold partly, factor_of, mode_factor, with_shared, common_index.
  cbn [Tucker.symmetric_modes Tucker.symmetric_factor Tucker.common_factors].
  destruct (py_in (Z.of_nat i) (Tucker.symmetric_modes x)); reflexivity.
Qed.

Lemma py_in_cons (k s : Z) (l : list Z) : py_in k (s :: l) = (k =? s)%Z || py_in k l.
Proof. reflexivity. Qed.

Lemma part_shape_cons (x : Tucker.t) (p : nat) (s : Z) (l : list Z) :
  (0 ≤ s < Z.of_nat (Tucker.ndim x))%Z →
  <[Z.to_nat s := p]> (part_shape x p l) = part_shape x p (s :: l).
Proof.
  intros Hs. apply list_eq. intros i. unfold part_shape, range.
  destruct (Nat.lt_ge_cases i (Tucker.ndim x)) as [Hi|Hi].
  - rewrite (lookup_map_seq _ 0 _ i Hi). cbn [Nat.add]. rewrite py_in_cons.
    destruct (decide (i = Z.to_nat s)) as [->|Hne].
    + rewrite list_lookup_insert_eq by (rewrite length_map, length_seq; lia).
      rewrite Z2Nat.id, Z.eqb_refl by lia. reflexivity.
    + rewrite list_lookup_insert_ne by congruence.
      rewrite (lookup_map_seq _ 0 _ i Hi). cbn [Nat.add].
      destruct (Z.eqb_spec (Z.of_nat i) s) as [?|_]; [lia | reflexivity].
  - rewrite !lookup_ge_None_2; [reflexivity | |];
      rewrite ?length_insert, length_map, length_seq; exact Hi.
Qed.

Lemma fold_mode_products (x : Tucker.t) (S S' mat : torch.Tensor) (p n r : nat)
  (l : list Z) :
  well_formed x → conformable x →
  Tucker.symmetric_factor x = Some S → torch.shape S = [n; r] →
  torch.shape mat = [p; n] → torch.matmul mat S = Ok S' →
  NoDup l → (∀ s, s ∈ l → s ∈ Tucker.symmetric_modes x) →
  foldr (fun s acc => mode_product acc (Z.to_nat s) mat)
    (torch.tabulate (map (rows x) (range (Tucker.ndim x)))
       (tucker_sum (Tucker.core x) (factor_of x) (Tucker.ndim x))) l
  = torch.tabulate (part_shape x p l)
      (tucker_sum (Tucker.core x) (partly x S' l) (Tucker.ndim x)).
Proof.
  intros Hwf Hc HS Hshape Hmat Hprod Hnd Hsub.
  induction l as [|s l IH]; [reflexivity|].
  apply NoDup_cons in Hnd as [Hs Hnd].
  cbn [foldr]. rewrite IH by (try assumption; intros s' Hs'; apply Hsub; right; exact Hs').
  clear IH.
  assert (Hsym : s ∈ Tucker.symmetric_modes x) by (apply Hsub; left).
  assert (Hrange : (0 ≤ s < Z.of_nat (Tucker.ndim x))%Z).
  { destruct Hwf as (_ & Hr & _). rewrite Forall_forall in Hr. apply Hr, Hsym. }
  set (k := Z.to_nat s).
  assert (Hk : k < Tucker.ndim x) by lia.
  assert (Hks : Z.of_nat k = s) by lia.
  assert (Hin : py_in (Z.of_nat k) (Tucker.symmetric_modes x) = true)
    by (rewrite Hks; apply py_in_spec, Hsym).
  assert (Hnotin : py_in (Z.of_nat k) l = false) by (rewrite Hks; apply py_in_false, Hs).
  assert (Hfk : factor_of x k = S) by (apply factor_of_symmetric; assumption).
  assert (Hrk : rows x k = n) by (unfold rows; rewrite Hfk, Hshape; reflexivity).
  assert (Hr : nth k (torch.shape (Tucker.core x)) 0 = r).
  { pose proof (factor_shape x k Hc Hk) as H. rewrite Hfk, Hshape in H.
    injection H as _ H. symmetry. exact H. }
  unfold mode_product.
  change (torch.shape (torch.tabulate (part_shape x p l)
            (tucker_sum (Tucker.core x) (partly x S' l) (Tucker.ndim x))))
    with (part_shape x p l).
  rewrite Hmat. cbn [nth].
  unfold k at 1. rewrite (part_shape_cons x p s l Hrange). fold k.
  apply tabulate_ext. intros idx Hidx.
  assert (Hlen : length idx = Tucker.ndim x).
  { rewrite (Forall2_length _ _ _ Hidx). unfold part_shape, range.
    rewrite length_map, length_seq. reflexivity. }
  assert (Hlk : part_shape x p l !! k = Some n).
  { unfold part_shape, range. rewrite (lookup_map_seq _ 0 _ k Hk). cbn [Nat.add].
    rewrite Hnotin, Hrk. reflexivity. }
  assert (Hpk : nth k idx 0 < p).
  { pose proof (Forall2_lt_nth idx _ k Hidx) as H.
    rewrite <- (part_shape_cons x p s l Hrange) in H. fold k in H.
    rewrite length_insert in H.
    assert (Hl : k < length (part_shape x p l))
      by (unfold part_shape, range; rewrite length_map, length_seq; exact Hk).
    specialize (H Hl).
    rewrite (nth_lookup_Some _ _ 0 _ (list_lookup_insert_eq _ k p Hl)) in H. exact H. }
  rewrite (tucker_sum_update (Tucker.core x) (partly x S' l) (partly x S' (s :: l))
             (Tucker.ndim x) k p n mat idx Hk eq_refl Hmat).
  - apply sum_ext_in. intros m Hm. apply in_seq in Hm. f_equal.
    apply get_tabulate.
    replace (part_shape x p l) with (<[k := n]> (part_shape x p (s :: l))).
    + apply Forall2_insert; [exact Hidx | lia].
    + rewrite <- (part_shape_cons x p s l Hrange). fold k.
      rewrite list_insert_insert_eq. apply list_insert_id, Hlk.
  - unfold partly. rewrite Hnotin, Hfk, Hshape, Hr. reflexivity.
  - unfold partly. rewrite Hnotin, Hfk, py_in_cons, Hks, Z.eqb_refl. exact Hprod.
  - intros i Hne. unfold partly. rewrite py_in_cons.
    destruct (Z.eqb_spec (Z.of_nat i) s) as [?|_]; [lia | reflexivity].
  - exact Hlen.
  - exact Hpk.
Qed.

Lemma with_shared_well_formed (x : Tucker.t) (S' : torch.Tensor) :
  well_formed x → is_matrix S' → well_formed (with_shared x S').
Proof.
  intros (Hnd & Hrange & Hlen & Hmat & _) HS'.
  repeat split; try assumption. exists S'. split; [reflexivity | exact HS'].
Qed.

Lemma with_shared_conformable (x : Tucker.t) (S S' : torch.Tensor) (p n r : nat) :
  conformable x → Tucker.symmetric_factor x = Some S →
  torch.shape S = [n; r] → torch.shape S' = [p; r] →
  conformable (with_shared x S').
Proof.
  intros Hc HS Hshape Hshape' i Hi.
  change (Tucker.ndim (with_shared x S')) with (Tucker.ndim x) in Hi.
  change (Tucker.rank (with_shared x S')) with (Tucker.rank x).
  rewrite factor_of_with_shared. unfold partly.
  destruct (py_in (Z.of_nat i) (Tucker.symmetric_modes x)) eqn:Hin; [|apply Hc, Hi].
  pose proof (factor_shape x i Hc Hi) as H.
  rewrite (factor_of_symmetric x S i HS Hin), Hshape in H. injection H as _ <-.
  exists p. exact Hshape'.
Qed.

Lemma symmetric_modes_product_run (σ : gmap Tucker.loc Tucker.t) (self : Tucker.loc)
  (x : Tucker.t) (S S' mat : torch.Tensor) :
  σ !! self = Some x → Tucker.symmetric_factor x = Some S →
  torch.matmul mat S = Ok S' →
  Tucker.symmetric_modes_product self mat σ
  = (Ok (fresh (dom σ)), <[fresh (dom σ) := with_shared x S']> σ).
Proof.
  intros Hself HS Hprod. unfold Tucker.symmetric_modes_product.
  rewrite run_bind, (deepcopy_ok σ self x S Hself HS).
  rewrite run_bind, (run_load _ (fresh (dom σ)) x (lookup_insert_eq σ _ x)).
  rewrite run_bind. unfold Tucker.lift. rewrite HS. cbn [torch.matmul_slot].
  rewrite Hprod. rewrite run_bind. unfold Tucker.store.
  rewrite insert_insert_eq. reflexivity.
Qed.

(** X21.  [symmetric_modes_product] acts on the dense form as the
    product with [mat] along every symmetric mode.  For a well-formed
    tensor of order 1 to 26 with matching ranks, shared factor of shape
    [n x r] and [mat] of shape [p x n]: the call returns a new tensor,
    [full] returns on both, and the dense form of the new tensor is
    obtained from the old one by taking, for each symmetric mode [s] in
    turn, the product along axis [s] with [mat] (entry [idx] of the
    product is the sum over [m < n] of [mat[idx_s, m]] times the entry
    at [idx] with position [s] replaced by [m]). *)
Theorem symmetric_modes_product_dense (σ : gmap Tucker.loc Tucker.t)
  (self : Tucker.loc) (x : Tucker.t) (S mat : torch.Tensor) (p n r : nat) :
  σ !! self = Some x → well_formed x → conformable x →
  1 ≤ Tucker.ndim x → Tucker.ndim x ≤ 26 →
  Tucker.symmetric_factor x = Some S →
  torch.shape S = [n; r] → torch.shape mat = [p; n] →
  ∃ new y t t',
    Tucker.symmetric_modes_product self mat σ = (Ok new, <[new := y]> σ)
    ∧ σ !! new = None
    ∧ Tucker.full x = Ok t ∧ Tucker.full y = Ok t'
    ∧ t' = foldr (fun s acc => mode_product acc (Z.to_nat s) mat) t
             (Tucker.symmetric_modes x).
Proof.
  intros Hself Hwf Hc H1 Hd HS Hshape Hmat.
  pose proof (matmul_matrix mat S p n n r Hmat Hshape) as Hprod.
  destruct (decide (n = n)) as [_|?]; [|contradiction].
  destruct Hprod as (S' & Hprod & Hshape').
  set (y := with_shared x S').
  assert (Hwfy : well_formed y).
  { apply with_shared_well_formed; [exact Hwf|]. unfold is_matrix. rewrite Hshape'. reflexivity. }
  assert (Hcy : conformable y)
    by (apply (with_shared_conformable x S S' p n r); assumption).
  eexists (fresh (dom σ)), y, _, _.
  split; [apply (symmetric_modes_product_run σ self x S S' mat); assumption|].
  split; [apply fresh_address|].
  split; [apply (full_tabulate x Hwf Hc H1 Hd)|].
  split; [apply (full_tabulate y Hwfy Hcy H1 Hd)|].
  change (Tucker.ndim y) with (Tucker.ndim x).
  change (Tucker.core y) with (Tucker.core x).
  rewrite (fold_mode_products x S S' mat p n r (Tucker.symmetric_modes x)
             Hwf Hc HS Hshape Hmat Hprod);
    [| destruct Hwf as (Hnd & _); exact Hnd | intros s Hs; exact Hs].
  replace (map (rows y) (range (Tucker.ndim x)))
    with (part_shape x p (Tucker.symmetric_modes x)).
  - apply tabulate_ext. intros idx _. apply tucker_sum_ext. intros i _.
    apply factor_of_with_shared.
  - unfold part_shape. apply map_ext. intros i. unfold rows at 2, y.
    rewrite factor_of_with_shared. unfold partly.
    destruct (py_in (Z.of_nat i) (Tucker.symmetric_modes x)); [|reflexivity].
    rewrite Hshape'. reflexivity.
Qed.

Lemma symmetric_modes_product_dense_witness :
  ∃ new y t',
    Tucker.symmetric_modes_product 1%positive row2 store1 = (Ok new, <[new := y]> store1)
    ∧ Tucker.full stored = Ok (torch.mkTensor [3; 2] [3; 2; 7; 4; 10; 6]%Z)
    ∧ Tucker.full y = Ok t'
    ∧ t' = torch.mkTensor [3; 1] [5; 11; 16]%Z.
Proof.
  destruct (symmetric_modes_product_dense store1 1%positive stored
              (torch.mkTensor [2; 2] [1; 1; 0; 1]%Z) row2 1 2 2
              eq_refl stored_well_formed stored_conformable
              ltac:(cbn; lia) ltac:(cbn; lia) eq_refl eq_refl eq_refl)
    as (new & y & t & t' & Hrun & _ & Hfull & Hfull' & Ht').
  exists new, y, t'. split; [exact Hrun|]. split; [reflexivity|].
  split; [exact Hfull'|].
  rewrite Ht'. vm_compute in Hfull. injection Hfull as <-. reflexivity.
Defined.

(** ** [PyTorchBackend.transpose] *)

Lemma rev_range_S (n : nat) : rev (range (S n)) = n :: rev (range n).
Proof. unfold range. rewrite seq_S, rev_app_distr. reflexivity. Qed.

Lemma position_rev_range (n j : nat) :
  j < n → torch.position j (rev (range n)) = n - 1 - j.
Proof.
  induction n as [|n IH]; intros Hj; [lia|].
  rewrite rev_range_S. cbn [torch.position].
  destruct (Nat.eqb_spec n j) as [->|Hne]; [lia|].
  rewrite IH by lia. lia.
Qed.

Lemma map_nth_range {A} (l : list A) (d : A) :
  map (fun j => nth j l d) (range (length l)) = l.
Proof.
  unfold range. apply (nth_ext _ _ d d).
  - rewrite length_map, length_seq. reflexivity.
  - intros i Hi. rewrite length_map, length_seq in Hi.
    rewrite (nth_lookup_Some _ _ d _ (lookup_map_seq (fun j => nth j l d) 0 _ i Hi)).
    reflexivity.
Qed.

Lemma is_permutation_rev_range (n : nat) : torch.is_permutation (rev (range n)) n = true.
Proof.
  unfold torch.is_permutation. apply andb_true_iff. split.
  - apply Nat.eqb_eq. unfold range. rewrite length_rev, length_seq. reflexivity.
  - apply forallb_forall. intros j Hj. apply existsb_exists. exists j.
    split; [apply in_rev; rewrite rev_involutive; exact Hj | apply Nat.eqb_refl].
Qed.

Lemma permute_reversed (t : torch.Tensor) :
  torch.permute t (rev (range (torch.ndim t))) = Ok (torch.T t).
Proof.
  unfold torch.permute. rewrite is_permutation_rev_range. f_equal. unfold torch.T.
  replace (map (fun d => nth d (torch.shape t) 0) (rev (range (torch.ndim t))))
    with (rev (torch.shape t))
    by (rewrite map_rev; unfold torch.ndim; rewrite map_nth_range; reflexivity).
  apply tabulate_ext. intros idx Hidx. f_equal.
  assert (Hlen : length idx = torch.ndim t).
  { rewrite (Forall2_length _ _ _ Hidx), length_rev. reflexivity. }
  transitivity (map (fun j => nth j (rev idx) 0) (range (length (rev idx))));
    [|apply map_nth_range].
  rewrite length_rev, Hlen.
  apply map_ext_in. intros j Hj. apply in_seq in Hj.
  rewrite position_rev_range by lia.
  rewrite rev_nth by lia. f_equal. lia.
Qed.

(** X23.  [transpose] without axes reverses all axes of a tensor of
    order 1 or more: it returns [tensor.T], the tensor of reversed
    shape whose entry at [idx] is the entry of the argument at the
    reversed index.  Because the default is taken with [axes or ...],
    an empty list of axes is treated like [None] and gives the same
    result instead of being passed to [permute].  On a tensor of order
    0 the default list of axes is empty as well and the call raises. *)
Theorem transpose_default_reverses_axes (t : torch.Tensor) :
  (0 < torch.ndim t →
   PyTorchBackend.transpose t None = Ok (torch.T t)
   ∧ PyTorchBackend.transpose t (Some []) = Ok (torch.T t)
   ∧ torch.shape (torch.T t) = rev (torch.shape t)
   ∧ ∀ idx, Forall2 lt idx (rev (torch.shape t)) →
       torch.get (torch.T t) idx = torch.get t (rev idx))
  ∧ (torch.ndim t = 0 →
     ∃ e, PyTorchBackend.transpose t None = Raise e
          ∧ PyTorchBackend.transpose t (Some []) = Raise e).
Proof.
  assert (Hdef : 0 < torch.ndim t →
                 PyTorchBackend.transpose t None = Ok (torch.T t)).
  { intros Hpos. unfold PyTorchBackend.transpose.
    rewrite <- permute_reversed.
    destruct (torch.ndim t) as [|n]; [lia|].
    rewrite rev_range_S. reflexivity. }
  split.
  - intros Hpos. split; [apply Hdef, Hpos|]. split; [apply Hdef, Hpos|].
    split; [reflexivity|]. intros idx Hidx.
    exact (get_tabulate _ (fun i => torch.get t (rev i)) idx Hidx).
  - intros Hzero. exists TypeError. unfold PyTorchBackend.transpose.
    rewrite Hzero. split; reflexivity.
Qed.

Lemma transpose_default_reverses_axes_witness :
  PyTorchBackend.transpose mat23 None
  = Ok (torch.mkTensor [3; 2] [1; 4; 2; 5; 3; 6]%Z)
  ∧ ∃ e, PyTorchBackend.transpose (torch.mkTensor [] [7%Z]) None = Raise e.
Proof.
  split.
  - destruct (transpose_default_reverses_axes mat23) as [H _].
    destruct (H ltac:(cbn; lia)) as (Hrun & _). rewrite Hrun. reflexivity.
  - destruct (transpose_default_reverses_axes (torch.mkTensor [] [7%Z])) as [_ H].
    destruct (H eq_refl) as (e & He & _). exists e. exact He.
Defined.

(** ** [flat_inner] when every mode is symmetric *)

Lemma einsum_full_equation (x : Tucker.t) :
  well_formed x → conformable x → 1 ≤ Tucker.ndim x → Tucker.ndim x ≤ 26 →
  torch.einsum (full_equation (Tucker.ndim x))
    (Tucker.core x :: map (factor_of x) (range (Tucker.ndim x)))
  = Ok (torch.tabulate (map (rows x) (range (Tucker.ndim x)))
          (tucker_sum (Tucker.core x) (factor_of x) (Tucker.ndim x))).
Proof.
  intros Hwf Hc H1 Hd. rewrite <- (full_tabulate x Hwf Hc H1 Hd). symmetry.
  unfold Tucker.full, range.
  rewrite (full_loop_spec x (Tucker.ndim x) 0) by (try assumption; cbn; try lia; reflexivity).
  cbn [mbind result_bind Tucker.factor_letters Tucker.tensor_letters Tucker.full_factors app].
  unfold PyTorchBackend.einsum. cbn [mapM id mbind option_bind].
  rewrite mapM_some. reflexivity.
Qed.

Lemma str_index_core_letter (d i : nat) :
  i < d → d ≤ 52 → str_index (str_slice ascii_letters 0 d) i = Ok (letter i).
Proof.
  intros Hi Hd. unfold str_index, str_slice.
  change (String.length ascii_letters) with 52.
  rewrite String.substring_correct1 by lia.
  rewrite Nat.add_0_r. apply (str_index_letter i). lia.
Qed.

(** The subscripts [flat_inner] gives to the factor of a symmetric
    mode. *)
Definition factor_word (d i : nat) : string :=
  Tucker.two_letters (letter (d + i)) (letter i).

Lemma flat_inner_loop_symmetric (x z : Tucker.t) (G : torch.Tensor) (n a : nat)
  (p : Tucker.inner_plan) :
  (∀ i, i < Tucker.ndim x → py_in (Z.of_nat i) (Tucker.symmetric_modes x) = true) →
  a + n ≤ Tucker.ndim x → Tucker.ndim x ≤ 26 →
  Tucker.flat_inner_loop x z G (str_slice ascii_letters 0 (Tucker.ndim x)) (seq a n) p
  = Ok (Tucker.mk_inner_plan
          (Tucker.factors p ++ replicate n (Some G))
          (Tucker.factors_letters p ++ map (factor_word (Tucker.ndim x)) (seq a n))
          (Tucker.transposed_factors p)
          (Tucker.transposed_letters p)
          (Tucker.intermediate_core_letters p
           ++ out_subscripts (Tucker.ndim x) (seq a n))
          (Tucker.cur_common_mode p)).
Proof.
  intros Hsym. revert a p. induction n as [|n IH]; intros a p Ha Hd.
  - cbn [seq Tucker.flat_inner_loop replicate map out_subscripts].
    rewrite !app_nil_r. destruct p; reflexivity.
  - cbn [seq Tucker.flat_inner_loop].
    rewrite (str_index_letter (Tucker.ndim x + a)) by lia. cbn [mbind result_bind].
    rewrite (str_index_core_letter (Tucker.ndim x) a) by lia. cbn [mbind result_bind].
    rewrite (Hsym a) by lia.
    rewrite IH by lia.
    cbn [Tucker.factors Tucker.factors_letters Tucker.transposed_factors
           Tucker.transposed_letters Tucker.intermediate_core_letters
           Tucker.cur_common_mode replicate map out_subscripts].
    rewrite <- !app_assoc. reflexivity.
Qed.

Definition flat_equation (d : nat) : string :=
  join "," (str_slice ascii_letters 0 d :: map (factor_word d) (range d))
  +:+ "->" +:+ str_of_chars (out_subscripts d (range d)).

Lemma flat_equation_is_full_equation (d : nat) :
  1 ≤ d → d ≤ 26 → flat_equation d = full_equation d.
Proof.
  intros H1 H26.
  do 27 (destruct d as [|d]; [first [lia | vm_compute; reflexivity] |]).
  lia.
Qed.

Lemma map_const_range {A} (g : nat -> A) (c : A) (n : nat) :
  (∀ i, i < n → g i = c) → map g (range n) = replicate n c.
Proof.
  intros H. unfold range. induction n as [|n IH]; [reflexivity|].
  rewrite seq_S, map_app, IH by (intros i Hi; apply H; lia).
  cbn [map Nat.add]. rewrite H by lia.
  clear. induction n as [|n IH]; [reflexivity|]. cbn. rewrite IH. reflexivity.
Qed.

Lemma mapM_id_replicate {A} (n : nat) (a : A) :
  mapM id (replicate n (Some a)) = Some (replicate n a).
Proof. induction n as [|n IH]; [reflexivity|]. cbn. rewrite IH. reflexivity. Qed.

(** *** Elementwise product and sum of tensors of one shape *)

Lemma broadcast_rev_same (l : list nat) : torch.broadcast_rev l l = Ok l.
Proof.
  induction l as [|a l IH]; [reflexivity|].
  cbn [torch.broadcast_rev]. rewrite IH. cbn [mbind result_bind].
  rewrite Nat.eqb_refl. reflexivity.
Qed.

Lemma bcast_idx_same (sh idx : list nat) :
  Forall2 lt idx sh → torch.bcast_idx sh idx = idx.
Proof.
  intros H. unfold torch.bcast_idx.
  rewrite (Forall2_length _ _ _ H), Nat.sub_diag.
  change (drop 0 idx) with idx.
  induction H as [|i n idx sh Hi _ IH]; [reflexivity|].
  cbn [zip_with]. rewrite IH, stretched by exact Hi. reflexivity.
Qed.

Lemma mul_same_shape (a b : torch.Tensor) :
  torch.shape a = torch.shape b →
  torch.mul a b
  = Ok (torch.tabulate (torch.shape a)
          (fun idx => (torch.get a idx * torch.get b idx)%Z)).
Proof.
  intros Hsh. unfold torch.mul, torch.broadcast_shapes. rewrite <- Hsh.
  rewrite broadcast_rev_same. cbn [mbind result_bind]. rewrite rev_involutive.
  f_equal. apply tabulate_ext. intros idx Hidx.
  rewrite (bcast_idx_same _ _ Hidx). reflexivity.
Qed.

Lemma sum_tabulate (sh : list nat) (h : list nat -> Z) :
  torch.sum (torch.tabulate sh h)
  = torch.mkTensor [] [fold_right Z.add 0%Z (map h (torch.indices sh))].
Proof. reflexivity. Qed.

(** With every mode symmetric, the contraction of [flat_inner] is the
    one [full] performs, with [other.symmetric_factor.T @
    self.symmetric_factor] in the place of the shared factor. *)
Lemma flat_inner_symmetric_value (x z : Tucker.t) (Sx Sz : torch.Tensor) (n r q : nat) :
  well_formed x → conformable x →
  Tucker.symmetric_modes x = Tucker.symmetric_modes z →
  (∀ i, i < Tucker.ndim x → py_in (Z.of_nat i) (Tucker.symmetric_modes x) = true) →
  1 ≤ Tucker.ndim x → Tucker.ndim x ≤ 26 →
  Tucker.symmetric_factor x = Some Sx → Tucker.symmetric_factor z = Some Sz →
  torch.shape Sx = [n; r] → torch.shape Sz = [n; q] →
  torch.shape (Tucker.core z) = replicate (Tucker.ndim x) q →
  ∃ G, torch.matmul (torch.T Sz) Sx = Ok G
       ∧ torch.shape G = [q; r]
       ∧ Tucker.flat_inner x z
         = Ok (Tucker.Dense
                 (torch.mkTensor []
                    [fold_right Z.add 0%Z
                       (map (fun b =>
                               (tucker_sum (Tucker.core x) (fun _ => G) (Tucker.ndim x) b
                                * torch.get (Tucker.core z) b)%Z)
                          (torch.indices (torch.shape (Tucker.core z))))])).
Proof.
  intros Hwf Hc Hmodes Hsym H1 Hd HSx HSz Hshx Hshz Hcz.
  assert (HT : torch.shape (torch.T Sz) = [q; n])
    by (unfold torch.T; cbn [torch.tabulate torch.shape]; rewrite Hshz; reflexivity).
  pose proof (matmul_matrix (torch.T Sz) Sx q n n r HT Hshx) as Hprod.
  destruct (decide (n = n)) as [_|?]; [|contradiction].
  destruct Hprod as (G & HG & HshG).
  exists G. split; [exact HG|]. split; [exact HshG|].
  set (x' := with_shared x G).
  assert (Hwf' : well_formed x').
  { apply with_shared_well_formed; [exact Hwf|]. unfold is_matrix. rewrite HshG. reflexivity. }
  assert (Hc' : conformable x')
    by (apply (with_shared_conformable x Sx G q n r); assumption).
  assert (HF : ∀ i, i < Tucker.ndim x → factor_of x' i = G).
  { intros i Hi. unfold x'. rewrite factor_of_with_shared. unfold partly.
    rewrite (Hsym i Hi). reflexivity. }
  assert (Hrows : map (rows x') (range (Tucker.ndim x)) = torch.shape (Tucker.core z)).
  { rewrite Hcz. apply map_const_range. intros i Hi. unfold rows.
    rewrite (HF i Hi), HshG. reflexivity. }
  unfold Tucker.flat_inner.
  destruct (decide _) as [?|_]; [contradiction|].
  rewrite HSz, HSx, HG. cbn [mbind result_bind]. unfold range.
  rewrite (flat_inner_loop_symmetric x z G (Tucker.ndim x) 0) by (try assumption; lia).
  cbn [mbind result_bind Tucker.factors Tucker.factors_letters Tucker.transposed_factors
         Tucker.transposed_letters Tucker.intermediate_core_letters app].
  rewrite !app_nil_r.
  change (join "," _ +:+ "->" +:+ _) with (flat_equation (Tucker.ndim x)).
  rewrite (flat_equation_is_full_equation _ H1 Hd).
  unfold PyTorchBackend.einsum. cbn [mapM id mbind option_bind].
  rewrite mapM_id_replicate. cbn [mbind option_bind mret option_ret].
  replace (Tucker.core x :: replicate (Tucker.ndim x) G)
    with (Tucker.core x' :: map (factor_of x') (range (Tucker.ndim x')))
    by (f_equal; apply map_const_range; exact HF).
  change (Tucker.ndim x) with (Tucker.ndim x') at 1.
  rewrite (einsum_full_equation x' Hwf' Hc' H1 Hd). cbn [mbind result_bind].
  change (Tucker.ndim x') with (Tucker.ndim x). change (Tucker.core x') with (Tucker.core x).
  rewrite Hrows.
  rewrite mul_same_shape by reflexivity. cbn [mbind result_bind].
  change (torch.shape (torch.tabulate (torch.shape (Tucker.core z)) _))
    with (torch.shape (Tucker.core z)).
  rewrite sum_tabulate. do 3 f_equal. apply (f_equal (fun v => [v])).
  apply sum_ext_in. intros b Hb.
  apply indices_in_range in Hb. rewrite get_tabulate by exact Hb. f_equal.
  apply tucker_sum_ext. exact HF.
Qed.

(** *** The algebra of the inner product *)

Lemma prod_mul {A} (u v : A -> Z) (l : list A) :
  fold_right Z.mul 1%Z (map (fun i => (u i * v i)%Z) l)
  = (fold_right Z.mul 1%Z (map u l) * fold_right Z.mul 1%Z (map v l))%Z.
Proof. induction l as [|i l IH]; cbn [map fold_right]; [lia|]. rewrite IH. lia. Qed.

Lemma sum_mul_sum {A B} (u : A -> Z) (v : B -> Z) (la : list A) (lb : list B) :
  (fold_right Z.add 0%Z (map u la) * fold_right Z.add 0%Z (map v lb))%Z
  = fold_right Z.add 0%Z
      (map (fun a => fold_right Z.add 0%Z (map (fun b => (u a * v b)%Z) lb)) la).
Proof.
  induction la as [|a la IH]; cbn [map fold_right]; [lia|].
  rewrite <- IH, <- sum_times. lia.
Qed.

(** A sum over all multi-indices of a product with one factor per
    axis is the product of the sums over the axes. *)
Lemma sum_prod_indices (ns : list nat) (h : nat -> nat -> Z) :
  fold_right Z.add 0%Z
    (map (fun idx => fold_right Z.mul 1%Z
                       (map (fun i => h i (nth i idx 0)) (range (length ns))))
       (torch.indices ns))
  = fold_right Z.mul 1%Z
      (map (fun i => fold_right Z.add 0%Z (map (h i) (range (nth i ns 0))))
         (range (length ns))).
Proof.
  revert h. induction ns as [|n ns IH]; intros h; [reflexivity|].
  cbn [torch.indices length]. unfold range in *. cbn [seq]. rewrite <- seq_shift.
  cbn [map fold_right nth]. rewrite !map_map. cbn [nth].
  rewrite <- (IH (fun i => h (S i))). rewrite sum_flat_map, sum_mul_sum.
  apply sum_ext_in. intros j _. rewrite map_map.
  apply sum_ext_in. intros idx _. cbn [nth]. rewrite map_map. reflexivity.
Qed.

Lemma nth_replicate_lt {A} (d i : nat) (c dflt : A) :
  i < d → nth i (replicate d c) dflt = c.
Proof.
  intros Hi. apply nth_lookup_Some with (d := dflt) (i := i) (l := replicate d c).
  apply lookup_replicate_2, Hi.
Qed.

Lemma sum_prod_indices_replicate (d n : nat) (h : nat -> nat -> Z) :
  fold_right Z.add 0%Z
    (map (fun idx => fold_right Z.mul 1%Z (map (fun i => h i (nth i idx 0)) (range d)))
       (torch.indices (replicate d n)))
  = fold_right Z.mul 1%Z
      (map (fun i => fold_right Z.add 0%Z (map (h i) (range n))) (range d)).
Proof.
  pose proof (sum_prod_indices (replicate d n) h) as H.
  rewrite length_replicate in H. rewrite H. apply prod_ext_in.
  intros i Hi. apply in_seq in Hi. rewrite nth_replicate_lt by lia. reflexivity.
Qed.

(** The entries of [other.symmetric_factor.T @ self.symmetric_factor]. *)
Lemma gram_entry (Sx Sz G : torch.Tensor) (n r q i j : nat) :
  torch.shape Sx = [n; r] → torch.shape Sz = [n; q] →
  torch.matmul (torch.T Sz) Sx = Ok G → i < q → j < r →
  torch.get G [i; j]
  = fold_right Z.add 0%Z
      (map (fun k => (torch.get Sx [k; j] * torch.get Sz [k; i])%Z) (range n)).
Proof.
  intros Hshx Hshz HG Hi Hj.
  assert (HT : torch.shape (torch.T Sz) = [q; n])
    by (unfold torch.T; cbn [torch.tabulate torch.shape]; rewrite Hshz; reflexivity).
  rewrite (matmul_entry (torch.T Sz) Sx G q n r i j HT Hshx HG Hi Hj).
  apply sum_ext_in. intros k Hk. apply in_seq in Hk.
  rewrite Z.mul_comm. f_equal. unfold torch.T.
  rewrite get_tabulate; [reflexivity|].
  rewrite Hshz. cbn [rev app]. repeat constructor; lia.
Qed.

Lemma inner_product_algebra (Cx Cz Sx Sz G : torch.Tensor) (d n r q : nat) :
  torch.shape Cx = replicate d r → torch.shape Cz = replicate d q →
  torch.shape Sx = [n; r] → torch.shape Sz = [n; q] →
  torch.matmul (torch.T Sz) Sx = Ok G →
  fold_right Z.add 0%Z
    (map (fun b => (tucker_sum Cx (fun _ => G) d b * torch.get Cz b)%Z)
       (torch.indices (torch.shape Cz)))
  = fold_right Z.add 0%Z
      (map (fun idx => (tucker_sum Cx (fun _ => Sx) d idx
                        * tucker_sum Cz (fun _ => Sz) d idx)%Z)
         (torch.indices (replicate d n))).
Proof.
  intros HCx HCz Hshx Hshz HG. unfold tucker_sum.
  set (Ia := torch.indices (torch.shape Cx)).
  set (Ib := torch.indices (torch.shape Cz)).
  set (PG := fun a b : list nat =>
               fold_right Z.mul 1%Z
                 (map (fun i => torch.get G [nth i b 0; nth i a 0]) (range d))).
  transitivity
    (fold_right Z.add 0%Z
       (map (fun a => fold_right Z.add 0%Z
                        (map (fun b => (torch.get Cx a * torch.get Cz b * PG a b)%Z) Ib))
          Ia)).
  - erewrite sum_ext_in.
    2:{ intros b _. rewrite Z.mul_comm, sum_times. reflexivity. }
    cbv beta. rewrite sum_swap. apply sum_ext_in. intros a _.
    apply sum_ext_in. intros b _. unfold PG. lia.
  - symmetry. erewrite sum_ext_in.
    2:{ intros idx _. rewrite sum_mul_sum. reflexivity. }
    cbv beta. rewrite sum_swap. apply sum_ext_in. intros a Ha.
    rewrite sum_swap. apply sum_ext_in. intros b Hb.
    apply indices_in_range in Ha, Hb. rewrite HCx in Ha. rewrite HCz in Hb.
    erewrite sum_ext_in.
    2:{ intros idx _.
        rewrite <- Z.mul_assoc, (Z.mul_assoc _ (torch.get Cz b)),
          (Z.mul_comm _ (torch.get Cz b)), <- (Z.mul_assoc (torch.get Cz b)),
          <- prod_mul, Z.mul_assoc.
        reflexivity. }
    cbv beta. rewrite <- sum_times.
    rewrite (sum_prod_indices_replicate d n
               (fun i j => (torch.get Sx [j; nth i a 0%nat]
                            * torch.get Sz [j; nth i b 0%nat])%Z)).
    f_equal. unfold PG. apply prod_ext_in. intros i Hi. apply in_seq in Hi. symmetry.
    apply (gram_entry Sx Sz G n r q); try assumption.
    + pose proof (Forall2_lt_nth b _ i Hb) as H. rewrite length_replicate in H.
      rewrite nth_replicate_lt in H by lia. apply H. lia.
    + pose proof (Forall2_lt_nth a _ i Ha) as H. rewrite length_replicate in H.
      rewrite nth_replicate_lt in H by lia. apply H. lia.
Qed.

Lemma replicate_of_nth (l : list nat) (d c : nat) :
  length l = d → (∀ i, i < d → nth i l 0 = c) → l = replicate d c.
Proof.
  intros Hlen H. apply (nth_ext _ _ 0 0).
  - rewrite length_replicate. exact Hlen.
  - intros i Hi. rewrite H by lia. symmetry. apply nth_replicate_lt. lia.
Qed.

Lemma get_scalar (v : Z) : torch.get (torch.mkTensor [] [v]) [] = v.
Proof. reflexivity. Qed.

Lemma shape_tabulate (sh : list nat) (f : list nat -> Z) :
  torch.shape (torch.tabulate sh f) = sh.
Proof. reflexivity. Qed.

(** What [well_formed] and [conformable] say when every mode is
    symmetric. *)
Lemma all_symmetric_shapes (x : Tucker.t) (S : torch.Tensor) (n r : nat) :
  conformable x →
  (∀ i, i < Tucker.ndim x → py_in (Z.of_nat i) (Tucker.symmetric_modes x) = true) →
  Tucker.symmetric_factor x = Some S → torch.shape S = [n; r] →
  (∀ i, i < Tucker.ndim x → factor_of x i = S)
  ∧ map (rows x) (range (Tucker.ndim x)) = replicate (Tucker.ndim x) n
  ∧ torch.shape (Tucker.core x) = replicate (Tucker.ndim x) r.
Proof.
  intros Hc Hsym HS Hshape.
  assert (HF : ∀ i, i < Tucker.ndim x → factor_of x i = S)
    by (intros i Hi; apply factor_of_symmetric; [exact HS | apply Hsym, Hi]).
  split; [exact HF|]. split.
  - apply map_const_range. intros i Hi. unfold rows. rewrite (HF i Hi), Hshape. reflexivity.
  - apply replicate_of_nth; [reflexivity|]. intros i Hi.
    pose proof (factor_shape x i Hc Hi) as H. rewrite (HF i Hi), Hshape in H.
    injection H as _ H. symmetry. exact H.
Qed.

(** X24.  When every mode is symmetric, [flat_inner] is the Frobenius
    inner product of the dense forms.  For two well-formed tensors of
    the same order 1 to 26 whose modes are all symmetric, with matching
    ranks and shared factors with the same number of rows: [full]
    returns on both, the two dense forms have the same shape, and
    [flat_inner] returns a dense tensor of order 0 holding the sum over
    all indices of the product of the two entries. *)
Theorem flat_inner_all_symmetric (x z : Tucker.t) (Sx Sz : torch.Tensor) (n r q : nat) :
  well_formed x → well_formed z → conformable x → conformable z →
  Tucker.symmetric_modes x = Tucker.symmetric_modes z →
  Tucker.ndim z = Tucker.ndim x →
  (∀ i, i < Tucker.ndim x → Z.of_nat i ∈ Tucker.symmetric_modes x) →
  1 ≤ Tucker.ndim x → Tucker.ndim x ≤ 26 →
  Tucker.symmetric_factor x = Some Sx → Tucker.symmetric_factor z = Some Sz →
  torch.shape Sx = [n; r] → torch.shape Sz = [n; q] →
  ∃ X Z v,
    Tucker.full x = Ok X ∧ Tucker.full z = Ok Z
    ∧ torch.shape X = torch.shape Z
    ∧ Tucker.flat_inner x z = Ok (Tucker.Dense v)
    ∧ torch.shape v = []
    ∧ torch.get v []
      = fold_right Z.add 0%Z
          (map (fun idx => (torch.get X idx * torch.get Z idx)%Z)
             (torch.indices (torch.shape X))).
Proof.
  intros Hwfx Hwfz Hcx Hcz Hmodes Hnd Hall H1 Hd HSx HSz Hshx Hshz.
  assert (Hsymx : ∀ i, i < Tucker.ndim x →
                       py_in (Z.of_nat i) (Tucker.symmetric_modes x) = true)
    by (intros i Hi; apply py_in_spec, Hall, Hi).
  assert (Hsymz : ∀ i, i < Tucker.ndim z →
                       py_in (Z.of_nat i) (Tucker.symmetric_modes z) = true)
    by (intros i Hi; rewrite <- Hmodes; apply Hsymx; lia).
  destruct (all_symmetric_shapes x Sx n r Hcx Hsymx HSx Hshx) as (HFx & Hrx & HCx).
  destruct (all_symmetric_shapes z Sz n q Hcz Hsymz HSz Hshz) as (HFz & Hrz & HCz).
  rewrite Hnd in HFz, Hrz, HCz.
  pose proof (full_tabulate x Hwfx Hcx H1 Hd) as HX.
  pose proof (full_tabulate z Hwfz Hcz ltac:(lia) ltac:(lia)) as HZ.
  rewrite Hnd in HZ. rewrite Hrx in HX. rewrite Hrz in HZ.
  destruct (flat_inner_symmetric_value x z Sx Sz n r q Hwfx Hcx Hmodes Hsymx H1 Hd
              HSx HSz Hshx Hshz HCz) as (G & HG & _ & Hflat).
  eexists _, _, _. split; [exact HX|]. split; [exact HZ|]. split; [reflexivity|].
  split; [exact Hflat|]. split; [reflexivity|].
  rewrite get_scalar, shape_tabulate.
  rewrite (inner_product_algebra (Tucker.core x) (Tucker.core z) Sx Sz G
             (Tucker.ndim x) n r q HCx HCz Hshx Hshz HG).
  apply sum_ext_in. intros idx Hidx. apply indices_in_range in Hidx.
  rewrite !get_tabulate by exact Hidx. f_equal; apply tucker_sum_ext.
  - intros i Hi. symmetry. apply HFx, Hi.
  - intros i Hi. symmetry. apply HFz, Hi.
Qed.

(** A tensor of order 2 with both modes symmetric. *)
Definition both_symmetric : Tucker.t :=
  Tucker.mk (torch.mkTensor [2; 2] [1; 2; 3; 4]%Z) [] [0%Z; 1%Z]
    (Some (torch.mkTensor [3; 2] [1; 0; 0; 1; 1; 1]%Z)).

Lemma both_symmetric_well_formed : well_formed both_symmetric.
Proof.
  repeat split; cbn.
  - apply (bool_decide_unpack _). reflexivity.
  - repeat constructor; lia.
  - constructor.
  - eexists. split; reflexivity.
Qed.

Lemma both_symmetric_conformable : conformable both_symmetric.
Proof.
  intros mode Hmode. destruct mode as [|[|mode]]; [eexists; reflexivity ..|].
  cbn in Hmode. lia.
Qed.

Lemma flat_inner_all_symmetric_witness :
  ∃ v, Tucker.flat_inner both_symmetric both_symmetric = Ok (Tucker.Dense v)
       ∧ torch.get v [] = 240%Z.
Proof.
  destruct (flat_inner_all_symmetric both_symmetric both_symmetric
              (torch.mkTensor [3; 2] [1; 0; 0; 1; 1; 1]%Z)
              (torch.mkTensor [3; 2] [1; 0; 0; 1; 1; 1]%Z) 3 2 2
              both_symmetric_well_formed both_symmetric_well_formed
              both_symmetric_conformable both_symmetric_conformable
              eq_refl eq_refl
              ltac:(intros [|[|i]] Hi; cbn in Hi;
                    [apply (bool_decide_unpack _); reflexivity ..| lia])
              ltac:(cbn; lia) ltac:(cbn; lia) eq_refl eq_refl eq_refl eq_refl)
    as (X & Z & v & HX & HZ & _ & Hflat & _ & Hv).
  exists v. split; [exact Hflat|]. rewrite Hv.
  vm_compute in HX, HZ. injection HX as <-. injection HZ as <-. reflexivity.
Defined.

(** ** When [to_regular_tucker] returns *)

Lemma mode_slot_cases (x : Tucker.t) (mode : nat) :
  mode_slot x mode
  = if py_in (Z.of_nat mode) (Tucker.symmetric_modes x)
    then Ok (Tucker.symmetric_factor x)
    else match Tucker.common_factors x !! common_index x mode with
         | Some f => Ok (Some f)
         | None => Raise IndexError
         end.
Proof.
  unfold mode_slot. destruct (py_in _ _); [reflexivity|].
  rewrite common_factor_lookup. destruct (_ !! _); reflexivity.
Qed.

(** X25.  [to_regular_tucker] needs a private factor for every regular
    mode and nothing else: it returns exactly when [common_factors]
    has at least as many entries as there are modes outside
    [symmetric_modes], and raises [IndexError] otherwise.  Neither the
    shapes of the factors nor the presence of the shared factor
    matter. *)
Theorem to_regular_tucker_returns_iff (x : Tucker.t) :
  if decide (common_index x (Tucker.ndim x) ≤ length (Tucker.common_factors x))
  then ∃ r, Tucker.to_regular_tucker x = Ok r
  else Tucker.to_regular_tucker x = Raise IndexError.
Proof.
  unfold Tucker.to_regular_tucker, range.
  change (Tucker.regular_factors_loop x (seq 0 (Tucker.ndim x)) 0)
    with (Tucker.regular_factors_loop x (seq 0 (Tucker.ndim x)) (common_index x 0)).
  rewrite (regular_factors_loop_spec x (Tucker.ndim x) 0).
  destruct (decide _) as [Hle|Hgt].
  - destruct (for_each_total (mode_slot x) (seq 0 (Tucker.ndim x))) as [fs Hfs].
    { intros mode Hmode. apply list_elem_of_In, in_seq in Hmode.
      rewrite mode_slot_cases.
      destruct (py_in (Z.of_nat mode) (Tucker.symmetric_modes x)) eqn:Hin; [eauto|].
      pose proof (common_index_lt x mode (Tucker.ndim x) ltac:(lia) Hin) as Hlt.
      destruct (lookup_lt_is_Some_2 (Tucker.common_factors x) (common_index x mode))
        as [f ->]; [lia | eauto]. }
    rewrite Hfs. eauto.
  - destruct (for_each (mode_slot x) (seq 0 (Tucker.ndim x))) as [fs|e] eqn:E.
    + exfalso. apply Hgt. clear Hgt.
      apply for_each_ok in E.
      assert (H : ∀ m, m ≤ Tucker.ndim x →
                       common_index x m ≤ length (Tucker.common_factors x)).
      { induction m as [|m IH]; intros Hm; [cbn; lia|].
        rewrite common_index_S.
        destruct (py_in (Z.of_nat m) (Tucker.symmetric_modes x)) eqn:Hin;
          [specialize (IH ltac:(lia)); lia|].
        assert (Hm' : seq 0 (Tucker.ndim x) !! m = Some m)
          by (apply lookup_seq; split; [reflexivity | lia]).
        destruct (Forall2_lookup_l _ _ _ _ _ E Hm') as (s & _ & Hs).
        rewrite mode_slot_cases, Hin in Hs.
        destruct (Tucker.common_factors x !! common_index x m) eqn:El; [|discriminate].
        apply lookup_lt_Some in El. lia. }
      apply H. lia.
    + cbn [mbind result_bind]. f_equal.
      apply for_each_raises in E as (mode & _ & E).
      rewrite mode_slot_cases in E.
      destruct (py_in _ _); [discriminate|].
      destruct (_ !! _); [discriminate|]. congruence.
Qed.

(** ** [flat_inner]: one letter for two axes of the result *)

Lemma str_index_letter_inv (k : nat) (c : ascii) :
  str_index ascii_letters k = Ok c → c = letter k.
Proof.
  intros H. pose proof (str_index_lt _ _ _ H) as Hk.
  rewrite (str_index_letter k Hk) in H. congruence.
Qed.

(** The subscript [flat_inner] gives to axis [i] of the intermediate
    core. *)
Definition out_letter (x : Tucker.t) (i : nat) : ascii :=
  if py_in (Z.of_nat i) (Tucker.symmetric_modes x)
  then letter (Tucker.ndim x + i)
  else letter (Tucker.ndim x + 2 * i).

Lemma flat_inner_loop_out (x z : Tucker.t) (sf : torch.Tensor) (cl : string)
  (modes : list nat) (p0 p : Tucker.inner_plan) :
  Tucker.flat_inner_loop x z sf cl modes p0 = Ok p →
  Tucker.intermediate_core_letters p
  = Tucker.intermediate_core_letters p0 ++ map (out_letter x) modes.
Proof.
  revert p0. induction modes as [|i modes IH]; intros p0 H.
  - injection H as <-. rewrite app_nil_r. reflexivity.
  - cbn [Tucker.flat_inner_loop] in H.
    apply bind_ok in H as (xl & Hxl & H). apply bind_ok in H as (c & _ & H).
    apply str_index_letter_inv in Hxl as ->.
    cbn [map]. unfold out_letter at 1.
    destruct (py_in (Z.of_nat i) (Tucker.symmetric_modes x)).
    + apply IH in H. rewrite H. cbn [Tucker.intermediate_core_letters].
      rewrite <- app_assoc. reflexivity.
    + apply bind_ok in H as (f & _ & H). apply bind_ok in H as (g & _ & H).
      apply bind_ok in H as (yl & Hyl & H).
      apply str_index_letter_inv in Hyl as ->.
      apply IH in H. rewrite H. cbn [Tucker.intermediate_core_letters].
      rewrite <- app_assoc. reflexivity.
Qed.

Lemma chars_of_chars (cs : list ascii) : list_ascii_of_string (str_of_chars cs) = cs.
Proof.
  induction cs as [|c cs IH]; [reflexivity|].
  change (c :: list_ascii_of_string (str_of_chars cs) = c :: cs). rewrite IH. reflexivity.
Qed.

(** X26.  In [flat_inner] the result axis of a regular mode [i] is
    named [ascii_letters[ndim + 2 * i]], and the result axis of a
    symmetric mode [j] is named [ascii_letters[ndim + j]].  When a
    regular mode [i >= 1] and a symmetric mode [j = 2 * i] are both
    present, the two names are the same letter, the output of the
    contraction names it twice, and [flat_inner] raises, whatever the
    cores and factors are. *)
Theorem flat_inner_letter_clash (x z : Tucker.t) (i : nat) :
  Tucker.symmetric_modes x = Tucker.symmetric_modes z →
  1 ≤ i → 2 * i < Tucker.ndim x →
  Z.of_nat i ∉ Tucker.symmetric_modes x →
  Z.of_nat (2 * i) ∈ Tucker.symmetric_modes x →
  ∃ e, Tucker.flat_inner x z = Raise e.
Proof.
  intros Hmodes Hi Hd Hreg Hsym.
  destruct (result_cases (Tucker.flat_inner x z)) as [[v H]|He]; [exfalso | exact He].
  unfold Tucker.flat_inner in H.
  destruct (decide _) as [?|_]; [contradiction|].
  apply bind_ok in H as (sf & _ & H).
  apply bind_ok in H as (p & Hp & H).
  apply bind_ok in H as (ic & Hic & _).
  set (cl := str_slice ascii_letters 0 (Tucker.ndim x)) in *.
  assert (Hcl : letters_only cl) by (apply chars_substring, ascii_letters_only).
  pose proof (flat_inner_loop_out _ _ _ _ _ _ _ Hp) as Hout.
  apply (flat_inner_loop_plan x z sf cl _ _ p Hcl) in Hp
    as (fs & fls & tfs & tls & H1 & H2 & H3 & H4 & H5 & H6 & H7 & H8).
  cbn [Tucker.factors Tucker.factors_letters Tucker.transposed_factors
         Tucker.transposed_letters Tucker.intermediate_core_letters app] in H1, H2, H4, H5, Hout.
  rewrite H1, H2, H4, H5, Hout in Hic. unfold PyTorchBackend.einsum in Hic.
  destruct (mapM id _) as [ops|]; [|discriminate].
  set (words := [cl] ++ fls ++ tls) in *.
  assert (Hwords : Forall letters_only words).
  { unfold words. apply Forall_app. split; [repeat constructor; exact Hcl|].
    apply Forall_app. split; assumption. }
  unfold torch.einsum in Hic. rewrite split_arrow_app in Hic.
  2:{ intros Hin. apply chars_join in Hin as [Hin|(w & Hw & Hin)].
      - destruct Hin as [Heq|[]]. discriminate Heq.
      - rewrite Forall_forall in Hwords.
        apply (letter_no_separator w "-"%char); [|reflexivity|exact Hin].
        apply Hwords, list_elem_of_In, Hw. }
  cbv beta iota zeta in Hic. rewrite chars_of_chars in Hic.
  apply bind_ok in Hic as (sizes & _ & Hic).
  destruct (forallb _ _ && bool_decide (NoDup (map (out_letter x) (range (Tucker.ndim x)))))
    eqn:Hcheck; [|discriminate].
  apply andb_true_iff in Hcheck as [_ Hnd]. apply bool_decide_eq_true in Hnd.
  (* positions [i] and [2 * i] of the output hold the same letter *)
  rewrite NoDup_alt in Hnd.
  assert (Hcontra : i = 2 * i).
  { apply (Hnd i (2 * i) (letter (Tucker.ndim x + 2 * i))).
    - unfold range. rewrite (lookup_map_seq (out_letter x) 0 _ i) by lia.
      cbn [Nat.add]. unfold out_letter.
      rewrite (proj2 (py_in_false _ _) Hreg). reflexivity.
    - unfold range. rewrite (lookup_map_seq (out_letter x) 0 _ (2 * i)) by lia.
      change (0 + 2 * i) with (2 * i). unfold out_letter.
      rewrite (proj2 (py_in_spec _ _) Hsym). reflexivity. }
  lia.
Qed.

Lemma flat_inner_letter_clash_witness :
  ∃ e, Tucker.flat_inner
         (Tucker.mk (torch.mkTensor [1; 1; 1] [1%Z]) [mat11 1; mat11 1] [2%Z] (Some (mat11 1)))
         (Tucker.mk (torch.mkTensor [1; 1; 1] [1%Z]) [mat11 1; mat11 1] [2%Z] (Some (mat11 1)))
       = Raise e.
Proof.
  apply (flat_inner_letter_clash _ _ 1 eq_refl); try (cbn; lia).
  - cbn. intros H. apply list_elem_of_singleton in H. discriminate H.
  - cbn. apply list_elem_of_singleton. reflexivity.
Defined.
